(** * normflow: masked coupling layers and Metropolis correction

    A shallow embedding of three modules of the normflow package,

      - [src/mask/mask.py]               (class [Mask]),
      - [src/nn/scalar/couplings_v2_.py] (the coupling-list engines),
      - [src/mcmc/mcmc.py]               (the Metropolis samplers),

    together with the properties their specification states about them.

    Numbers.  The samplers only compare and subtract log-ratios, so they are
    modelled on IEEE binary64 numbers ([PrimFloat]), which makes the examples
    of the specification run as they are written.  The mask and the coupling
    layers are algebraic statements (a layer is undone by its inverse); they
    are modelled on the real numbers, the idealisation under which a
    statement made up to rounding error is an equation.

    Exceptions.  A Python call either returns or raises; a fallible function
    returns in [py A := exn + A]. *)

From Stdlib Require Import ZArith List Lia Bool Reals Lra Floats.
From stdpp Require Import base option list strings gmap.

Set Warnings "-inexact-float".

(** ** Python exceptions *)

Inductive exn : Type :=
  | IndexError
  | NameError
  | TypeError
  | AttributeError
  | AssertionError
  | ZeroDivisionError
  | RuntimeError.

Definition py (A : Type) : Type := (exn + A)%type.

Definition raise {A} (e : exn) : py A := inl e.

#[global] Instance py_ret : MRet py := fun _ a => inr a.
#[global] Instance py_bind : MBind py := fun _ _ k m =>
  match m with
  | inl e => inl e
  | inr a => k a
  end.

(** [l[i]] for a non-negative index: [IndexError] out of range. *)
Definition index {A} (l : list A) (i : nat) : py A :=
  match l !! i with
  | Some a => mret a
  | None => raise IndexError
  end.

(** [l[-1]]. *)
Definition index_last {A} (l : list A) : py A :=
  match last l with
  | Some a => mret a
  | None => raise IndexError
  end.

(** [for i, a in enumerate(l): s = body i a s], counting from [i]. *)
Fixpoint for_enumerate_from {A St} (body : nat -> A -> St -> St)
    (i : nat) (l : list A) (s : St) : St :=
  match l with
  | [] => s
  | a :: l' => for_enumerate_from body (S i) l' (body i a s)
  end.

Definition for_enumerate {A St} (body : nat -> A -> St -> St)
    (l : list A) (s : St) : St :=
  for_enumerate_from body 0 l s.

(** [for i in range(n): s = body i s], where the body may raise. *)
Fixpoint for_range_from {St} (body : nat -> St -> py St)
    (i n : nat) (s : St) : py St :=
  match n with
  | O => mret s
  | S n' => s' ← body i s; for_range_from body (S i) n' s'
  end.

Definition for_range {St} (body : nat -> St -> py St) (n : nat) (s : St) : py St :=
  for_range_from body 0 n s.

(** ** [mcmc.py]: class [Metropolis] *)

Module Metropolis.

Open Scope float_scope.

(** The loop body of [calc_accept_status]:
    [status[i] = rand_arr[i] < (logqp_ref - logqp_i)], then
    [if status[i]: logqp_ref = logqp_i]. *)
Definition status_body (rand_arr : nat -> float) (i : nat) (logqp_i : float)
    (st : list bool * float) : list bool * float :=
  let '(status, logqp_ref) := st in
  let status := <[i := rand_arr i <? logqp_ref - logqp_i]> status in
  match status !! i with
  | Some true => (status, logqp_i)
  | _ => (status, logqp_ref)
  end.

(** [calc_accept_status(logqp, logqp_ref=None)].

    [rand_arr i] is entry [i] of [np.log(np.random.rand(logqp.shape[0]))],
    the logarithm of the [i]-th number the process-wide random source
    draws in this call; the array has one entry per entry of [logqp].
    [np.empty] leaves [status] uninitialised: every slot is written by the
    loop before the array is returned, [false] stands for the unread
    initial content. *)
Definition calc_accept_status (rand_arr : nat -> float)
    (logqp : list float) (logqp_ref : option float) : py (list bool) :=
  logqp_ref ← match logqp_ref with
               | None => index logqp 0
               | Some r => mret r
               end;
  let status := replicate (length logqp) false in
  let '(status, _) :=
    for_enumerate (status_body rand_arr) logqp (status, logqp_ref) in
  mret status.

(** [calc_accept_indices(accept_seq)]. *)
Definition indices_body (ind : nat) (accept : bool)
    (st : list nat * nat) : list nat * nat :=
  let '(indices, cntr) := st in
  let cntr := if accept then ind else cntr in
  (<[ind := cntr]> indices, cntr).

Definition calc_accept_indices (accept_seq : list bool) : list nat :=
  let indices := replicate (length accept_seq) 0%nat in
  let cntr := 0%nat in
  fst (for_enumerate indices_body accept_seq (indices, cntr)).

(** [calc_accept_count(status)].

    The body reads the names [status], [ind], [mul] (its locals), [np],
    [len], [list] and [states].  A name is looked up among the locals, then
    in the module's globals (the imports and the four classes of
    [mcmc.py]), then among the builtins; [states] is bound in none of
    them. *)
Inductive value : Type :=
  | VBools (l : list bool)
  | VInts (l : list Z)
  | VObject.

Definition module_globals : list string :=
  ["torch"; "np"; "copy"; "torch_device"; "seize"; "estimate_logz";
   "fmt_val_err"; "Resampler"; "MCMCSampler"; "BlockedMCMCSampler";
   "MCMCHistory"; "Metropolis"]%string.

Definition builtins_used : list string :=
  ["len"; "list"; "dict"; "enumerate"; "range"; "zip"; "print";
   "isinstance"; "int"; "bool"; "property"; "staticmethod"]%string.

Definition load_name (locals : list (string * value)) (name : string)
    : py value :=
  match list_find (fun kv => kv.1 = name) locals with
  | Some (_, (_, v)) => mret v
  | None =>
      if bool_decide (name ∈ module_globals ++ builtins_used)
      then mret VObject
      else raise NameError
  end.

(** [len(v)]. *)
Definition py_len (v : value) : py Z :=
  match v with
  | VBools l => mret (Z.of_nat (length l))
  | VInts l => mret (Z.of_nat (length l))
  | VObject => raise TypeError
  end.

(** [np.where(status)[0]]: the indices of the [True] entries. *)
Definition np_where (status : list bool) : list Z :=
  omap (fun p : nat * bool => if p.2 then Some (Z.of_nat p.1) else None)
       (zip (seq 0 (length status)) status).

Definition calc_accept_count (status : list bool) : py (Z * list Z) :=
  let ind := np_where status in
  let mul := zip_with Z.sub (drop 1 ind) (take (length ind - 1) ind) in
  let locals := [("status", VBools status); ("ind", VInts ind);
                 ("mul", VInts mul)]%string in
  ind_0 ← index ind 0;
  states ← load_name locals "states";
  n ← py_len states;
  ind_last ← index_last ind;
  mret (ind_0, mul ++ [(n - ind_last)%Z]).

(** *** The algorithm in the words of the specification *)

(** The reference in force when position [i] is examined: the initial
    reference, replaced by [logqp[j]] at every accepted position [j < i]. *)
Fixpoint running_reference (rand_arr : nat -> float) (logqp : list float)
    (ref0 : float) (i : nat) : float :=
  match i with
  | O => ref0
  | S j =>
      let ref := running_reference rand_arr logqp ref0 j in
      match logqp !! j with
      | Some x => if rand_arr j <? ref - x then x else ref
      | None => ref
      end
  end.

(** Position [i] is accepted iff [log u_i < reference - logqp[i]]. *)
Definition accepted_at (rand_arr : nat -> float) (logqp : list float)
    (ref0 : float) (i : nat) : option bool :=
  x ← logqp !! i;
  Some (rand_arr i <? running_reference rand_arr logqp ref0 i - x).

(** The statuses of the first [k] positions. *)
Definition status_upto (rand_arr : nat -> float) (logqp : list float)
    (ref0 : float) (k : nat) : list bool :=
  (fun i => default false (accepted_at rand_arr logqp ref0 i)) <$> seq 0 k.

(** "If [logqp_ref] is [None] it starts as [logqp[0]]." *)
Definition initial_reference (logqp : list float) (logqp_ref : option float)
    : option float :=
  match logqp_ref with
  | Some r => Some r
  | None => logqp !! 0%nat
  end.

(** The example of the specification: the logarithms of four draws and four
    log-ratios. *)
Definition example_log_u : nat -> float :=
  fun i => nth i [-0.1; -0.1; -0.1; -5] 0.

Definition example_logqp : list float := [0; -1; 2; -0.5].

(** The index of the most recent accepted position at or before [i], if
    there is one. *)
Fixpoint last_accepted (status : list bool) (i : nat) : option nat :=
  match status !! i with
  | Some true => Some i
  | _ => match i with
         | O => None
         | S j => last_accepted status j
         end
  end.

(** What a batch emits at position [i] of one of its three tensors: the
    entry of the most recent accepted proposal, or the persisted reference
    when nothing at or before [i] has been accepted. *)
Definition emitted {A} (accept_seq : list bool) (ref_value : option A)
    (t : list A) (i : nat) : option A :=
  match last_accepted accept_seq i with
  | Some j => t !! j
  | None => ref_value
  end.

End Metropolis.

(** ** [mcmc.py]: class [MCMCSampler] *)

Module MCMCSampler.

Open Scope float_scope.

Section Sampler.

(** One configuration: an entry [y[i]] of the batch of samples. *)
Variable Sample : Type.

(** The dictionary [self._ref], with its four fixed keys; [None] until the
    first batch has been processed. *)
Record ref_dict : Type := mk_ref {
  ref_sample : option Sample;
  ref_logq : option float;
  ref_logp : option float;
  ref_logqp : option float
}.

(** [dict(sample=None, logq=None, logp=None, logqp=None)]. *)
Definition ref_init : ref_dict := mk_ref None None None None.

(** [a - b] on one-dimensional tensors: entry by entry when the lengths
    agree, a tensor of a single entry is broadcast, anything else is a shape
    error. *)
Definition tensor_sub (a b : list float) : py (list float) :=
  if (length a =? length b)%nat then mret (zip_with PrimFloat.sub a b)
  else match a, b with
       | [x], _ => mret ((fun y => x - y) <$> b)
       | _, [y] => mret ((fun x => x - y) <$> a)
       | _, _ => raise RuntimeError
       end.

(** [t[0] = v], where [v] was read from [self._ref]: a tensor entry cannot
    be set to [None], and the position must exist. *)
Definition setitem_0 {A} (t : list A) (v : option A) : py (list A) :=
  match v with
  | None => raise TypeError
  | Some a => if (0 <? length t)%nat then mret (<[0%nat := a]> t)
              else raise IndexError
  end.

(** [t.index_select(0, ind)]. *)
Definition index_select {A} (t : list A) (ind : list nat) : py (list A) :=
  mapM (index t) ind.

(** [_accept_reject_step(y, logq, logp)].  [seize] (of [lib.combo]) hands
    the values of [logq - logp] over as an array; the bookkeeping calls
    append to [self.history] and touch neither the result nor [self._ref].
    The dictionary is updated in place: the new dictionary is returned with
    the batch. *)
Definition _accept_reject_step (rand_arr : nat -> float) (ref : ref_dict)
    (y : list Sample) (logq logp : list float)
    : py (ref_dict * (list Sample * list float * list float)) :=
  let logqp_ref := ref_logqp ref in
  logqp ← tensor_sub logq logp;
  accept_seq ← Metropolis.calc_accept_status rand_arr logqp logqp_ref;
  accept_0 ← index accept_seq 0;
  '(y, logq, logp) ←
    (if accept_0 : bool then mret (y, logq, logp)
     else y ← setitem_0 y (ref_sample ref);
          logq ← setitem_0 logq (ref_logq ref);
          logp ← setitem_0 logp (ref_logp ref);
          mret (y, logq, logp)) : py (list Sample * list float * list float);
  let accept_ind := Metropolis.calc_accept_indices accept_seq in
  y ← index_select y accept_ind;
  logq ← index_select logq accept_ind;
  logp ← index_select logp accept_ind;
  y_last ← index_last y;
  logq_last ← index_last logq;
  logp_last ← index_last logp;
  let ref := mk_ref (Some y_last) (Some logq_last) (Some logp_last)
                    (Some (logq_last - logp_last)) in
  mret (ref, (y, logq, logp)).

(** The dictionary holds a reference: every call but the first. *)
Definition populated (ref : ref_dict) : Prop :=
  is_Some (ref_sample ref) /\ is_Some (ref_logq ref) /\
  is_Some (ref_logp ref).

(** [sample_(batch_size)]: the proposals [(y, logq, logp)] are what
    [self._model.raw_dist.sample_(batch_size)] returned. *)
Definition sample_ (rand_arr : nat -> float) (ref : ref_dict)
    (raw : list Sample * list float * list float)
    : py (ref_dict * (list Sample * list float * list float)) :=
  let '(y, logq, logp) := raw in
  _accept_reject_step rand_arr ref y logq logp.

End Sampler.

Arguments mk_ref {Sample}.
Arguments ref_init {Sample}.
Arguments ref_sample {Sample}.
Arguments ref_logq {Sample}.
Arguments ref_logp {Sample}.
Arguments ref_logqp {Sample}.
Arguments populated {Sample}.
Arguments _accept_reject_step {Sample}.
Arguments sample_ {Sample}.

End MCMCSampler.

(** ** [mcmc.py]: class [BlockedMCMCSampler] *)

Module BlockedMCMCSampler.

Open Scope float_scope.

(** The calls the sampler makes on the prior's block updater, in order. *)
Inductive event : Type :=
  | Update (block : nat)
  | Restore (block : nat).

Section Blocked.

(** [X]: the pre-image [x] (a batch of one), which the block updater
    changes in place, together with what the updater remembers in order to
    restore a block.  [Y]: a configuration. *)
Variables X Y : Type.

(** The collaborators of [self._model]: [net_(x)] returns [(y, logJ)],
    [net_.backward(y.unsqueeze(0))[0]] the pre-image of a stored sample,
    [prior.log_prob], [action], [prior.sample(1)], [prior.nvar], and the
    block updater with its [restore]. *)
Variable net_ : X -> Y * float.
Variable net_backward : Y -> py X.
Variable log_prob : X -> float.
Variable action : Y -> float.
Variable prior_sample : X.
Variable nvar : nat.
Variable blockupdater : X -> nat -> X.
Variable blockupdater_restore : X -> nat -> X.

(** The mutable things a sweep works on: [x], the log of calls made on the
    updater, the array [accept_seq] and the carried [logqp_ref]. *)
Record sweep_state : Type := mk_sweep {
  sw_x : X;
  sw_calls : list event;
  sw_accept_seq : list bool;
  sw_logqp_ref : option float
}.

(** [(logq - logp)] of the whole configuration [x]:
    [y, logJ = net_(x); logq = prior.log_prob(x) - logJ; logp = -action(y)]. *)
Definition logqp_of (x : X) : float :=
  let '(y, logJ) := net_ x in
  let logq := log_prob x - logJ in
  let logp := - action y in
  logq - logp.

(** The body of the loop of [sweep].  Subtracting from [None] is a
    [TypeError]. *)
Definition sweep_body (lrand_arr : nat -> float) (ind : nat)
    (st : sweep_state) : py sweep_state :=
  let x := blockupdater (sw_x st) ind in
  let calls := sw_calls st ++ [Update ind] in
  let logqp := logqp_of x in
  accept ← match sw_logqp_ref st with
            | None => if (ind =? 0)%nat then mret true else raise TypeError
            | Some logqp_ref => mret (lrand_arr ind <? logqp_ref - logqp)
            end;
  let accept_seq := <[ind := accept]> (sw_accept_seq st) in
  if accept : bool
  then mret (mk_sweep x calls accept_seq (Some logqp))
  else mret (mk_sweep (blockupdater_restore x ind) (calls ++ [Restore ind])
                      accept_seq (sw_logqp_ref st)).

(** [sweep(x, n_blocks, logqp_ref)]: returns [accept_seq, logqp_ref]; [x]
    has been changed in place.  [lrand_arr i] is entry [i] of
    [np.log(np.random.rand(n_blocks))]. *)
Definition sweep (lrand_arr : nat -> float) (x : X) (calls : list event)
    (n_blocks : nat) (logqp_ref : option float) : py sweep_state :=
  let accept_seq := replicate n_blocks false in
  for_range (sweep_body lrand_arr) n_blocks
            (mk_sweep x calls accept_seq logqp_ref).

(** The start of [sample_]: [try: x = net_.backward(self._ref['sample']
    .unsqueeze(0))[0]; logqp_ref = self._ref['logqp']], and on any exception
    (a [None] has no [unsqueeze]) [x = prior.sample(1); logqp_ref = None]. *)
Definition start (ref : MCMCSampler.ref_dict Y) : X * option float :=
  let attempt : py (X * option float) :=
    y ← match MCMCSampler.ref_sample ref with
         | None => raise AttributeError
         | Some y => mret y
         end;
    x ← net_backward y;
    mret (x, MCMCSampler.ref_logqp ref) in
  match attempt with
  | inr r => r
  | inl _ => (prior_sample, None)
  end.

(** The loop of [sample_] over the batch: one sweep per emitted sample, the
    reference carried from sweep to sweep.  [lrand k] is the array of draws
    of sweep [k].  The state is [x], the calls, the rows of [accept_seq] and
    the reference. *)
Definition sample_body (lrand : nat -> nat -> float) (n_blocks : nat)
    (ind : nat) (st : X * list event * list (list bool) * option float)
    : py (X * list event * list (list bool) * option float) :=
  let '(x, calls, rows, logqp_ref) := st in
  sw ← sweep (lrand ind) x calls n_blocks logqp_ref;
  mret (sw_x sw, sw_calls sw, rows ++ [sw_accept_seq sw], sw_logqp_ref sw).

Definition sample_sweeps (lrand : nat -> nat -> float)
    (ref : MCMCSampler.ref_dict Y) (batch_size n_blocks : nat)
    : py (X * list event * list (list bool) * option float) :=
  let '(x, logqp_ref) := start ref in
  _ ← (if (n_blocks =? 0)%nat then raise ZeroDivisionError
       else if (nvar `div` n_blocks * n_blocks =? nvar)%nat then mret tt
       else raise AssertionError);
  for_range (sample_body lrand n_blocks) batch_size (x, [], [], logqp_ref).

(** *** The sweep in the words of the specification *)

(** One block update judged by one Metropolis draw against the carried
    reference: with no reference the first block is accepted; on acceptance
    the reference becomes the new ratio, on rejection the block is restored
    and the reference stays. *)
Definition judge (lrand_arr : nat -> float) (ind : nat)
    (logqp_ref : option float) (logqp : float) : bool :=
  match logqp_ref with
  | None => true
  | Some r => lrand_arr ind <? r - logqp
  end.

Fixpoint blocks (lrand_arr : nat -> float) (ind n : nat) (x : X)
    (logqp_ref : option float) : X * list event * list bool * option float :=
  match n with
  | O => (x, [], [], logqp_ref)
  | S n' =>
      let x' := blockupdater x ind in
      let accept := judge lrand_arr ind logqp_ref (logqp_of x') in
      let '(x_end, calls, accept_seq, ref_end) :=
        if accept
        then blocks lrand_arr (S ind) n' x' (Some (logqp_of x'))
        else blocks lrand_arr (S ind) n' (blockupdater_restore x' ind)
                    logqp_ref in
      (x_end,
       Update ind :: (if accept then [] else [Restore ind]) ++ calls,
       accept :: accept_seq, ref_end)
  end.

(** *** [sample_], whole *)

(** The locals of the loop of [sample_]: [x], the calls made on the updater,
    the rows of [accept_seq] written so far, [logqp_ref], the local [y]
    (unbound before the first pass) and the parts of [cfgs], [logq] and
    [logp] written so far. *)
Record sample_state : Type := mk_sample {
  sa_x : X;
  sa_calls : list event;
  sa_accept_seq : list (list bool);
  sa_logqp_ref : option float;
  sa_y : option Y;
  sa_cfgs : list Y;
  sa_logq : list float;
  sa_logp : list float
}.

(** One pass through the loop of [sample_]: a sweep, then
    [y, logJ = net_(x); logq[ind] = prior.log_prob(x) - logJ;
    logp[ind] = -action(y); cfgs[ind] = y]. *)
Definition sample_step (lrand : nat -> nat -> float) (n_blocks : nat)
    (ind : nat) (st : sample_state) : py sample_state :=
  sw ← sweep (lrand ind) (sa_x st) (sa_calls st) n_blocks (sa_logqp_ref st);
  let x := sw_x sw in
  let '(y, logJ) := net_ x in
  mret (mk_sample x (sw_calls sw) (sa_accept_seq st ++ [sw_accept_seq sw])
                  (sw_logqp_ref sw) (Some y) (sa_cfgs st ++ [y])
                  (sa_logq st ++ [log_prob x - logJ])
                  (sa_logp st ++ [- action y])).

(** [sample_(batch_size, n_blocks)]: [n_blocks] is a non-negative [int], or
    ([None] here) something that is not an [int], which stands for a single
    block.  [prior.setup_blockupdater(block_len)] installs the updater the
    sweeps call.  After the loop the local [y] is read: with an empty batch
    it was never bound, and [UnboundLocalError] is a [NameError].  The
    result is the new [self._ref], the three tensors returned, and with
    them the array [accept_seq] and the calls made on the updater. *)
Definition sample_ (lrand : nat -> nat -> float)
    (ref : MCMCSampler.ref_dict Y) (batch_size : nat) (n_blocks : option nat)
    : py (MCMCSampler.ref_dict Y * (list Y * list float * list float)
          * list (list bool) * list event) :=
  let '(x, logqp_ref) := start ref in
  n_blocks ← match n_blocks with
              | Some n =>
                  if (n =? 0)%nat then raise ZeroDivisionError
                  else if (nvar `div` n * n =? nvar)%nat then mret n
                  else raise AssertionError
              | None => mret 1%nat
              end;
  st ← for_range (sample_step lrand n_blocks) batch_size
         (mk_sample x [] [] logqp_ref None [] [] []);
  y ← match sa_y st with
       | None => raise NameError
       | Some y => mret y
       end;
  logq_last ← index_last (sa_logq st);
  logp_last ← index_last (sa_logp st);
  let ref := MCMCSampler.mk_ref (Some y) (Some logq_last) (Some logp_last)
                                (Some (logq_last - logp_last)) in
  mret (ref, (sa_cfgs st, sa_logq st, sa_logp st), sa_accept_seq st,
        sa_calls st).

End Blocked.

End BlockedMCMCSampler.

(** ** [mcmc.py]: class [MCMCHistory] *)

Module MCMCHistory.

Open Scope float_scope.

(** The seven lists of a history. *)
Record t : Type := mk {
  logq : list (list float);
  logp : list (list float);
  raw_logq : list (list float);
  raw_logp : list (list float);
  accept_seq : list (list bool);
  accept_ind : list (list nat);
  accept_rate : list float
}.

(** [reset_history()], which [__init__] calls. *)
Definition reset_history : t := mk [] [] [] [] [] [] [].

(** [if v is not None: l.append(v)]. *)
Definition append {A} (l : list A) (v : option A) : list A :=
  match v with
  | Some a => l ++ [a]
  | None => l
  end.

(** [bookkeeping(logq, logp, raw_logq, raw_logp, accept_seq, accept_rate,
    accept_ind)], every argument [None] by default.  [seize] hands the
    values over as an array, and the raw arrays are copied. *)
Definition bookkeeping (self : t)
    (logq logp raw_logq raw_logp : option (list float))
    (accept_seq : option (list bool)) (accept_rate : option float)
    (accept_ind : option (list nat)) : t :=
  mk (append (MCMCHistory.logq self) logq)
     (append (MCMCHistory.logp self) logp)
     (append (MCMCHistory.raw_logq self) raw_logq)
     (append (MCMCHistory.raw_logp self) raw_logp)
     (append (MCMCHistory.accept_seq self) accept_seq)
     (append (MCMCHistory.accept_ind self) accept_ind)
     (append (MCMCHistory.accept_rate self) accept_rate).

(** [report_summary()]: [self.logq[-1] - self.logp[-1]] is evaluated first;
    [summary] stands for what is made of it and of [self.accept_rate] by
    the means, the deviations and [estimate_logz] (of [lib.combo]). *)
Definition report_summary {Report} (summary : list float -> list float -> Report)
    (self : t) : py Report :=
  q ← index_last (MCMCHistory.logq self);
  p ← index_last (MCMCHistory.logp self);
  logqp ← MCMCSampler.tensor_sub q p;
  mret (summary logqp (MCMCHistory.accept_rate self)).

(** The six lists that only a call with [bookkeeping=True] extends have as
    many entries each, and the rates at least as many. *)
Definition aligned (self : t) : Prop :=
  length (MCMCHistory.logp self) = length (MCMCHistory.logq self) /\
  length (MCMCHistory.raw_logq self) = length (MCMCHistory.logq self) /\
  length (MCMCHistory.raw_logp self) = length (MCMCHistory.logq self) /\
  length (MCMCHistory.accept_seq self) = length (MCMCHistory.logq self) /\
  length (MCMCHistory.accept_ind self) = length (MCMCHistory.logq self) /\
  (length (MCMCHistory.logq self) <= length (MCMCHistory.accept_rate self))%nat.

End MCMCHistory.

(** ** [mcmc.py]: an [MCMCSampler] with its history *)

Module Sampler.

Open Scope float_scope.

Section Sampler.

Variable Sample : Type.

(** [np.mean] of an array of statuses. *)
Variable np_mean : list bool -> float.

(** The attributes of the sampler that its methods change. *)
Record t : Type := mk {
  _ref : MCMCSampler.ref_dict Sample;
  history : MCMCHistory.t
}.

(** [__init__]. *)
Definition init : t := mk MCMCSampler.ref_init MCMCHistory.reset_history.

(** [_accept_reject_step(y, logq, logp, bookkeeping)], with the two calls
    of [self.history.bookkeeping] at its end.  Every statement that can
    raise comes before the first assignment to [self._ref] that can be
    reached, so an exception leaves the sampler as it was. *)
Definition _accept_reject_step (rand_arr : nat -> float) (self : t)
    (y : list Sample) (logq logp : list float) (bookkeeping : bool)
    : t * py (list Sample * list float * list float) :=
  let ref := _ref self in
  let logqp_ref := MCMCSampler.ref_logqp ref in
  let run : py (list bool * list nat * MCMCSampler.ref_dict Sample
                * (list Sample * list float * list float)) :=
    logqp ← MCMCSampler.tensor_sub logq logp;
    accept_seq ← Metropolis.calc_accept_status rand_arr logqp logqp_ref;
    accept_0 ← index accept_seq 0;
    '(y, logq, logp) ←
      (if accept_0 : bool then mret (y, logq, logp)
       else y ← MCMCSampler.setitem_0 y (MCMCSampler.ref_sample ref);
            logq ← MCMCSampler.setitem_0 logq (MCMCSampler.ref_logq ref);
            logp ← MCMCSampler.setitem_0 logp (MCMCSampler.ref_logp ref);
            mret (y, logq, logp))
      : py (list Sample * list float * list float);
    let accept_ind := Metropolis.calc_accept_indices accept_seq in
    y ← MCMCSampler.index_select y accept_ind;
    logq ← MCMCSampler.index_select logq accept_ind;
    logp ← MCMCSampler.index_select logp accept_ind;
    y_last ← index_last y;
    logq_last ← index_last logq;
    logp_last ← index_last logp;
    let ref := MCMCSampler.mk_ref (Some y_last) (Some logq_last)
                 (Some logp_last) (Some (logq_last - logp_last)) in
    mret (accept_seq, accept_ind, ref, (y, logq, logp)) in
  match run with
  | inl e => (self, inl e)
  | inr (accept_seq, accept_ind, ref, out) =>
      let h := MCMCHistory.bookkeeping (history self) None None None None
                 None (Some (np_mean accept_seq)) None in
      let h := if bookkeeping
               then MCMCHistory.bookkeeping h None None None None
                      (Some accept_seq) None (Some accept_ind)
               else h in
      (mk ref h, inr out)
  end.

(** [sample_(batch_size, bookkeeping)]; [raw] is what
    [self._model.raw_dist.sample_(batch_size)] returned. *)
Definition sample_ (rand_arr : nat -> float) (self : t)
    (raw : list Sample * list float * list float) (bookkeeping : bool)
    : t * py (list Sample * list float * list float) :=
  let '(y, logq, logp) := raw in
  let self :=
    if bookkeeping
    then mk (_ref self)
            (MCMCHistory.bookkeeping (history self) None None
               (Some logq) (Some logp) None None None)
    else self in
  let '(self, r) := _accept_reject_step rand_arr self y logq logp bookkeeping in
  match r with
  | inl e => (self, inl e)
  | inr (y, logq, logp) =>
      let self :=
        if bookkeeping
        then mk (_ref self)
                (MCMCHistory.bookkeeping (history self) (Some logq)
                   (Some logp) None None None None None)
        else self in
      (self, inr (y, logq, logp))
  end.

End Sampler.

Arguments mk {Sample}.
Arguments _ref {Sample}.
Arguments history {Sample}.
Arguments init {Sample}.
Arguments _accept_reject_step {Sample}.
Arguments sample_ {Sample}.

End Sampler.

(** ** [mcmc.py]: [MCMCSampler.serial_sample_generator] *)

Module Serial.

Section Serial.

(** [St]: everything a call of [self.sample_] reads and changes (the
    sampler, the model's random source).  [sample_ batch_size st] is that
    call: the state it leaves, and the batch or the exception. *)
Variables St Sample : Type.
Variable sample_ :
  nat -> St -> St * py (list Sample * list float * list float).

(** What one [yield] hands out: [(y[ind], logq[ind], logp[ind])], each
    unsqueezed to a batch of one. *)
Definition item : Type := (Sample * float * float)%type.

(** The frame of the generator: the state behind [self], the locals
    [y, logq, logp] (unbound before the first batch), and what has been
    yielded so far. *)
Record frame : Type := mk {
  sampler : St;
  batch : option (list Sample * list float * list float);
  yielded : list item
}.

(** One pass through the loop: [ind = i % batch_size], a new batch when
    [ind == 0], and the [yield].  An exception ends the generator; what was
    yielded before it has been handed out. *)
Definition pass (batch_size : nat) (i : nat) (fr : frame)
    : frame * option exn :=
  if (batch_size =? 0)%nat then (fr, Some ZeroDivisionError)
  else
    let ind := (i `mod` batch_size)%nat in
    let '(fr, e) :=
      if (ind =? 0)%nat
      then match sample_ batch_size (sampler fr) with
           | (st, inr b) => (mk st (Some b) (yielded fr), None)
           | (st, inl e) => (mk st (batch fr) (yielded fr), Some e)
           end
      else (fr, None) in
    match e with
    | Some e => (fr, Some e)
    | None =>
        match batch fr with
        | None => (fr, Some NameError)
        | Some (y, logq, logp) =>
            match (a ← index y ind; q ← index logq ind; p ← index logp ind;
                   mret (a, q, p)) : py item with
            | inl e => (fr, Some e)
            | inr it => (mk (sampler fr) (batch fr) (yielded fr ++ [it]), None)
            end
        end
    end.

(** [for i in range(i, i + n)]. *)
Fixpoint passes (batch_size : nat) (i n : nat) (fr : frame)
    : frame * option exn :=
  match n with
  | O => (fr, None)
  | S n' =>
      match pass batch_size i fr with
      | (fr, Some e) => (fr, Some e)
      | (fr, None) => passes batch_size (S i) n' fr
      end
  end.

(** [serial_sample_generator(n_samples, batch_size)], run to its end. *)
Definition serial_sample_generator (n_samples batch_size : nat) (st : St)
    : frame * option exn :=
  passes batch_size 0 n_samples (mk st None []).

(** *** Batch after batch *)

(** The first [k] batches of a sampler whose calls return, [next] being
    what a call leaves and returns. *)
Fixpoint draw (next : St -> St * (list Sample * list float * list float))
    (k : nat) (st : St)
    : St * list (list Sample * list float * list float) :=
  match k with
  | O => (st, [])
  | S k' =>
      let '(st, bs) := draw next k' st in
      let '(st, b) := next st in
      (st, bs ++ [b])
  end.

(** The elements of a batch. *)
Definition items (b : list Sample * list float * list float) : list item :=
  zip (zip b.1.1 b.1.2) b.2.

End Serial.

Arguments frame : clear implicits.
Arguments mk {St Sample}.
Arguments sampler {St Sample}.
Arguments batch {St Sample}.
Arguments yielded {St Sample}.
Arguments pass {St Sample}.
Arguments passes {St Sample}.
Arguments serial_sample_generator {St Sample}.
Arguments draw {St Sample}.
Arguments items {Sample}.

End Serial.

(** ** Tensors

    A tensor of shape [[..., *shape]] is kept as its rows: one row per index
    of the leading (batch) dimensions, each row the trailing block of
    [prod shape] entries in storage (row-major) order.  Torch refuses to
    combine tensors whose shapes do not fit; here that is a [RuntimeError]. *)

Abbreviation tensor A := (list (list A)).

(** A loop over the rows of one tensor, and over the paired rows of two
    tensors of as many rows. *)
Definition rowsM {A B} (f : list A -> py (list B)) (x : tensor A) : py (tensor B) :=
  mapM f x.

Fixpoint rows2M {A B C} (f : list A -> list B -> py (list C))
    (x : tensor A) (y : tensor B) : py (tensor C) :=
  match x, y with
  | [], [] => mret []
  | r :: x', q :: y' => o ← f r q; t ← rows2M f x' y'; mret (o :: t)
  | _, _ => raise RuntimeError
  end.

(** Entry by entry on two rows of the same length. *)
Definition zip_same {A B C} (f : A -> B -> C) (r : list A) (q : list B)
    : py (list C) :=
  if (length r =? length q)%nat then mret (zip_with f r q)
  else raise RuntimeError.

(** [x (op) y] for tensors of one shape. *)
Definition tensor_map2 (f : R -> R -> R) (x y : tensor R) : py (tensor R) :=
  rows2M (zip_same f) x y.

(** ** [mask.py]: class [Mask] *)

Module Mask.

Inductive split_form : Type :=
  | even_odd
  | half_half.

(** [range(l)] and [itertools.product] of the ranges: all multi-indices, the
    last coordinate running fastest. *)
Definition range (l : nat) : list nat := seq 0 l.

Fixpoint product (iterables : list (list nat)) : list (list nat) :=
  match iterables with
  | [] => [[]]
  | l :: rest => a ← l; ind ← product rest; [a :: ind]
  end.

(** [sum(ind)]. *)
Definition sum (ind : list nat) : Z := foldr (fun a acc => Z.of_nat a + acc)%Z 0%Z ind.

(** The number of entries of a tensor of the given shape. *)
Definition numel (shape : list nat) : nat := foldr Nat.mul 1%nat shape.

(** A Python integer stored into a [uint8] tensor. *)
Definition to_uint8 (z : Z) : Z := (z mod 256)%Z.

(** [evenodd(shape, parity)]: [mask[ind] = (sum(ind) + parity) % 2] for
    every multi-index; the product enumerates the indices in storage order,
    so the stored mask is the list of these values. *)
Definition evenodd (shape : list nat) (parity : Z) : list Z :=
  (fun ind => to_uint8 ((sum ind + parity) mod 2)%Z)
    <$> product (range <$> shape).

(** [halfhalf(shape, parity)]: [n = (1 + shape[-1]) // 2;
    mask[..., :n] = parity; mask[..., n:] = 1 - parity]. *)
Definition halfhalf (shape : list nat) (parity : Z) : py (list Z) :=
  match last shape with
  | None => raise IndexError
  | Some l =>
      let n := ((1 + l) `div` 2)%nat in
      let line := replicate n (to_uint8 parity)
                  ++ replicate (l - n) (to_uint8 (1 - parity)) in
      mret (concat (replicate (numel (removelast shape)) line))
  end.

(** The attributes of a [Mask] object; [cat_mask] is only set when
    [keepshape] is false, and the three methods [split], [cat], [purify] are
    bound according to [keepshape]. *)
Record t : Type := mk {
  mask : list Z;
  cat_mask : option (list Z);
  shape : list nat;
  keepshape : bool
}.

Definition get_mask (shape : list nat) (parity : Z) (form : split_form)
    : py (list Z) :=
  match form with
  | even_odd => mret (evenodd shape parity)
  | half_half => halfhalf shape parity
  end.

(** [Mask(shape, parity, keepshape, split_form)]. *)
Definition init (shape : list nat) (parity : Z) (keepshape : bool)
    (form : split_form) : py t :=
  m ← get_mask shape parity form;
  cm ← (if keepshape then mret None
        else cm ← get_mask shape parity form; mret (Some cm));
  mret (mk m cm shape keepshape).

(** [1 - self.mask], in [uint8]. *)
Definition one_minus (m : list Z) : list Z :=
  (fun z => to_uint8 (1 - z)) <$> m.

(** [m * x] and [m * x + a], the masks broadcast over the rows of [x]. *)
Definition mask_mul (m : list Z) (x : tensor R) : py (tensor R) :=
  rowsM (zip_same (fun z r => IZR z * r)%R m) x.

Definition mask_mul_add (m a : list Z) (x : tensor R) : py (tensor R) :=
  rowsM (fun r => q ← zip_same (fun z r => IZR z * r)%R m r;
                  zip_same (fun z r => r + IZR z)%R a q) x.

Definition _sameshape_split (self : t) (x : tensor R)
    : py (tensor R * tensor R) :=
  x_0 ← mask_mul (one_minus (mask self)) x;
  x_1 ← mask_mul (mask self) x;
  mret (x_0, x_1).

Definition _sameshape_cat (self : t) (x_0 x_1 : tensor R) : py (tensor R) :=
  tensor_map2 Rplus x_0 x_1.

Definition _sameshape_purify (self : t) (x_chnl : tensor R) (channel : nat)
    (zero2one : bool) : py (tensor R) :=
  if negb zero2one then
    if (channel =? 0)%nat then mask_mul (one_minus (mask self)) x_chnl
    else mask_mul (mask self) x_chnl
  else
    if (channel =? 0)%nat
    then mask_mul_add (one_minus (mask self)) (mask self) x_chnl
    else mask_mul_add (mask self) (one_minus (mask self)) x_chnl.

(** [torch.masked_select(row, mask == v)]: the entries where the mask is
    [v], in order. *)
Fixpoint select {A} (m : list Z) (v : Z) (row : list A) : list A :=
  match m, row with
  | z :: m', a :: row' =>
      if (z =? v)%Z then a :: select m' v row' else select m' v row'
  | _, _ => []
  end.

(** [row[mask == v] = src]: the positions where the mask is [v] receive the
    entries of [src] in order; there must be as many of the ones as of the
    others. *)
Fixpoint assign {A} (row : list A) (m : list Z) (v : Z) (src : list A)
    : py (list A) :=
  match m, row with
  | [], [] => match src with
              | [] => mret []
              | _ => raise RuntimeError
              end
  | z :: m', a :: row' =>
      if (z =? v)%Z
      then match src with
           | b :: src' => o ← assign row' m' v src'; mret (b :: o)
           | [] => raise RuntimeError
           end
      else o ← assign row' m' v src; mret (a :: o)
  | _, _ => raise RuntimeError
  end.

Definition _anothershape_split (self : t) (x : tensor R)
    : py (tensor R * tensor R) :=
  let mask := mask self in
  let pick v := rowsM (fun r => if (length r =? length mask)%nat
                                 then mret (select mask v r)
                                 else raise RuntimeError) x in
  x_0 ← pick 0%Z;
  x_1 ← pick 1%Z;
  mret (x_0, x_1).

(** [torch.empty] returns unspecified entries; [0] stands for them. *)
Definition _anothershape_cat (self : t) (x_0 x_1 : tensor R)
    : py (tensor R) :=
  mask ← match cat_mask self with
          | None => raise AttributeError
          | Some m => mret m
          end;
  let empty := replicate (numel (shape self)) 0%R in
  rows2M (fun r_0 r_1 => x ← assign empty mask 0%Z r_0;
                         assign x mask 1%Z r_1) x_0 x_1.

Definition _anothershape_purify (self : t) (x_chnl : tensor R)
    (channel : nat) (zero2one : bool) : py (tensor R) :=
  mret x_chnl.

Definition split (self : t) : tensor R -> py (tensor R * tensor R) :=
  if keepshape self then _sameshape_split self
  else _anothershape_split self.

Definition cat (self : t) : tensor R -> tensor R -> py (tensor R) :=
  if keepshape self then _sameshape_cat self else _anothershape_cat self.

Definition purify (self : t)
    : tensor R -> nat -> bool -> py (tensor R) :=
  if keepshape self then _sameshape_purify self
  else _anothershape_purify self.

(** *** Shapes and channels *)

(** The entries of a mask are [0] and [1]. *)
Definition binary (m : list Z) : Prop :=
  Forall (fun z => z = 0 \/ z = 1)%Z m.

(** [m * r] on one row. *)
Definition mrow (m : list Z) (r : list R) : list R :=
  zip_with (fun z a => IZR z * a)%R m r.

(** [x] has the trailing shape of the mask. *)
Definition fits (self : t) (x : tensor R) : Prop :=
  Forall (fun r => length r = numel (shape self)) x.

(** The number of positions of channel [c]. *)
Definition width (self : t) (c : nat) : nat :=
  length (select (mask self) (Z.of_nat c) (mask self)).

(** [x] is a tensor of channel [c]: in the same-shape mode it has the shape
    of the mask and vanishes off the channel, in the reshaped mode its rows
    hold the entries of the channel. *)
Definition in_channel (self : t) (c : nat) (x : tensor R) : Prop :=
  if keepshape self
  then Forall (Forall2 (fun z a => z <> Z.of_nat c -> a = 0%R) (mask self)) x
  else Forall (fun r => length r = width self c) x.

End Mask.

(** ** [couplings_v2_.py]: the coupling-list engines *)

Module Couplings.

Open Scope R_scope.

(** [for k in ks: s = body k s], where the body may raise. *)
Fixpoint for_each {K St} (body : K -> St -> py St) (ks : list K) (s : St)
    : py St :=
  match ks with
  | [] => mret s
  | k :: ks' => s' ← body k s; for_each body ks' s'
  end.

(** [enumerate(nets)]. *)
Definition enumerate {A} (l : list A) : list (nat * A) :=
  imap (fun k a => (k, a)) l.

(** A parametric function, an entry of [self.nets]: called on the frozen
    tensor with the channel axis inserted, it returns a tensor with a
    channel axis, kept here as the list of its channels. *)
Definition net : Type := tensor R -> list (tensor R).

(** The accumulated log-Jacobian: the number [log0 = 0] the caller passes,
    or a tensor with one entry per sample. *)
Inductive logval : Type :=
  | LNum (r : R)
  | LVec (v : list R).

(** Modelled from the spec: [Module_.sum_density] of [nn/_core.py], which is
    not among the sources: "the log-Jacobian decreases by sum(s) over active
    elements", the sum of a sample's entries, one sum per sample. *)
Definition sum_density (x : tensor R) : list R := foldr Rplus 0 <$> x.

(** [log0 - v], [log0 + v] and [l1 + l2]. *)
Definition log_op (f : R -> R -> R) (log0 : logval) (v : list R)
    : py logval :=
  match log0 with
  | LNum r => mret (LVec (f r <$> v))
  | LVec u => w ← zip_same f u v; mret (LVec w)
  end.

Definition log_plus (l1 l2 : logval) : py logval :=
  match l2 with
  | LNum r => match l1 with
              | LNum r1 => mret (LNum (r1 + r))
              | LVec u => mret (LVec ((fun a => a + r) <$> u))
              end
  | LVec v => log_op Rplus l1 v
  end.

Inductive kind : Type :=
  | ShiftList_
  | AffineList_.

(** An engine: its class and the attributes [__init__] stores.
    [channels_axis] only says where the channel axis of the nets sits. *)
Record t : Type := mk {
  cls : kind;
  nets : list net;
  mask : Mask.t;
  channels_axis : Z;
  zee2sym : bool;
  label : string
}.

(** [preprocess_fz(x) = x.unsqueeze(self.channels_axis)]; [None] has no
    [unsqueeze]. *)
Definition preprocess_fz (self : t) (x : option (tensor R)) : py (tensor R) :=
  match x with
  | None => raise AttributeError
  | Some x => mret x
  end.

(** [postprocess(x) = x.squeeze(self.channels_axis)]: the one channel.  With
    another number of channels the squeeze changes nothing and the
    arithmetic that follows meets a tensor of another shape. *)
Definition postprocess (self : t) (out : list (tensor R)) : py (tensor R) :=
  match out with
  | [x] => mret x
  | _ => raise RuntimeError
  end.

(** [t, s = out.split((1, 1), dim=self.channels_axis)], each squeezed. *)
Definition split_1_1 (self : t) (out : list (tensor R))
    : py (tensor R * tensor R) :=
  match out with
  | [x_t; x_s] => mret (x_t, x_s)
  | _ => raise RuntimeError
  end.

Definition tensor_map (f : R -> R) (x : tensor R) : tensor R :=
  (fun r : list R => f <$> r) <$> x.

(** [ShiftList_.atomic_forward] and [atomic_backward]. *)
Definition shift_atomic (op : R -> R -> R) (self : t)
    (x_active : tensor R) (x_frozen : option (tensor R)) (parity : nat)
    (f : net) (log0 : logval) : py (tensor R * logval) :=
  x_fz ← preprocess_fz self x_frozen;
  x_t ← postprocess self (f x_fz);
  y ← tensor_map2 op x_active x_t;
  y ← Mask.purify (mask self) y parity false;
  mret (y, log0).

(** [AffineList_.atomic_forward]. *)
Definition affine_atomic_forward (self : t)
    (x_active : tensor R) (x_frozen : option (tensor R)) (parity : nat)
    (f : net) (log0 : logval) : py (tensor R * logval) :=
  x_fz ← preprocess_fz self x_frozen;
  '(x_t, x_s) ← split_1_1 self (f x_fz);
  x_t ← Mask.purify (mask self) x_t parity false;
  x_s ← Mask.purify (mask self) x_s parity false;
  let x_s := if zee2sym self then tensor_map Rabs x_s else x_s in
  y ← tensor_map2 Rmult x_active (tensor_map (fun a => exp (- a)) x_s);
  y ← tensor_map2 Rplus x_t y;
  log0 ← log_op Rminus log0 (sum_density x_s);
  mret (y, log0).

(** [AffineList_.atomic_backward]. *)
Definition affine_atomic_backward (self : t)
    (x_active : tensor R) (x_frozen : option (tensor R)) (parity : nat)
    (f : net) (log0 : logval) : py (tensor R * logval) :=
  x_fz ← preprocess_fz self x_frozen;
  '(x_t, x_s) ← split_1_1 self (f x_fz);
  x_t ← Mask.purify (mask self) x_t parity false;
  x_s ← Mask.purify (mask self) x_s parity false;
  let x_s := if zee2sym self then tensor_map Rabs x_s else x_s in
  y ← tensor_map2 Rminus x_active x_t;
  y ← tensor_map2 Rmult y (tensor_map exp x_s);
  log0 ← log_op Rplus log0 (sum_density x_s);
  mret (y, log0).

(** The methods the class of the engine provides. *)
Definition atomic_forward (self : t) :=
  match cls self with
  | ShiftList_ => shift_atomic Rplus self
  | AffineList_ => affine_atomic_forward self
  end.

Definition atomic_backward (self : t) :=
  match cls self with
  | ShiftList_ => shift_atomic Rminus self
  | AffineList_ => affine_atomic_backward self
  end.

(** The list [x = [x_0, x_1]] and the running [log0]. *)
Definition state : Type := (tensor R * tensor R * logval)%type.

Definition item (parity : nat) (x : tensor R * tensor R) : tensor R :=
  if (parity =? 0)%nat then x.1 else x.2.

Definition set_item (parity : nat) (x : tensor R * tensor R) (v : tensor R)
    : tensor R * tensor R :=
  if (parity =? 0)%nat then (v, x.2) else (x.1, v).

(** One pass through the loop of [forward] or [backward], for layer [k]
    with net [f]; a controlled engine hands its control to layer [0] in
    place of the frozen channel. *)
Definition layer (self : t)
    (atomic : tensor R -> option (tensor R) -> nat -> net -> logval
              -> py (tensor R * logval))
    (control : option (option (tensor R))) (k : nat) (f : net)
    (st : state) : py state :=
  let '(x, log0) := st in
  let parity := (k `mod` 2)%nat in
  let x_frozen :=
    match control with
    | Some c => if (k =? 0)%nat then c else Some (item (1 - parity) x)
    | None => Some (item (1 - parity) x)
    end in
  '(y, log0) ← atomic (item parity x) x_frozen parity f log0;
  mret (set_item parity x y, log0).

Definition forward_loop (self : t) (control : option (option (tensor R)))
    (st : state) : py state :=
  for_each (fun '(k, f) => layer self (atomic_forward self) control k f)
           (enumerate (nets self)) st.

(** [for k in list(range(len(self.nets)))[::-1]], with [self.nets[k]]. *)
Definition backward_loop (self : t) (control : option (option (tensor R)))
    (st : state) : py state :=
  for_each (fun k st => f ← index (nets self) k;
                        layer self (atomic_backward self) control k f st)
           (reverse (seq 0 (length (nets self)))) st.

(** [CouplingList_.forward(x, log0)] and [backward(x, log0)]. *)
Definition forward (self : t) (x : tensor R) (log0 : logval)
    : py (tensor R * logval) :=
  x ← Mask.split (mask self) x;
  '(x, log0) ← forward_loop self None (x, log0);
  y ← Mask.cat (mask self) x.1 x.2;
  mret (y, log0).

Definition backward (self : t) (x : tensor R) (log0 : logval)
    : py (tensor R * logval) :=
  x ← Mask.split (mask self) x;
  '(x, log0) ← backward_loop self None (x, log0);
  y ← Mask.cat (mask self) x.1 x.2;
  mret (y, log0).

(** *** Shapes *)

(** What [purify(x, channel=parity)] does to one row. *)
Definition purify_row (m : Mask.t) (parity : nat) (r : list R) : list R :=
  if Mask.keepshape m
  then Mask.mrow (if (parity =? 0)%nat then Mask.one_minus (Mask.mask m)
                  else Mask.mask m) r
  else r.

(** One row of a tensor of channel [c]. *)
Definition channel_row (m : Mask.t) (c : nat) (r : list R) : Prop :=
  if Mask.keepshape m
  then Forall2 (fun z a => z <> Z.of_nat c -> a = 0) (Mask.mask m) r
  else length r = Mask.width m c.


(** [x] has [b] rows of [w] entries. *)
Definition shaped (b w : nat) (x : tensor R) : Prop :=
  length x = b /\ Forall (fun r => length r = w) x.

(** The length of the rows of a tensor of channel [c]. *)
Definition row_length (m : Mask.t) (c : nat) : nat :=
  if Mask.keepshape m then length (Mask.mask m) else Mask.width m c.

(** The net of layer [k] answers a frozen tensor of [b] samples with as
    many channels as the engine splits off (one for a shift, two for an
    affine layer), each of the shape of the active channel. *)
Definition net_fits (self : t) (b : nat) (k : nat) (f : net) : Prop :=
  let parity := (k `mod` 2)%nat in
  forall x_fz, shaped b (row_length (mask self) (1 - parity)) x_fz ->
    match cls self with
    | ShiftList_ =>
        exists x_t, f x_fz = [x_t] /\
                    shaped b (row_length (mask self) parity) x_t
    | AffineList_ =>
        exists x_t x_s, f x_fz = [x_t; x_s] /\
                        shaped b (row_length (mask self) parity) x_t /\
                        shaped b (row_length (mask self) parity) x_s
    end.

(** The two channels of a batch of [b] samples. *)
Definition channels (m : Mask.t) (b : nat) (x : tensor R * tensor R) : Prop :=
  Forall (channel_row m 0) x.1 /\ Forall (channel_row m 1) x.2 /\
  length x.1 = b /\ length x.2 = b.

(** The loops of [forward] and [backward] over the nets [fs], without a
    control. *)
Definition forward_over (self : t) (fs : list net) (st : state) : py state :=
  for_each (fun '(k, f) => layer self (atomic_forward self) None k f)
           (enumerate fs) st.

Definition backward_over (self : t) (fs : list net) (st : state)
    : py state :=
  for_each (fun k st => f ← index fs k;
                        layer self (atomic_backward self) None k f st)
           (reverse (seq 0 (length fs))) st.

(** An engine for the examples: two affine layers on a checkerboard of two
    sites, both nets answering with the frozen channel as shift and as
    scale. *)
Definition example_mask : Mask.t := Mask.mk [0; 1]%Z None [2%nat] true.

Definition example_net : net := fun x => [x; x].

Definition example_engine : t :=
  mk AffineList_ [example_net; example_net] example_mask 1 false "affine_".

(** A log-Jacobian that vanishes: the number [0], or a tensor of zeros. *)
Definition is_zero (l : logval) : Prop :=
  match l with
  | LNum r => r = 0
  | LVec v => Forall (fun a => a = 0) v
  end.

(** The log-Jacobian of sample [i]. *)
Definition log_at (l : logval) (i : nat) : R :=
  match l with
  | LNum r => r
  | LVec v => default 0 (v !! i)
  end.

(** A log-Jacobian for a batch of [b] samples. *)
Definition log_fits (b : nat) (l : logval) : Prop :=
  match l with
  | LNum _ => True
  | LVec v => length v = b
  end.

(** *** The controlled engines *)

(** [DirectCntrCouplingList_.forward((x, control), log0)] and
    [backward]. *)
Definition direct_forward (self : t)
    (x_and_control : tensor R * option (tensor R)) (log0 : logval)
    : py (tensor R * option (tensor R) * logval) :=
  let '(x, control) := x_and_control in
  x ← Mask.split (mask self) x;
  '(x, log0) ← forward_loop self (Some control) (x, log0);
  y ← Mask.cat (mask self) x.1 x.2;
  mret (y, control, log0).

Definition direct_backward (self : t)
    (x_and_control : tensor R * option (tensor R)) (log0 : logval)
    : py (tensor R * option (tensor R) * logval) :=
  let '(x, control) := x_and_control in
  x ← Mask.split (mask self) x;
  '(x, log0) ← backward_loop self (Some control) (x, log0);
  y ← Mask.cat (mask self) x.1 x.2;
  mret (y, control, log0).

(** [CntrCouplingList_]: the engine, its generator, and the attribute
    [self.control], [None] after [__init__].  The generator draws from a
    random source [G]: given the batch size it returns the control and
    the source after the draw. *)
Record cntr (G : Type) : Type := mk_cntr {
  engine : t;
  control_generator : nat -> G -> tensor R * G;
  control : option (tensor R)
}.

Arguments mk_cntr {G}.
Arguments engine {G}.
Arguments control_generator {G}.
Arguments control {G}.

(** [CntrCouplingList_.__init__]. *)
Definition cntr_init {G} (self : t) (gen : nat -> G -> tensor R * G)
    : cntr G :=
  mk_cntr self gen None.

(** [CntrCouplingList_.forward(x, log0)]: [self.control] is assigned before
    the layers run, so the object is changed even when they raise. *)
Definition cntr_forward {G} (self : cntr G) (g : G) (x : tensor R)
    (log0 : logval) : cntr G * G * py (tensor R * logval) :=
  let batch_size := length x in
  let '(c, g) := control_generator self batch_size g in
  let self := mk_cntr (engine self) (control_generator self) (Some c) in
  (self, g,
   '(x, _, log0) ← direct_forward (engine self) (x, control self) log0;
   mret (x, log0)).

(** [CntrCouplingList_.backward(x, log0)]. *)
Definition cntr_backward {G} (self : cntr G) (x : tensor R) (log0 : logval)
    : py (tensor R * logval) :=
  '(x, _, log0) ← direct_backward (engine self) (x, control self) log0;
  mret (x, log0).

(** For the examples: a checkerboard of two sites in the reshaped mode, an
    engine without layers on it, and a generator of zero controls that
    needs no random source. *)
Definition example_mask_reshaped : Mask.t :=
  Mask.mk [0; 1]%Z (Some [0; 1]%Z) [2%nat] false.

Definition example_engine_empty : t :=
  mk ShiftList_ [] example_mask_reshaped 1 false "shift_".

Definition example_generator (batch_size : nat) (g : unit)
    : tensor R * unit :=
  (replicate batch_size [0; 0], g).

(** *** Answers of the nets, controlled loops *)

(** The answer [out] of a net fits a layer of parity [parity] on a batch of
    [b] samples: as many channels as the engine splits off, each of the
    shape of the active channel. *)
Definition answer_fits (self : t) (b parity : nat) (out : list (tensor R))
    : Prop :=
  match cls self with
  | ShiftList_ =>
      exists x_t, out = [x_t] /\
                  shaped b (row_length (mask self) parity) x_t
  | AffineList_ =>
      exists x_t x_s, out = [x_t; x_s] /\
                      shaped b (row_length (mask self) parity) x_t /\
                      shaped b (row_length (mask self) parity) x_s
  end.

(** Every entry of the tensor is zero. *)
Definition all_zero (x : tensor R) : Prop :=
  Forall (Forall (fun a => a = 0)) x.

(** The loops of the controlled [forward] and [backward] over the nets
    [fs], with the control [control]. *)
Definition forward_with (self : t) (control : option (tensor R))
    (fs : list net) (st : state) : py state :=
  for_each (fun '(k, f) =>
              layer self (atomic_forward self) (Some control) k f)
           (enumerate fs) st.

Definition backward_with (self : t) (control : option (tensor R))
    (fs : list net) (st : state) : py state :=
  for_each (fun k st => f ← index fs k;
                        layer self (atomic_backward self) (Some control) k f st)
           (reverse (seq 0 (length fs))) st.

(** *** The sign of a configuration *)

(** [-x]. *)
Definition neg (x : tensor R) : tensor R := tensor_map Ropp x.

(** A net that respects the symmetry under a global change of sign: it
    answers [-x] with the negative of what it answers [x] with. *)
Definition odd_net (f : net) : Prop :=
  forall x, f (neg x) = neg <$> f x.

(** The result of a call, changed by [g] when the call returns. *)
Definition py_map {A B} (g : A -> B) (m : py A) : py B :=
  match m with
  | inl e => inl e
  | inr a => inr (g a)
  end.

(** *** [transfer] of an engine that generates its control *)

(** An object of class [CntrShiftList_] or [CntrAffineList_]: the engine,
    and the attributes [control_generator] and [control], which may be
    [None]. *)
Record cntr_object (G : Type) : Type := mk_cntr_object {
  co_engine : t;
  co_control_generator : option (nat -> G -> tensor R * G);
  co_control : option (tensor R)
}.

Arguments mk_cntr_object {G}.
Arguments co_engine {G}.
Arguments co_control_generator {G}.
Arguments co_control {G}.

(** [CntrCouplingList_.__init__(nets, control_generator=None, mask=...,
    ...)]: the keyword [control_generator] is [None] unless it is given. *)
Definition cntr_object_init {G} (engine : t)
    (control_generator : option (nat -> G -> tensor R * G)) : cntr_object G :=
  mk_cntr_object engine control_generator None.

(** [transfer(scale_factor, mask)], inherited from [CouplingList_]:
    [self.__class__] is called with the transferred nets and the keywords
    [mask], [label], [channels_axis] and [zee2sym], and with no
    [control_generator]. *)
Definition cntr_transfer {G} (net_transfer : R -> net -> net)
    (self : cntr_object G) (scale_factor : R) (mask : option Mask.t)
    : cntr_object G :=
  let e := co_engine self in
  cntr_object_init
    (mk (cls e) (net_transfer scale_factor <$> nets e)
        (match mask with
         | None => Couplings.mask e
         | Some m => m
         end)
        (channels_axis e) (zee2sym e) (label e))
    None.

(** [forward(x, log0)] on such an object: calling [None] is a
    [TypeError]. *)
Definition cntr_object_forward {G} (self : cntr_object G) (g : G)
    (x : tensor R) (log0 : logval)
    : cntr_object G * G * py (tensor R * logval) :=
  match co_control_generator self with
  | None => (self, g, raise TypeError)
  | Some gen =>
      let batch_size := length x in
      let '(c, g) := gen batch_size g in
      let self := mk_cntr_object (co_engine self) (Some gen) (Some c) in
      (self, g,
       '(x, _, log0) ← direct_forward (co_engine self) (x, co_control self) log0;
       mret (x, log0))
  end.

End Couplings.

(** ** [couplings_v2_.py]: the [transfer] methods

    [transfer] builds a new object from the attributes of [self] through the
    constructor of its class, so this part keeps objects as Python has
    them: a class and a dictionary of attributes, constructors that bind
    positional and keyword arguments, and attribute look-up that can
    fail. *)

Module Transfer.

Inductive class : Type :=
  | ShiftList_
  | AffineList_
  | RQSplineList_
  | MultiRQSplineList_.

Section Objects.

(** A parametric function with its own [transfer(scale_factor=...)], and
    the other values that are only handed on (masks, limits, knots, ...). *)
Variable Net : Type.
Variable net_transfer : R -> Net -> Net.
Variable Val : Type.

Inductive pyval : Type :=
  | PNone
  | PNet (f : Net)
  | PNets (fs : list Net)
  | PVal (v : Val).

Record object : Type := mk_object {
  class_of : class;
  attrs : gmap string pyval
}.

(** The attributes left on the instance by [Module_.__init__(label=label)],
    the constructor of the base class in [nn/_core.py]. *)
Variable Module__init : pyval -> gmap string pyval.

(** The defaults of the keyword parameters ([1], [False], ['coupling_'],
    [(0, 1)], [{}], ...) and the two values computed by the spline
    constructors ([xlim[1] - xlim[0]], the softmax and softplus layers). *)
Variable default_of : string -> pyval.
Variable width_of : pyval -> pyval.
Variable layer_of : string -> pyval.

(** [self.name]. *)
Definition getattr (self : object) (name : string) : py pyval :=
  match attrs self !! name with
  | Some v => mret v
  | None => raise AttributeError
  end.

(** [v.transfer(scale_factor=scale_factor)] for an entry of the nets. *)
Definition transfer_net (scale_factor : R) (v : pyval) : py pyval :=
  match v with
  | PNet f => mret (PNet (net_transfer scale_factor f))
  | _ => raise AttributeError
  end.

(** A keyword argument or the default of its parameter. *)
Definition keyword (kwargs : gmap string pyval) (name : string) : pyval :=
  default (default_of name) (kwargs !! name).

(** Binding the call [__init__(self, *args, **kwargs)] of a signature
    [(self, nets, *, required, optional..., [**rest])]: one positional
    argument, the required keyword present, and no keyword outside the
    named ones unless the signature collects the rest. *)
Definition bind_args (named : list string) (required : string)
    (collects_rest : bool) (args : list pyval) (kwargs : gmap string pyval)
    : py (pyval * gmap string pyval) :=
  match args with
  | [nets] =>
      if bool_decide (required ∈ dom kwargs) then
        let rest := filter (fun kv => kv.1 ∉ named) kwargs in
        if collects_rest || bool_decide (rest = ∅) then mret (nets, rest)
        else raise TypeError
      else raise TypeError
  | _ => raise TypeError
  end.

(** [CouplingList_.__init__(self, nets, *, mask, channels_axis=1,
    zee2sym=False, label='coupling_')]; [torch.nn.ModuleList(nets)] wants a
    list of modules. *)
Definition CouplingList__init (args : list pyval)
    (kwargs : gmap string pyval) : py (gmap string pyval) :=
  '(nets, _) ← bind_args ["mask"; "channels_axis"; "zee2sym"; "label"]
                 "mask" false args kwargs;
  nets ← match nets with
          | PNets fs => mret (PNets fs)
          | _ => raise TypeError
          end;
  mret (<["zee2sym" := keyword kwargs "zee2sym"]>
        (<["channels_axis" := keyword kwargs "channels_axis"]>
         (<["mask" := keyword kwargs "mask"]>
          (<["nets" := nets]>
           (Module__init (keyword kwargs "label")))))).

(** [RQSplineList_.__init__(self, nets, *, mask, xlim=(0, 1), ylim=(0, 1),
    knots_x=None, knots_y=None, extrap={}, **kwargs)], which calls
    [super().__init__(nets, mask=mask, **kwargs)]. *)
Definition RQSplineList__init (args : list pyval)
    (kwargs : gmap string pyval) : py (gmap string pyval) :=
  '(nets, rest) ← bind_args ["mask"; "xlim"; "ylim"; "knots_x"; "knots_y";
                             "extrap"] "mask" true args kwargs;
  self ← CouplingList__init [nets] (<["mask" := keyword kwargs "mask"]> rest);
  mret (<["softplus" := layer_of "softplus"]>
        (<["softmax" := layer_of "softmax"]>
         (<["extrap" := keyword kwargs "extrap"]>
          (<["knots_y" := keyword kwargs "knots_y"]>
           (<["knots_x" := keyword kwargs "knots_x"]>
            (<["ywidth" := width_of (keyword kwargs "ylim")]>
             (<["ylim" := keyword kwargs "ylim"]>
              (<["xwidth" := width_of (keyword kwargs "xlim")]>
               (<["xlim" := keyword kwargs "xlim"]> self))))))))).

(** [MultiRQSplineList_.__init__(self, nets, *, mask, xlims=..., ylims=...,
    knots_x=..., knots_y=..., extraps=..., **kwargs)]. *)
Definition MultiRQSplineList__init (args : list pyval)
    (kwargs : gmap string pyval) : py (gmap string pyval) :=
  '(nets, rest) ← bind_args ["mask"; "xlims"; "ylims"; "knots_x"; "knots_y";
                             "extraps"] "mask" true args kwargs;
  self ← CouplingList__init [nets] (<["mask" := keyword kwargs "mask"]> rest);
  mret (<["softplus" := layer_of "softplus"]>
        (<["softmax" := layer_of "softmax"]>
         (<["extraps" := keyword kwargs "extraps"]>
          (<["knots_y" := keyword kwargs "knots_y"]>
           (<["knots_x" := keyword kwargs "knots_x"]>
            (<["ywidths" := width_of (keyword kwargs "ylims")]>
             (<["xwidths" := width_of (keyword kwargs "xlims")]>
              (<["ylims" := keyword kwargs "ylims"]>
               (<["xlims" := keyword kwargs "xlims"]>
                (<["num_splines" := width_of (keyword kwargs "xlims")]>
                 self)))))))))).

(** Calling the class [cls] on the arguments: the shift and affine classes inherit the
    constructor of [CouplingList_]. *)
Definition new (cls : class) (args : list pyval)
    (kwargs : gmap string pyval) : py object :=
  self ← match cls with
          | ShiftList_ | AffineList_ => CouplingList__init args kwargs
          | RQSplineList_ => RQSplineList__init args kwargs
          | MultiRQSplineList_ => MultiRQSplineList__init args kwargs
          end;
  mret (mk_object cls self).

(** [self.mask if mask is None else mask]. *)
Definition mask_or (self : object) (mask : pyval) : py pyval :=
  match mask with
  | PNone => getattr self "mask"
  | _ => mret mask
  end.

(** [CouplingList_.transfer(self, scale_factor=1, mask=None)]. *)
Definition CouplingList__transfer (self : object) (scale_factor : R)
    (mask : pyval) : py object :=
  nets ← getattr self "nets";
  nets ← match nets with
          | PNets fs => mret (PNets (net_transfer scale_factor <$> fs))
          | _ => raise TypeError
          end;
  mask ← mask_or self mask;
  label ← getattr self "label";
  channels_axis ← getattr self "channels_axis";
  zee2sym ← getattr self "zee2sym";
  new (class_of self) [nets]
      (<["zee2sym" := zee2sym]>
       (<["channels_axis" := channels_axis]>
        (<["label" := label]> {["mask" := mask]}))).

(** [RQSplineList_.transfer(self, scale_factor=1, mask=None)]. *)
Definition RQSplineList__transfer (self : object) (scale_factor : R)
    (mask : pyval) : py object :=
  net0 ← getattr self "net0";
  net0 ← transfer_net scale_factor net0;
  net1 ← getattr self "net1";
  net1 ← transfer_net scale_factor net1;
  mask ← mask_or self mask;
  label ← getattr self "label";
  channels_axis ← getattr self "channels_axis";
  xlim ← getattr self "xlim";
  ylim ← getattr self "ylim";
  knots_x ← getattr self "knots_x";
  knots_y ← getattr self "knots_y";
  extrap ← getattr self "extrap";
  new (class_of self) [net0; net1]
      (<["extrap" := extrap]>
       (<["knots_y" := knots_y]>
        (<["knots_x" := knots_x]>
         (<["ylim" := ylim]>
          (<["xlim" := xlim]>
           (<["channels_axis" := channels_axis]>
            (<["label" := label]> {["mask" := mask]}))))))).

(** [MultiRQSplineList_.transfer(self, scale_factor=1, mask=None)]. *)
Definition MultiRQSplineList__transfer (self : object) (scale_factor : R)
    (mask : pyval) : py object :=
  net0 ← getattr self "net0";
  net0 ← transfer_net scale_factor net0;
  net1 ← getattr self "net1";
  net1 ← transfer_net scale_factor net1;
  mask ← mask_or self mask;
  label ← getattr self "label";
  channels_axis ← getattr self "channels_axis";
  xlims ← getattr self "xlims";
  ylims ← getattr self "ylims";
  knots_x ← getattr self "knots_x";
  knots_y ← getattr self "knots_y";
  extraps ← getattr self "extraps";
  new (class_of self) [net0; net1]
      (<["extrap" := extraps]>
       (<["knots_y" := knots_y]>
        (<["knots_x" := knots_x]>
         (<["ylim" := ylims]>
          (<["xlim" := xlims]>
           (<["channels_axis" := channels_axis]>
            (<["label" := label]> {["mask" := mask]}))))))).

(** The exceptions of a failed look-up or of a failed binding. *)
Definition lookup_or_binding (e : exn) : Prop :=
  e = AttributeError \/ e = TypeError.

(** [self.transfer(scale_factor, mask)], by the class of [self]. *)
Definition transfer (self : object) (scale_factor : R) (mask : pyval)
    : py object :=
  match class_of self with
  | ShiftList_ | AffineList_ => CouplingList__transfer self scale_factor mask
  | RQSplineList_ => RQSplineList__transfer self scale_factor mask
  | MultiRQSplineList_ => MultiRQSplineList__transfer self scale_factor mask
  end.

End Objects.

End Transfer.

(** ** [couplings_v2_.py]: [RQSplineList_.make_spline] *)

Module Spline.

Open Scope R_scope.

(** A tensor seen along its channels axis: the size of that axis, and for
    every position of the other axes the fibre of values along it. *)
Record channelled : Type := mk_channelled {
  size : nat;
  fibres : tensor R
}.

(** Every fibre has as many entries as the axis is long. *)
Definition well_formed (out : channelled) : Prop :=
  Forall (fun w => length w = size out) (fibres out).

(** The attributes [__init__] adds to those of [CouplingList_]; [xwidth] and
    [ywidth] are [xlim[1] - xlim[0]] and [ylim[1] - ylim[0]]. *)
Record t : Type := mk {
  xlim : R * R;
  ylim : R * R;
  knots_x : option (tensor R);
  knots_y : option (tensor R)
}.

Definition xwidth (self : t) : R := (xlim self).2 - (xlim self).1.
Definition ywidth (self : t) : R := (ylim self).2 - (ylim self).1.

(** [out.split(sizes, dim=axis)]: the sizes must not be negative and must
    add up to the size of the axis. *)
Fixpoint pieces (sizes : list nat) (x : tensor R) : list (tensor R) :=
  match sizes with
  | [] => []
  | s :: rest =>
      ((fun w : list R => take s w) <$> x)
        :: pieces rest ((fun w : list R => drop s w) <$> x)
  end.

Definition split (out : channelled) (sizes : list Z) : py (list (tensor R)) :=
  if forallb (Z.leb 0) sizes
     && (foldr Z.add 0%Z sizes =? Z.of_nat (size out))%Z
  then mret (pieces (Z.to_nat <$> sizes) (fibres out))
  else raise RuntimeError.

(** [torch.nn.Softmax(dim=axis)] and [torch.cumsum(_, dim=axis)] on one
    fibre. *)
Definition softmax (w : list R) : list R :=
  let s := foldr Rplus 0 (exp <$> w) in
  (fun a => exp a / s) <$> w.

Fixpoint cumsum_from (acc : R) (w : list R) : list R :=
  match w with
  | [] => []
  | a :: w' => (acc + a) :: cumsum_from (acc + a) w'
  end.

Definition cumsum (w : list R) : list R := cumsum_from 0 w.

(** [to_coord(w) = cat((zeropad(w), cumsum(softmax(w))), dim=axis)]. *)
Definition to_coord (x : tensor R) : tensor R :=
  (fun w : list R => 0 :: cumsum (softmax w)) <$> x.

(** [torch.nn.Softplus(beta=np.log(2))], with the threshold [20] above which
    the implementation returns its argument. *)
Definition softplus (a : R) : R :=
  let beta := ln 2 in
  if Rlt_dec 20 (beta * a) then a
  else ln (1 + exp (beta * a)) / beta.

Definition to_deriv (d : tensor R) : tensor R :=
  (fun w : list R => softplus <$> w) <$> d.

(** [w * width + lim0]. *)
Definition scale (width lim0 : R) (x : tensor R) : tensor R :=
  (fun w : list R => (fun c => c * width + lim0) <$> w) <$> x.

(** The keywords [make_spline] hands to [RQSpline] (of [lib.spline]), next
    to the axis and the extrapolation it passes on as they are. *)
Record kwargs : Type := mk_kwargs {
  kw_knots_x : tensor R;
  kw_knots_y : tensor R;
  kw_knots_d : tensor R
}.

(** [make_spline(out)]. *)
Definition make_spline (self : t) (out : channelled) : py kwargs :=
  let n := Z.of_nat (size out) in
  match knots_x self, knots_y self with
  | None, None =>
      let m := ((n + 2) / 3)%Z in
      parts ← split out [m - 1; m - 1; m]%Z;
      match parts with
      | [x_; y_; d_] =>
          mret (mk_kwargs (scale (xwidth self) (xlim self).1 (to_coord x_))
                          (scale (ywidth self) (ylim self).1 (to_coord y_))
                          (to_deriv d_))
      | _ => raise RuntimeError
      end
  | Some knots_x, None =>
      let m := ((n + 2) / 2)%Z in
      parts ← split out [m - 1; m]%Z;
      match parts with
      | [y_; d_] =>
          mret (mk_kwargs knots_x
                          (scale (ywidth self) (ylim self).1 (to_coord y_))
                          (to_deriv d_))
      | _ => raise RuntimeError
      end
  | None, Some knots_y =>
      let m := ((n + 2) / 2)%Z in
      parts ← split out [m - 1; m]%Z;
      match parts with
      | [x_; d_] =>
          mret (mk_kwargs (scale (xwidth self) (xlim self).1 (to_coord x_))
                          knots_y
                          (to_deriv d_))
      | _ => raise RuntimeError
      end
  | Some knots_x, Some knots_y =>
      mret (mk_kwargs knots_x knots_y (to_deriv (fibres out)))
  end.

(** The entries of a fibre increase strictly. *)
Definition increasing (w : list R) : Prop :=
  forall i a c, w !! i = Some a -> w !! S i = Some c -> a < c.

End Spline.

(** ** [couplings_v2_.py]: [MultiRQSplineList_.make_spline] *)

Module MultiSpline.

Open Scope R_scope.

(** The attributes [__init__] adds: one entry per spline in every list;
    [num_splines] is [len(xlims)], and [xwidths] and [ywidths] are computed
    from [xlims] and [ylims] entry by entry. *)
Record t : Type := mk {
  xlims : list (R * R);
  ylims : list (R * R);
  knots_x : list (option (tensor R));
  knots_y : list (option (tensor R));
  extraps : list unit
}.

Definition num_splines (self : t) : nat := length (xlims self).

(** [torch.tensor_split(out, sections=k, dim=axis)]: [k] sections, the
    first [n % k] of them one channel longer than the others; [k] must be
    positive. *)
Definition tensor_split (out : Spline.channelled) (sections : nat)
    : py (list Spline.channelled) :=
  if (sections =? 0)%nat then raise RuntimeError
  else
    let q := (Spline.size out `div` sections)%nat in
    let r := (Spline.size out `mod` sections)%nat in
    let sizes := replicate r (S q) ++ replicate (sections - r) q in
    mret (zip_with Spline.mk_channelled sizes
            (Spline.pieces sizes (Spline.fibres out))).

(** The body of the loop of [make_spline] for section [i]: the entries [i]
    of the lists are read, and the rest is the body of
    [RQSplineList_.make_spline] with them. *)
Definition make_one (self : t) (i : nat) (out : Spline.channelled)
    : py Spline.kwargs :=
  knots_x ← index (knots_x self) i;
  knots_y ← index (knots_y self) i;
  _ ← index (ylims self) i;
  xlim ← index (xlims self) i;
  ylim ← index (ylims self) i;
  _ ← index (extraps self) i;
  Spline.make_spline (Spline.mk xlim ylim knots_x knots_y) out.

(** [make_spline(out)]: the list of the keywords of the splines. *)
Definition make_spline (self : t) (out : Spline.channelled)
    : py (list Spline.kwargs) :=
  out_splits ← tensor_split out (num_splines self);
  mapM (fun io : nat * Spline.channelled => make_one self io.1 io.2)
       (imap (fun i o => (i, o)) out_splits).

End MultiSpline.

(** * Properties *)

Lemma index_Some {A} (l : list A) i a : l !! i = Some a -> index l i = inr a.
Proof. intros H. unfold index. by rewrite H. Qed.

Lemma index_last_Some {A} (l : list A) a :
  last l = Some a -> index_last l = inr a.
Proof. intros H. unfold index_last. by rewrite H. Qed.

Lemma for_enumerate_from_app {A St} (body : nat -> A -> St -> St) l k i (s : St) :
  for_enumerate_from body i (l ++ k) s =
  for_enumerate_from body (i + length l) k (for_enumerate_from body i l s).
Proof.
  revert i s. induction l as [|a l IH]; intros i s; simpl.
  - by rewrite Nat.add_0_r.
  - rewrite IH. f_equal. lia.
Qed.

(** ** Facts about [Metropolis] *)

Section MetropolisFacts.

Import Metropolis.
Open Scope float_scope.

Variable rand_arr : nat -> float.

Lemma status_body_in_range i x pre b suf ref :
  length pre = i ->
  status_body rand_arr i x (pre ++ b :: suf, ref) =
  (pre ++ (rand_arr i <? ref - x) :: suf,
   if rand_arr i <? ref - x then x else ref).
Proof.
  intros Hi. unfold status_body.
  rewrite insert_app_r_alt by lia.
  replace (i - length pre)%nat with 0%nat by lia. simpl.
  rewrite lookup_app_r by lia.
  replace (i - length pre)%nat with 0%nat by lia. simpl.
  by destruct (rand_arr i <? ref - x).
Qed.

Lemma status_loop_prefix logqp ref0 k :
  (k <= length logqp)%nat ->
  for_enumerate (status_body rand_arr) (take k logqp)
    (replicate (length logqp) false, ref0) =
  (status_upto rand_arr logqp ref0 k ++ replicate (length logqp - k) false,
   running_reference rand_arr logqp ref0 k).
Proof.
  unfold for_enumerate. induction k as [|k IH]; intros Hk.
  - simpl. by rewrite Nat.sub_0_r.
  - destruct (lookup_lt_is_Some_2 logqp k) as [x Hx]; [lia|].
    rewrite (take_S_r _ _ _ Hx), for_enumerate_from_app, IH by lia.
    rewrite length_take_le by lia. cbn [for_enumerate_from Nat.add].
    replace (length logqp - k)%nat with (S (length logqp - S k)) by lia.
    cbn [replicate].
    rewrite status_body_in_range
      by (unfold status_upto; by rewrite length_fmap, length_seq).
    f_equal.
    + unfold status_upto. rewrite seq_S, fmap_app, <- app_assoc. simpl.
      unfold accepted_at. by rewrite Hx.
    + simpl. by rewrite Hx.
Qed.

Lemma status_upto_lookup logqp ref0 i :
  status_upto rand_arr logqp ref0 (length logqp) !! i =
  accepted_at rand_arr logqp ref0 i.
Proof.
  unfold status_upto. rewrite list_lookup_fmap.
  destruct (decide (i < length logqp)%nat) as [Hi|Hi].
  - rewrite lookup_seq_lt by done. simpl.
    destruct (lookup_lt_is_Some_2 logqp i Hi) as [x Hx].
    unfold accepted_at. by rewrite Hx.
  - rewrite lookup_seq_ge by lia. simpl.
    unfold accepted_at. by rewrite lookup_ge_None_2 by lia.
Qed.

Lemma calc_accept_status_from logqp ref0 :
  for_enumerate (status_body rand_arr) logqp
    (replicate (length logqp) false, ref0) =
  (status_upto rand_arr logqp ref0 (length logqp),
   running_reference rand_arr logqp ref0 (length logqp)).
Proof.
  pose proof (status_loop_prefix logqp ref0 (length logqp)) as H.
  rewrite firstn_all, Nat.sub_diag, app_nil_r in H. by apply H.
Qed.

Lemma calc_accept_status_inr logqp logqp_ref ref0 :
  initial_reference logqp logqp_ref = Some ref0 ->
  calc_accept_status rand_arr logqp logqp_ref =
  inr (status_upto rand_arr logqp ref0 (length logqp)).
Proof.
  intros H0. unfold calc_accept_status.
  assert (Hr : match logqp_ref with
               | None => index logqp 0
               | Some r => mret r
               end = inr ref0).
  { unfold initial_reference in H0. destruct logqp_ref as [r|].
    - by injection H0 as ->.
    - unfold index. by rewrite H0. }
  rewrite Hr. simpl. by rewrite calc_accept_status_from.
Qed.

(** C2.  [calc_accept_status] is the sequential independence-chain
    algorithm: the reference starts at [logqp_ref], or at [logqp[0]] when
    none is given (an empty [logqp] then has no entry to start from and the
    call raises); the result has one status per entry of [logqp], and the
    status of position [i] is [log u_i < reference - logqp[i]] for the
    reference in force at [i], which is the initial one replaced in turn by
    [logqp[j]] at every accepted [j < i]. *)
Theorem calc_accept_status_sequential (logqp : list float)
    (logqp_ref : option float) :
  match initial_reference logqp logqp_ref with
  | None => calc_accept_status rand_arr logqp logqp_ref = inl IndexError
  | Some ref0 =>
      exists status : list bool,
        calc_accept_status rand_arr logqp logqp_ref = inr status /\
        length status = length logqp /\
        (forall i, status !! i = accepted_at rand_arr logqp ref0 i) /\
        (forall i x,
           logqp !! i = Some x ->
           running_reference rand_arr logqp ref0 (S i) =
           if decide (status !! i = Some true) then x
           else running_reference rand_arr logqp ref0 i)
  end.
Proof.
  assert (Hgo : forall ref0,
    (let '(status, _) := for_enumerate (status_body rand_arr) logqp
        (replicate (length logqp) false, ref0) in
     (mret status : py (list bool))) =
    inr (status_upto rand_arr logqp ref0 (length logqp))).
  { intros ref0. by rewrite calc_accept_status_from. }
  assert (Hspec : forall ref0,
    length (status_upto rand_arr logqp ref0 (length logqp)) = length logqp /\
    (forall i, status_upto rand_arr logqp ref0 (length logqp) !! i =
               accepted_at rand_arr logqp ref0 i) /\
    (forall i x,
       logqp !! i = Some x ->
       running_reference rand_arr logqp ref0 (S i) =
       if decide (status_upto rand_arr logqp ref0 (length logqp) !! i
                  = Some true)
       then x else running_reference rand_arr logqp ref0 i)).
  { intros ref0. split; [|split].
    - unfold status_upto. by rewrite length_fmap, length_seq.
    - apply status_upto_lookup.
    - intros i x Hx. rewrite status_upto_lookup. simpl. rewrite Hx.
      unfold accepted_at. rewrite Hx. simpl.
      destruct (rand_arr i <? _); by case_decide. }
  unfold initial_reference, calc_accept_status.
  destruct logqp_ref as [r|].
  - exists (status_upto rand_arr logqp r (length logqp)).
    split; [apply Hgo | apply Hspec].
  - unfold index. destruct (logqp !! 0%nat) as [x0|] eqn:H0; [|done].
    exists (status_upto rand_arr logqp x0 (length logqp)).
    split; [apply Hgo | apply Hspec].
Qed.

End MetropolisFacts.

Section IndicesFacts.

Import Metropolis.

(** The counter of [calc_accept_indices] after the first [k] positions. *)
Lemma indices_loop_prefix (accept_seq : list bool) k :
  (k <= length accept_seq)%nat ->
  for_enumerate indices_body (take k accept_seq)
    (replicate (length accept_seq) 0%nat, 0%nat) =
  (((fun i => default 0%nat (last_accepted accept_seq i)) <$> seq 0 k)
     ++ replicate (length accept_seq - k) 0%nat,
   match k with
   | O => 0%nat
   | S j => default 0%nat (last_accepted accept_seq j)
   end).
Proof.
  unfold for_enumerate. induction k as [|k IH]; intros Hk.
  - simpl. by rewrite Nat.sub_0_r.
  - destruct (lookup_lt_is_Some_2 accept_seq k) as [b Hb]; [lia|].
    rewrite (take_S_r _ _ _ Hb), for_enumerate_from_app, IH by lia.
    rewrite length_take_le by lia. cbn [for_enumerate_from Nat.add].
    replace (length accept_seq - k)%nat
      with (S (length accept_seq - S k)) by lia.
    cbn [replicate]. unfold indices_body.
    rewrite insert_app_r_alt by (rewrite length_fmap, length_seq; lia).
    rewrite length_fmap, length_seq, Nat.sub_diag. simpl insert.
    assert (Hc : (if b then k
                  else match k with
                       | O => 0%nat
                       | S j => default 0%nat (last_accepted accept_seq j)
                       end) = default 0%nat (last_accepted accept_seq k)).
    { destruct k as [|j]; simpl; rewrite Hb; by destruct b. }
    rewrite Hc. f_equal.
    rewrite seq_S, fmap_app, <- app_assoc. done.
Qed.

Lemma last_accepted_Some (status : list bool) i j :
  last_accepted status i = Some j <->
  (j <= i)%nat /\ status !! j = Some true /\
  (forall k, (j < k <= i)%nat -> status !! k <> Some true).
Proof.
  induction i as [|i IH]; simpl.
  - destruct (status !! 0%nat) as [[]|] eqn:H0.
    + split.
      * intros [= <-]. split; [lia|]. split; [done|]. intros k Hk. lia.
      * intros (Hj & _ & _). f_equal. lia.
    + split; [done|]. intros (Hj & Hs & _).
      assert (j = 0%nat) as -> by lia. congruence.
    + split; [done|]. intros (Hj & Hs & _).
      assert (j = 0%nat) as -> by lia. congruence.
  - destruct (status !! S i) as [[]|] eqn:HS.
    + split.
      * intros [= <-]. split; [lia|]. split; [done|]. intros k Hk. lia.
      * intros (Hj & Hs & Hk). f_equal.
        destruct (decide (j = S i)) as [->|Hne]; [done|].
        exfalso. apply (Hk (S i)); [lia|done].
    + rewrite IH. split.
      * intros (Hj & Hs & Hk). split; [lia|]. split; [done|].
        intros k Hk'. destruct (decide (k = S i)) as [->|Hne].
        -- congruence.
        -- apply Hk. lia.
      * intros (Hj & Hs & Hk).
        assert (j <> S i) by congruence.
        split; [lia|]. split; [done|]. intros k Hk'. apply Hk. lia.
    + rewrite IH. split.
      * intros (Hj & Hs & Hk). split; [lia|]. split; [done|].
        intros k Hk'. destruct (decide (k = S i)) as [->|Hne].
        -- congruence.
        -- apply Hk. lia.
      * intros (Hj & Hs & Hk).
        assert (j <> S i) by congruence.
        split; [lia|]. split; [done|]. intros k Hk'. apply Hk. lia.
Qed.

Lemma last_accepted_None (status : list bool) i :
  last_accepted status i = None ->
  forall k, (k <= i)%nat -> status !! k <> Some true.
Proof.
  induction i as [|i IH]; simpl.
  - destruct (status !! 0%nat) as [[]|] eqn:H0; [done|..];
      intros _ k Hk; assert (k = 0%nat) as -> by lia; congruence.
  - destruct (status !! S i) as [[]|] eqn:HS; [done|..];
      intros Hn k Hk; (destruct (decide (k = S i)) as [->|];
        [congruence | apply IH; [done|lia]]).
Qed.

Lemma calc_accept_indices_eq (accept_seq : list bool) :
  calc_accept_indices accept_seq =
  (fun i => default 0%nat (last_accepted accept_seq i))
    <$> seq 0 (length accept_seq).
Proof.
  pose proof (indices_loop_prefix accept_seq (length accept_seq)) as H.
  rewrite firstn_all, Nat.sub_diag, app_nil_r in H.
  unfold calc_accept_indices. by rewrite H.
Qed.

Lemma calc_accept_indices_lookup (accept_seq : list bool) i :
  calc_accept_indices accept_seq !! i =
  if decide (i < length accept_seq)%nat
  then Some (default 0%nat (last_accepted accept_seq i))
  else None.
Proof.
  rewrite calc_accept_indices_eq, list_lookup_fmap. case_decide.
  - by rewrite lookup_seq_lt.
  - by rewrite lookup_seq_ge by lia.
Qed.

(** C9, as the code has it.  [calc_accept_indices] returns one index per
    position; position [i] is mapped to the most recent accepted position
    at or before [i] when there is one, and to [0] when there is none.  In
    particular position [0] is always mapped to itself. *)
Theorem calc_accept_indices_spec (accept_seq : list bool) :
  length (calc_accept_indices accept_seq) = length accept_seq /\
  (forall i,
     calc_accept_indices accept_seq !! i =
     if decide (i < length accept_seq)%nat
     then Some (default 0%nat (last_accepted accept_seq i))
     else None) /\
  (forall i j,
     last_accepted accept_seq i = Some j <->
     (j <= i)%nat /\ accept_seq !! j = Some true /\
     (forall k, (j < k <= i)%nat -> accept_seq !! k <> Some true)) /\
  (forall i,
     last_accepted accept_seq i = None <->
     forall k, (k <= i)%nat -> accept_seq !! k <> Some true) /\
  calc_accept_indices accept_seq !! 0%nat =
    if decide (accept_seq = []) then None else Some 0%nat.
Proof.
  split; [|split; [|split; [|split]]].
  - by rewrite calc_accept_indices_eq, length_fmap, length_seq.
  - apply calc_accept_indices_lookup.
  - apply last_accepted_Some.
  - intros i. split; [apply last_accepted_None|].
    intros Hk. destruct (last_accepted accept_seq i) as [j|] eqn:Hj; [|done].
    apply last_accepted_Some in Hj as (Hle & Hj & _). by apply Hk in Hj.
  - rewrite calc_accept_indices_lookup.
    destruct accept_seq as [|b l]; [done|].
    rewrite decide_True by (simpl; lia). rewrite decide_False by done.
    simpl. by destruct b.
Qed.

(** C9, as the claim words it, fails where nothing has been accepted yet:
    in [[False, False]] no position at or before [1] is accepted, and
    position [1] is mapped to [0]. *)
Lemma calc_accept_indices_none_accepted :
  last_accepted [false; false] 1 = None /\
  calc_accept_indices [false; false] !! 1%nat = Some 0%nat /\
  [false; false] !! 0%nat = Some false.
Proof. by vm_compute. Qed.

(** C5, as the code has it.  On the example of the specification the
    statuses are [[True, True, False, True]] and their indices
    [[0, 1, 1, 3]]; the indices of [[True, False, True, False]] are
    [[0, 0, 2, 2]]. *)
Theorem calc_accept_status_example :
  calc_accept_status example_log_u example_logqp None =
    inr [true; true; false; true] /\
  calc_accept_indices [true; true; false; true] = [0; 1; 1; 3]%nat /\
  calc_accept_indices [true; false; true; false] = [0; 0; 2; 2]%nat.
Proof. by vm_compute. Qed.

(** C5, as the claim words it, fails: the statuses of the example are not
    [[True, False, True, False]]. *)
Lemma calc_accept_status_example_differs :
  calc_accept_status example_log_u example_logqp None <>
    inr [true; false; true; false].
Proof. by vm_compute. Qed.

Lemma np_where_from_nil (status : list bool) s :
  omap (fun p : nat * bool => if p.2 then Some (Z.of_nat p.1) else None)
       (zip (seq s (length status)) status) = [] <->
  true ∉ status.
Proof.
  revert s. induction status as [|b l IH]; intros s; simpl.
  - split; [|done]. intros _ H. by apply elem_of_nil in H.
  - destruct b; simpl.
    + split; [done|]. intros H. exfalso. apply H. left.
    + rewrite IH. split.
      * intros H Hin. apply elem_of_cons in Hin as [?|?]; [done|]. by apply H.
      * intros H Hin. apply H. by right.
Qed.

(** C10.  [calc_accept_count] never returns: with no accepted entry
    [ind[0]] raises [IndexError], and otherwise the name [states] of the
    return expression is bound nowhere and raises [NameError]. *)
Theorem calc_accept_count_raises (status : list bool) :
  calc_accept_count status =
  inl (if bool_decide (true ∈ status) then NameError else IndexError).
Proof.
  unfold calc_accept_count.
  destruct (np_where status) as [|i0 ind] eqn:Hind.
  - apply np_where_from_nil in Hind. by rewrite bool_decide_eq_false_2.
  - rewrite bool_decide_eq_true_2; [done|].
    destruct (decide (true ∈ status)) as [|Hn]; [done|].
    apply (np_where_from_nil status 0) in Hn.
    unfold np_where in Hind. congruence.
Qed.

End IndicesFacts.

(** ** Facts about [MCMCSampler] *)

Section SamplerFacts.

Import Metropolis MCMCSampler.
Open Scope float_scope.

Lemma last_accepted_le (status : list bool) i j :
  last_accepted status i = Some j -> (j <= i)%nat /\ status !! j = Some true.
Proof. intros H. apply last_accepted_Some in H. tauto. Qed.

Lemma index_select_spec {A} (t : list A) (ind : list nat) :
  Forall (fun j => j < length t)%nat ind ->
  exists l, index_select t ind = inr l /\ length l = length ind /\
            forall i j, ind !! i = Some j -> l !! i = t !! j.
Proof.
  unfold index_select. induction ind as [|j ind IH]; intros Hall.
  - exists []. by split.
  - apply Forall_cons in Hall as [Hj Hall].
    destruct (IH Hall) as (l & Hl & Hlen & Hlk).
    destruct (lookup_lt_is_Some_2 t j Hj) as [a Ha].
    exists (a :: l). simpl. rewrite (index_Some _ _ _ Ha). simpl.
    rewrite Hl. simpl. split; [done|]. split; [by rewrite Hlen|].
    intros [|i] j'; simpl; [by intros [= <-]|]. apply Hlk.
Qed.

(** The gather of a batch tensor [t], whose first entry is replaced by the
    reference value [v] when the first proposal is rejected. *)
Lemma gather_emitted {A} (accept_seq : list bool) (t : list A)
    (v : option A) (a0 : bool) (t' : list A) :
  length t = length accept_seq ->
  accept_seq !! 0%nat = Some a0 ->
  (if a0 then mret t else setitem_0 t v) = inr t' ->
  exists l, index_select t' (calc_accept_indices accept_seq) = inr l /\
            length l = length accept_seq /\
            forall i, (i < length accept_seq)%nat ->
                      l !! i = emitted accept_seq v t i.
Proof.
  intros Hlen H0 Ht'.
  pose proof (calc_accept_indices_lookup accept_seq) as Hi.
  assert (Hlen' : length t' = length t).
  { destruct a0; [by injection Ht' as <-|].
    unfold setitem_0 in Ht'. destruct v as [a|]; [|done].
    destruct (0 <? length t)%nat; [|done]. injection Ht' as <-.
    by rewrite length_insert. }
  destruct (index_select_spec t' (calc_accept_indices accept_seq))
    as (l & Hl & Hll & Hlk).
  { apply Forall_forall. intros j Hj.
    apply list_elem_of_lookup in Hj as [i Hij].
    rewrite Hi in Hij. case_decide as Hlt; [|done]. injection Hij as <-.
    rewrite Hlen', Hlen.
    destruct (last_accepted accept_seq i) as [j|] eqn:Hla; simpl; [|lia].
    apply last_accepted_le in Hla. lia. }
  exists l. split; [done|].
  split; [by rewrite Hll, calc_accept_indices_eq, length_fmap, length_seq|].
  intros i Hlt. rewrite (Hlk i (default 0%nat (last_accepted accept_seq i)))
    by (by rewrite Hi, decide_True).
  unfold emitted.
  destruct (last_accepted accept_seq i) as [j|] eqn:Hla; simpl.
  - apply last_accepted_le in Hla as [_ Hj].
    destruct a0; [by injection Ht' as <-|].
    unfold setitem_0 in Ht'. destruct v as [a|]; [|done].
    destruct (0 <? length t)%nat; [|done]. injection Ht' as <-.
    apply list_lookup_insert_ne. intros <-. congruence.
  - pose proof (last_accepted_None _ _ Hla 0%nat ltac:(lia)) as Hn0.
    destruct a0; [congruence|].
    unfold setitem_0 in Ht'. destruct v as [a|]; [|done].
    destruct (0 <? length t)%nat eqn:Hpos; [|done]. injection Ht' as <-.
    apply list_lookup_insert_eq. by apply Nat.ltb_lt.
Qed.

Lemma last_nonempty {A} (l : list A) :
  (0 < length l)%nat -> exists a, last l = Some a.
Proof.
  intros H. destruct (last l) as [a|] eqn:Hl; [by exists a|].
  apply last_None in Hl. subst l. simpl in H. lia.
Qed.



End SamplerFacts.

(** ** Facts about [BlockedMCMCSampler] *)

Section BlockedFacts.

Import BlockedMCMCSampler.
Open Scope float_scope.

Context {X Y : Type}.
Variable net_ : X -> Y * float.
Variable net_backward : Y -> py X.
Variable log_prob : X -> float.
Variable action : Y -> float.
Variable prior_sample : X.
Variable blockupdater : X -> nat -> X.
Variable blockupdater_restore : X -> nat -> X.

Local Abbreviation sweep_body :=
  (sweep_body X Y net_ log_prob action blockupdater blockupdater_restore).
Local Abbreviation sweep :=
  (sweep X Y net_ log_prob action blockupdater blockupdater_restore).
Local Abbreviation blocks :=
  (blocks X Y net_ log_prob action blockupdater blockupdater_restore).
Local Abbreviation logqp_of := (logqp_of X Y net_ log_prob action).
Local Abbreviation start := (start X Y net_backward prior_sample).

(** One pass through the body of the loop of [sweep]. *)
Lemma sweep_body_step (lrand_arr : nat -> float) i x calls pre b suf ref :
  length pre = i ->
  i = 0%nat \/ is_Some ref ->
  sweep_body lrand_arr i (mk_sweep X x calls (pre ++ b :: suf) ref) =
  inr (let x' := blockupdater x i in
       if judge lrand_arr i ref (logqp_of x')
       then mk_sweep X x' (calls ++ [Update i]) (pre ++ true :: suf)
                     (Some (logqp_of x'))
       else mk_sweep X (blockupdater_restore x' i)
                     ((calls ++ [Update i]) ++ [Restore i])
                     (pre ++ false :: suf) ref).
Proof.
  intros Hpre Hinv.
  assert (Hins : forall a, <[i := a]> (pre ++ b :: suf) = pre ++ a :: suf).
  { intros a. rewrite insert_app_r_alt by lia.
    by replace (i - length pre)%nat with 0%nat by lia. }
  unfold BlockedMCMCSampler.sweep_body. simpl.
  destruct ref as [r|]; simpl.
  - rewrite Hins.
    by destruct (lrand_arr i <? r - logqp_of (blockupdater x i)).
  - destruct Hinv as [Hi|[? ?]]; [|done].
    rewrite (proj2 (Nat.eqb_eq _ _) Hi). simpl. by rewrite Hins.
Qed.

(** The loop of [sweep] from block [i] on, against the recursive
    description.  A reference is missing at most before the first block. *)
Lemma sweep_loop (lrand_arr : nat -> float) n :
  forall i x calls ref pre suf,
    length pre = i -> length suf = n ->
    i = 0%nat \/ is_Some ref ->
    for_range_from (sweep_body lrand_arr) i n
      (mk_sweep X x calls (pre ++ suf) ref) =
    inr (let '(x_end, cs, acc, ref_end) := blocks lrand_arr i n x ref in
         mk_sweep X x_end (calls ++ cs) (pre ++ acc) ref_end).
Proof.
  induction n as [|n IH]; intros i x calls ref pre suf Hpre Hsuf Hinv.
  - destruct suf; [|done]. simpl. by rewrite !app_nil_r.
  - destruct suf as [|b suf]; [done|]. injection Hsuf as Hsuf.
    cbn [for_range_from BlockedMCMCSampler.blocks].
    rewrite sweep_body_step by done. cbn [mbind py_bind].
    set (x' := blockupdater x i).
    destruct (judge lrand_arr i ref (logqp_of x')) eqn:Hjudge.
    + rewrite (cons_middle true pre suf), app_assoc.
      rewrite IH; [| rewrite length_app; simpl; lia | done | by right].
      destruct (blocks lrand_arr (S i) n x' (Some (logqp_of x')))
        as [[[x_end cs] acc'] ref_end].
      simpl. by rewrite <- !app_assoc.
    + rewrite (cons_middle false pre suf), app_assoc.
      rewrite IH; [| rewrite length_app; simpl; lia | done |].
      * destruct (blocks lrand_arr (S i) n (blockupdater_restore x' i) ref)
          as [[[x_end cs] acc'] ref_end].
        simpl. by rewrite <- !app_assoc.
      * right. destruct ref as [r|]; [done|]. discriminate Hjudge.
Qed.

Lemma blocks_calls (lrand_arr : nat -> float) n :
  forall i x ref,
    let '(_, cs, acc, _) := blocks lrand_arr i n x ref in
    length acc = n /\
    cs = concat (zip_with
                   (fun k (a : bool) =>
                      Update k :: if a then [] else [Restore k])
                   (seq i n) acc).
Proof.
  induction n as [|n IH]; intros i x ref; [done|].
  cbn [BlockedMCMCSampler.blocks].
  set (x' := blockupdater x i).
  destruct (judge lrand_arr i ref (logqp_of x')).
  - specialize (IH (S i) x' (Some (logqp_of x'))).
    destruct (blocks lrand_arr (S i) n x' (Some (logqp_of x')))
      as [[[x_end cs] acc] ref_end].
    destruct IH as [Hlen ->]. split; [simpl; lia|done].
  - specialize (IH (S i) (blockupdater_restore x' i) ref).
    destruct (blocks lrand_arr (S i) n (blockupdater_restore x' i) ref)
      as [[[x_end cs] acc] ref_end].
    destruct IH as [Hlen ->]. split; [simpl; lia|done].
Qed.

(** C6.  [sweep] judges each block update against the one carried
    reference by one draw: it returns, and what it returns is what the
    recursive description [blocks] gives (accepted without a draw when no
    reference exists, the reference replaced by the new ratio on acceptance,
    the block restored and the reference kept on rejection).  The calls made
    on the prior are one update per block in order, followed by a restore of
    that same block exactly when it was rejected.  Without a reference the
    first block is accepted, and a sampler whose [_ref] is still empty
    starts from a fresh prior draw without a reference. *)
Theorem sweep_single_reference (lrand_arr : nat -> float) (x : X)
    (calls : list event) (n_blocks : nat) (logqp_ref : option float) :
  let '(x_end, cs, accept_seq, ref_end) :=
    blocks lrand_arr 0 n_blocks x logqp_ref in
  sweep lrand_arr x calls n_blocks logqp_ref =
    inr (mk_sweep X x_end (calls ++ cs) accept_seq ref_end) /\
  length accept_seq = n_blocks /\
  cs = concat (zip_with
                 (fun k (a : bool) =>
                    Update k :: if a then [] else [Restore k])
                 (seq 0 n_blocks) accept_seq) /\
  (logqp_ref = None ->
     accept_seq !! 0%nat = (if n_blocks is O then None else Some true) /\
     (if n_blocks is O then ref_end = None else is_Some ref_end)) /\
  start MCMCSampler.ref_init = (prior_sample, None).
Proof.
  pose proof (sweep_loop lrand_arr n_blocks 0 x calls logqp_ref []
                (replicate n_blocks false) eq_refl
                (length_replicate _ _) (or_introl eq_refl)) as Hloop.
  pose proof (blocks_calls lrand_arr n_blocks 0 x logqp_ref) as Hcalls.
  unfold BlockedMCMCSampler.sweep, for_range.
  destruct (blocks lrand_arr 0 n_blocks x logqp_ref)
    as [[[x_end cs] acc] ref_end] eqn:Hb.
  destruct Hcalls as [Hlen Hcs].
  split; [exact Hloop|]. split; [done|]. split; [done|]. split; [|done].
  intros ->. destruct n_blocks as [|n].
  - simpl in Hb. by injection Hb as <- <- <- <-.
  - cbn [BlockedMCMCSampler.blocks judge] in Hb.
    destruct (blocks lrand_arr 1 n (blockupdater x 0)
                (Some (logqp_of (blockupdater x 0))))
      as [[[x1 cs1] acc1] ref1] eqn:Hb1.
    injection Hb as <- <- <- <-. split; [done|].
    clear -Hb1. revert Hb1. generalize 1%nat (blockupdater x 0)
      (logqp_of (blockupdater x 0)). revert x1 cs1 acc1 ref1.
    induction n as [|n IH]; intros x1 cs1 acc1 ref1 i x0 r Hb1.
    + simpl in Hb1. by injection Hb1 as <- <- <- <-.
    + cbn [BlockedMCMCSampler.blocks] in Hb1.
      destruct (judge lrand_arr i (Some r) (logqp_of (blockupdater x0 i))).
      * destruct (blocks lrand_arr (S i) n (blockupdater x0 i)
                    (Some (logqp_of (blockupdater x0 i))))
          as [[[x2 cs2] acc2] ref2] eqn:Hb2.
        injection Hb1 as <- <- <- <-. by eapply IH.
      * destruct (blocks lrand_arr (S i) n
                    (blockupdater_restore (blockupdater x0 i) i) (Some r))
          as [[[x2 cs2] acc2] ref2] eqn:Hb2.
        injection Hb1 as <- <- <- <-. by eapply IH.
Qed.

End BlockedFacts.

(** ** Facts about tensors and [Mask] *)

Section TensorFacts.

Lemma rowsM_inr {A B} (f : list A -> py (list B)) (g : list A -> list B)
    (x : tensor A) :
  Forall (fun r => f r = inr (g r)) x -> rowsM f x = inr (g <$> x).
Proof.
  unfold rowsM. induction 1 as [|r x Hr _ IH]; [done|].
  simpl. rewrite Hr. simpl. by rewrite IH.
Qed.

Lemma rows2M_inr {A B C} (f : list A -> list B -> py (list C))
    (g : list A -> list B -> list C) (x : tensor A) (y : tensor B) :
  Forall2 (fun r q => f r q = inr (g r q)) x y ->
  rows2M f x y = inr (zip_with g x y).
Proof.
  induction 1 as [|r q x y Hr _ IH]; [done|].
  simpl. rewrite Hr. simpl. by rewrite IH.
Qed.

Lemma zip_same_inr {A B C} (f : A -> B -> C) (r : list A) (q : list B) :
  length r = length q -> zip_same f r q = inr (zip_with f r q).
Proof. intros H. unfold zip_same. by rewrite H, Nat.eqb_refl. Qed.

Lemma rows2M_fmap {A B C} (f : list A -> list B -> py (list C))
    (h0 : list C -> list A) (h1 : list C -> list B) (x : tensor C) :
  Forall (fun r => f (h0 r) (h1 r) = inr r) x ->
  rows2M f (h0 <$> x) (h1 <$> x) = inr x.
Proof.
  induction 1 as [|r x Hr _ IH]; [done|].
  cbn [fmap list_fmap rows2M]. rewrite Hr. cbn [mbind py_bind].
  cbn [fmap] in IH. by rewrite IH.
Qed.

Lemma rows2M_Forall3 {A B C} (f : list A -> list B -> py (list C))
    (P0 : list A -> Prop) (P1 : list B -> Prop)
    (Q : list A -> list B -> list C -> Prop) (y0 : tensor A) (y1 : tensor B) :
  length y0 = length y1 -> Forall P0 y0 -> Forall P1 y1 ->
  (forall r q, P0 r -> P1 q -> exists o, f r q = inr o /\ Q r q o) ->
  exists y, rows2M f y0 y1 = inr y /\
            Forall3 (fun r q o => P0 r /\ P1 q /\ Q r q o) y0 y1 y.
Proof.
  intros Hlen H0 H1 Hf. revert y1 Hlen H1.
  induction H0 as [|r y0 Hr _ IH]; intros [|q y1] Hlen H1; try done.
  - exists []. split; [done|constructor].
  - injection Hlen as Hlen. apply Forall_cons in H1 as [Hq H1].
    destruct (Hf r q Hr Hq) as (o & Ho & HQ).
    destruct (IH y1 Hlen H1) as (y & Hy & HQs).
    exists (o :: y). simpl. rewrite Ho. simpl. rewrite Hy.
    split; [done|by constructor].
Qed.

Lemma Forall3_fmap_eq {A B C D} (Q : A -> B -> C -> Prop) (h : C -> D)
    (g : A -> B -> D) (y0 : list A) (y1 : list B) (y : list C) :
  Forall3 Q y0 y1 y -> (forall r q o, Q r q o -> h o = g r q) ->
  h <$> y = zip_with g y0 y1.
Proof.
  intros H Hh. induction H as [|r q o y0 y1 y HQ _ IH]; [done|].
  cbn [fmap list_fmap zip_with]. cbn [fmap] in IH.
  by rewrite (Hh _ _ _ HQ), IH.
Qed.

Lemma zip_with_fst_same {A B} (y0 : list A) (y1 : list B) :
  length y0 = length y1 -> zip_with (fun r _ => r) y0 y1 = y0.
Proof.
  revert y1. induction y0 as [|r y0 IH]; intros [|q y1] H; try done.
  injection H as H. simpl. by rewrite IH.
Qed.

Lemma zip_with_snd_same {A B} (y0 : list A) (y1 : list B) :
  length y0 = length y1 -> zip_with (fun _ q => q) y0 y1 = y1.
Proof.
  revert y1. induction y0 as [|r y0 IH]; intros [|q y1] H; try done.
  injection H as H. simpl. by rewrite IH.
Qed.

End TensorFacts.

Section MaskFacts.

Import Mask.
Open Scope Z_scope.

Lemma evenodd_binary shape parity : binary (evenodd shape parity).
Proof.
  unfold binary, evenodd. apply Forall_fmap, Forall_true. intros ind. simpl.
  unfold to_uint8.
  pose proof (Z.mod_pos_bound (sum ind + parity) 2 ltac:(lia)) as Hb.
  rewrite Z.mod_small by lia. lia.
Qed.

Lemma halfhalf_binary shape parity m :
  parity = 0 \/ parity = 1 ->
  halfhalf shape parity = inr m -> binary m.
Proof.
  intros Hp. unfold halfhalf. destruct (last shape) as [l|]; [|done].
  intros [= <-]. unfold binary. apply Forall_concat, Forall_replicate.
  apply Forall_app. split; apply Forall_replicate;
    destruct Hp as [-> | ->]; vm_compute; auto.
Qed.

Lemma product_length (ls : list (list nat)) :
  length (product ls) = numel (length <$> ls).
Proof.
  induction ls as [|l ls IH]; [done|].
  change (numel (length <$> l :: ls))
    with (length l * numel (length <$> ls))%nat.
  rewrite <- IH. clear IH. cbn [product].
  induction l as [|a l IHl]; [done|]. cbn [mbind list_bind].
  rewrite length_app. cbn [mbind] in IHl. rewrite IHl. simpl. f_equal.
  generalize (product ls). intros p. induction p as [|i p IHp]; [done|].
  cbn [mbind list_bind]. rewrite length_app. cbn [mbind] in IHp.
  by rewrite IHp.
Qed.

Lemma evenodd_length shape parity :
  length (evenodd shape parity) = numel shape.
Proof.
  unfold evenodd. rewrite length_fmap, product_length. f_equal.
  rewrite <- list_fmap_compose. induction shape as [|l shape IH]; [done|].
  cbn [fmap list_fmap]. cbn [fmap] in IH. rewrite IH. f_equal.
  unfold range. apply length_seq.
Qed.

Lemma numel_last shape l :
  last shape = Some l -> numel shape = (numel (removelast shape) * l)%nat.
Proof.
  induction shape as [|a shape IH]; [done|]. destruct shape as [|b shape].
  - intros [= <-]. simpl. lia.
  - intros H. specialize (IH H). cbn [removelast numel foldr] in *.
    fold (numel (b :: shape)). rewrite IH.
    change (foldr Nat.mul 1%nat (removelast (b :: shape)))
      with (numel (removelast (b :: shape))). lia.
Qed.

Lemma lines_length {A} (k n l : nat) (a b : A) :
  (n <= l)%nat ->
  length (concat (replicate k (replicate n a ++ replicate (l - n) b)))
  = (k * l)%nat.
Proof.
  intros Hn. induction k as [|k IH]; [done|]. cbn [replicate concat].
  rewrite length_app, IH, length_app, !length_replicate. lia.
Qed.

Lemma halfhalf_length shape parity m :
  halfhalf shape parity = inr m -> length m = numel shape.
Proof.
  unfold halfhalf. destruct (last shape) as [l|] eqn:Hl; [|done].
  intros [= <-]. rewrite (numel_last _ _ Hl).
  apply lines_length. change ((1 + l) `div` 2 <= l)%nat.
  destruct l as [|l]; [done|]. apply Nat.Div0.div_le_upper_bound. lia.
Qed.

(** *** One row, same-shape mode *)

Lemma one_minus_0 : to_uint8 (1 - 0) = 1.
Proof. reflexivity. Qed.

Lemma one_minus_1 : to_uint8 (1 - 1) = 0.
Proof. reflexivity. Qed.

Lemma sameshape_row_cat_split (m : list Z) (r : list R) :
  binary m -> length r = length m ->
  zip_with Rplus (mrow (one_minus m) r) (mrow m r) = r.
Proof.
  intros Hb. revert r. induction Hb as [|z m Hz _ IH]; intros [|a r] Hlen;
    try done.
  injection Hlen as Hlen. unfold mrow, one_minus in *. cbn [zip_with fmap list_fmap].
  cbn [fmap] in IH. rewrite IH by done. f_equal.
  destruct Hz as [-> | ->]; [rewrite one_minus_0 | rewrite one_minus_1]; lra.
Qed.

Lemma sameshape_row_split_channels (m : list Z) (r : list R) :
  binary m -> length r = length m ->
  Forall2 (fun z a => z <> 0 -> a = 0%R) m (mrow (one_minus m) r) /\
  Forall2 (fun z a => z <> 1 -> a = 0%R) m (mrow m r).
Proof.
  intros Hb. revert r. induction Hb as [|z m Hz _ IH]; intros [|a r] Hlen;
    try done.
  injection Hlen as Hlen. unfold mrow, one_minus in *.
  cbn [zip_with fmap list_fmap]. cbn [fmap] in IH.
  destruct (IH r Hlen) as [IH0 IH1]. split; constructor; try done.
  - intros Hne. destruct Hz as [-> | ->]; [done|]. rewrite one_minus_1. lra.
  - intros Hne. destruct Hz as [-> | ->]; [lra|done].
Qed.

Lemma sameshape_row_split_cat (m : list Z) (r0 r1 : list R) :
  binary m ->
  Forall2 (fun z a => z <> 0 -> a = 0%R) m r0 ->
  Forall2 (fun z a => z <> 1 -> a = 0%R) m r1 ->
  mrow (one_minus m) (zip_with Rplus r0 r1) = r0 /\
  mrow m (zip_with Rplus r0 r1) = r1.
Proof.
  intros Hb H0. revert r1.
  induction H0 as [|z a m r0 Ha _ IH]; intros r1 H1;
    inversion H1 as [|z' b m' r1' Hb1 H1']; subst; [done|].
  apply Forall_cons in Hb as [Hz Hb].
  destruct (IH Hb _ H1') as [IH0 IH1].
  unfold mrow, one_minus in *. cbn [zip_with fmap list_fmap].
  cbn [fmap] in IH0. rewrite IH0, IH1.
  destruct Hz as [-> | ->].
  - rewrite one_minus_0, Hb1 by done. split; f_equal; lra.
  - rewrite one_minus_1, Ha by done. split; f_equal; lra.
Qed.

(** *** One row, reshaped mode *)

Lemma select_length {A B} (m : list Z) v (r : list A) (q : list B) :
  length r = length m -> length q = length m ->
  length (select m v r) = length (select m v q).
Proof.
  revert r q. induction m as [|z m IH]; intros [|a r] [|b q] Hr Hq; try done.
  simpl. destruct (z =? v); simpl; auto.
Qed.

Lemma select_channels_length (m : list Z) :
  binary m ->
  (length (select m 0 m) + length (select m 1 m))%nat = length m.
Proof.
  induction 1 as [|z m Hz _ IH]; [done|].
  destruct Hz as [-> | ->]; simpl in *; lia.
Qed.

Lemma assign_spec {A} (m : list Z) v :
  forall (base src : list A),
    length base = length m ->
    length src = length (select m v m) ->
    exists out, assign base m v src = inr out /\
      length out = length m /\
      select m v out = src /\
      forall w, w <> v -> select m w out = select m w base.
Proof.
  induction m as [|z m IH]; intros [|b base] src Hb Hs; try done.
  - destruct src; [|done]. exists []. by repeat split.
  - injection Hb as Hb. simpl in *. destruct (z =? v) eqn:Ez.
    + destruct src as [|c src]; [done|]. injection Hs as Hs.
      destruct (IH base src Hb Hs) as (out & Ho & Hl & Hsel & Hoth).
      exists (c :: out). rewrite Ho. simpl. split; [done|].
      split; [by rewrite Hl|]. split; [by rewrite Hsel|].
      intros w Hw. apply Z.eqb_eq in Ez. subst z.
      rewrite (proj2 (Z.eqb_neq v w)) by done. by apply Hoth.
    + destruct (IH base src Hb Hs) as (out & Ho & Hl & Hsel & Hoth).
      exists (b :: out). rewrite Ho. simpl. split; [done|].
      split; [by rewrite Hl|]. split; [done|].
      intros w Hw. rewrite (Hoth w Hw). done.
Qed.

Lemma select_inj {A} (m : list Z) (a b : list A) :
  binary m -> length a = length m -> length b = length m ->
  select m 0 a = select m 0 b -> select m 1 a = select m 1 b -> a = b.
Proof.
  intros Hb. revert a b.
  induction Hb as [|z m Hz _ IH]; intros [|x a] [|y b] Ha Hlb H0 H1;
    try done.
  injection Ha as Ha. injection Hlb as Hlb. simpl in *.
  destruct Hz as [-> | ->]; simpl in *.
  - injection H0 as -> H0. f_equal. by apply IH.
  - injection H1 as -> H1. f_equal. by apply IH.
Qed.

Lemma reshaped_row_cat_split (m : list Z) (r base : list R) :
  binary m -> length r = length m -> length base = length m ->
  (x ← assign base m 0 (select m 0 r); assign x m 1 (select m 1 r)) = inr r.
Proof.
  intros Hb Hr Hbase.
  destruct (assign_spec m 0 base (select m 0 r)) as (b1 & Hb1 & Hl1 & Hs1 & Ho1);
    [done | by apply select_length |].
  destruct (assign_spec m 1 b1 (select m 1 r)) as (b2 & Hb2 & Hl2 & Hs2 & Ho2);
    [done | by apply select_length |].
  rewrite Hb1. simpl. rewrite Hb2. f_equal.
  apply (select_inj m); try done. rewrite Ho2 by done. done.
Qed.

Lemma reshaped_row_split_cat (m : list Z) (r0 r1 base : list R) :
  length base = length m ->
  length r0 = length (select m 0 m) ->
  length r1 = length (select m 1 m) ->
  exists r, (x ← assign base m 0 r0; assign x m 1 r1) = inr r /\
            length r = length m /\
            select m 0 r = r0 /\ select m 1 r = r1.
Proof.
  intros Hbase H0 H1.
  destruct (assign_spec m 0 base r0) as (b1 & Hb1 & Hl1 & Hs1 & Ho1);
    [done..|].
  destruct (assign_spec m 1 b1 r1) as (b2 & Hb2 & Hl2 & Hs2 & Ho2);
    [done..|].
  exists b2. rewrite Hb1. simpl. rewrite Hb2.
  repeat split; try done. rewrite Ho2 by done. done.
Qed.

(** *** The mask an [init] builds *)

Lemma init_facts shape parity ks form self :
  parity = 0 \/ parity = 1 ->
  init shape parity ks form = inr self ->
  binary (mask self) /\ length (mask self) = numel shape /\
  shape = Mask.shape self /\ keepshape self = ks /\
  (ks = false -> cat_mask self = Some (mask self)).
Proof.
  intros Hp. unfold init.
  destruct (get_mask shape parity form) as [e|m] eqn:Hm; [done|].
  simpl. intros Hself.
  assert (Hbin : binary m /\ length m = numel shape).
  { destruct form; simpl in Hm.
    - injection Hm as <-. split; [apply evenodd_binary|apply evenodd_length].
    - split; [by eapply halfhalf_binary|by eapply halfhalf_length]. }
  destruct Hbin.
  destruct ks; simpl in Hself; injection Hself as <-; simpl;
    repeat split; done.
Qed.

Lemma one_minus_length m : length (one_minus m) = length m.
Proof. unfold one_minus. by rewrite length_fmap. Qed.

Lemma mask_mul_inr (m : list Z) (x : tensor R) :
  Forall (fun r => length r = length m) x ->
  mask_mul m x = inr (mrow m <$> x).
Proof.
  intros H. unfold mask_mul. apply rowsM_inr.
  eapply Forall_impl; [exact H|]. simpl. intros r Hr.
  by apply zip_same_inr.
Qed.

Lemma pick_inr (m : list Z) v (x : tensor R) :
  Forall (fun r => length r = length m) x ->
  rowsM (fun r => if (length r =? length m)%nat
                  then mret (select m v r) else raise RuntimeError) x
  = inr (select m v <$> x).
Proof.
  intros H. apply rowsM_inr. eapply Forall_impl; [exact H|]. simpl.
  intros r ->. by rewrite Nat.eqb_refl.
Qed.

Lemma split_cat_facts (shape : list nat) (parity : Z) (ks : bool)
    (form : split_form) (self : Mask.t) (x : tensor R) :
  parity = 0 \/ parity = 1 ->
  init shape parity ks form = inr self ->
  fits self x ->
  exists x_0 x_1,
    split self x = inr (x_0, x_1) /\
    cat self x_0 x_1 = inr x /\
    in_channel self 0 x_0 /\ in_channel self 1 x_1 /\
    length x_0 = length x /\ length x_1 = length x /\
    (width self 0 + width self 1 = numel shape)%nat /\
    (forall y_0 y_1,
       in_channel self 0 y_0 -> in_channel self 1 y_1 ->
       length y_0 = length y_1 ->
       exists y, cat self y_0 y_1 = inr y /\ fits self y /\
                 split self y = inr (y_0, y_1)).
Proof.
  intros Hp Hinit Hfits.
  destruct (init_facts _ _ _ _ _ Hp Hinit) as (Hbin & Hlen & Hsh & Hks & Hcm).
  unfold fits in *. rewrite <- Hsh, <- Hlen in *.
  unfold split, cat, in_channel, width. rewrite Hks. destruct ks.
  - (* same shape *)
    exists (mrow (one_minus (mask self)) <$> x), (mrow (mask self) <$> x).
    assert (Hsplit : forall y,
      Forall (fun r => length r = length (mask self)) y ->
      _sameshape_split self y =
      inr (mrow (one_minus (mask self)) <$> y, mrow (mask self) <$> y)).
    { intros y Hy. unfold _sameshape_split.
      rewrite (mask_mul_inr (one_minus (mask self)))
        by (apply Forall_forall; intros r Hr; rewrite one_minus_length;
            by apply (proj1 (Forall_forall _ _) Hy)).
      simpl. by rewrite (mask_mul_inr (mask self)). }
    split; [by apply Hsplit|]. split.
    { unfold _sameshape_cat, tensor_map2. apply rows2M_fmap.
      eapply Forall_impl; [exact Hfits|]. simpl. intros r Hr.
      rewrite zip_same_inr
        by (unfold mrow; rewrite !length_zip_with, one_minus_length; lia).
      f_equal. by apply sameshape_row_cat_split. }
    split; [|split].
    { apply Forall_fmap. eapply Forall_impl; [exact Hfits|]. simpl.
      intros r Hr. by apply sameshape_row_split_channels. }
    { apply Forall_fmap. eapply Forall_impl; [exact Hfits|]. simpl.
      intros r Hr. by apply sameshape_row_split_channels. }
    split; [by rewrite length_fmap|]. split; [by rewrite length_fmap|].
    split; [by apply select_channels_length|].
    intros y_0 y_1 H0 H1 Hl.
    destruct (rows2M_Forall3 (zip_same Rplus) _ _
                (fun r q o => o = zip_with Rplus r q) y_0 y_1 Hl H0 H1)
      as (y & Hy & HQ).
    { intros r q Hr Hq. exists (zip_with Rplus r q). split; [|done].
      apply zip_same_inr. apply Forall2_length in Hr, Hq. lia. }
    exists y. split; [exact Hy|].
    assert (Hfy : Forall (fun r => length r = length (mask self)) y).
    { clear -HQ H0 H1. apply Forall_forall. intros o Ho.
      apply list_elem_of_lookup in Ho as [i Ho].
      destruct (Forall3_lookup_r _ _ _ _ _ _ HQ Ho)
        as (r & q & _ & _ & Hr & Hq & ->).
      rewrite length_zip_with. apply Forall2_length in Hr, Hq. lia. }
    split; [exact Hfy|]. rewrite Hsplit by done. do 2 f_equal.
    + rewrite (Forall3_fmap_eq _ _ (fun r _ => r) _ _ _ HQ).
      * by apply zip_with_fst_same.
      * intros r q o (Hr & Hq & ->).
        by apply sameshape_row_split_cat.
    + rewrite (Forall3_fmap_eq _ _ (fun _ q => q) _ _ _ HQ).
      * by apply zip_with_snd_same.
      * intros r q o (Hr & Hq & ->).
        by apply sameshape_row_split_cat.
  - (* reshaped *)
    specialize (Hcm eq_refl). change (Z.of_nat 0) with 0. change (Z.of_nat 1) with 1.
    exists (select (mask self) 0 <$> x), (select (mask self) 1 <$> x).
    assert (Hsplit : forall y,
      Forall (fun r => length r = length (mask self)) y ->
      _anothershape_split self y =
      inr (select (mask self) 0 <$> y, select (mask self) 1 <$> y)).
    { intros y Hy. unfold _anothershape_split.
      rewrite (pick_inr (mask self) 0) by done. simpl.
      by rewrite (pick_inr (mask self) 1). }
    assert (Hempty : length (replicate (numel (Mask.shape self)) 0%R)
                     = length (mask self)).
    { by rewrite length_replicate, <- Hsh. }
    split; [by apply Hsplit|]. split.
    { unfold _anothershape_cat. rewrite Hcm. simpl. apply rows2M_fmap.
      eapply Forall_impl; [exact Hfits|]. simpl. intros r Hr.
      by apply reshaped_row_cat_split. }
    split; [|split].
    { apply Forall_fmap. eapply Forall_impl; [exact Hfits|]. simpl.
      intros r Hr. by apply select_length. }
    { apply Forall_fmap. eapply Forall_impl; [exact Hfits|]. simpl.
      intros r Hr. by apply select_length. }
    split; [by rewrite length_fmap|]. split; [by rewrite length_fmap|].
    split; [by apply select_channels_length|].
    intros y_0 y_1 H0 H1 Hl. unfold _anothershape_cat. rewrite Hcm. simpl.
    destruct (rows2M_Forall3
                (fun r_0 r_1 =>
                   x ← assign (replicate (numel (Mask.shape self)) 0%R)
                         (mask self) 0 r_0;
                   assign x (mask self) 1 r_1) _ _
                (fun r q o => length o = length (mask self) /\
                   select (mask self) 0 o = r /\
                   select (mask self) 1 o = q) y_0 y_1 Hl H0 H1)
      as (y & Hy & HQ).
    { intros r q Hr Hq. by apply reshaped_row_split_cat. }
    exists y. split; [exact Hy|].
    assert (Hfy : Forall (fun r => length r = length (mask self)) y).
    { clear -HQ. apply Forall_forall. intros o Ho.
      apply list_elem_of_lookup in Ho as [i Ho].
      destruct (Forall3_lookup_r _ _ _ _ _ _ HQ Ho)
        as (r & q & _ & _ & _ & _ & Hlo & _). done. }
    split; [exact Hfy|]. rewrite Hsplit by done. do 2 f_equal.
    + rewrite (Forall3_fmap_eq _ _ (fun r _ => r) _ _ _ HQ).
      * by apply zip_with_fst_same.
      * by intros r q o (_ & _ & _ & -> & _).
    + rewrite (Forall3_fmap_eq _ _ (fun _ q => q) _ _ _ HQ).
      * by apply zip_with_snd_same.
      * by intros r q o (_ & _ & _ & _ & ->).
Qed.



End MaskFacts.

(** ** Facts about the coupling-list engines *)

Section ShapeFacts.

Import Couplings.
Open Scope R_scope.

Lemma Forall2_of_Forall {A B} (P : A -> Prop) (Q : B -> Prop)
    (x : list A) (y : list B) :
  length x = length y -> Forall P x -> Forall Q y ->
  Forall2 (fun a b => P a /\ Q b) x y.
Proof.
  intros Hlen Hx. revert y Hlen.
  induction Hx as [|a x Ha _ IH]; intros [|b y] Hlen Hy; try done.
  injection Hlen as Hlen. apply Forall_cons in Hy as [Hb Hy].
  constructor; [done|by apply IH].
Qed.

Lemma Forall3_of_Forall {A B C} (P : A -> Prop) (Q : B -> Prop)
    (S : C -> Prop) (x : list A) (y : list B) (z : list C) :
  length x = length y -> length x = length z ->
  Forall P x -> Forall Q y -> Forall S z ->
  Forall3 (fun a b c => P a /\ Q b /\ S c) x y z.
Proof.
  intros Hy Hz Hx. revert y z Hy Hz.
  induction Hx as [|a x Ha _ IH]; intros [|b y] [|c z] Hly Hlz HQ HS;
    try done; [constructor|].
  injection Hly as Hly. injection Hlz as Hlz.
  apply Forall_cons in HQ as [Hb HQ]. apply Forall_cons in HS as [Hc HS].
  constructor; [done|by apply IH].
Qed.

Lemma tensor_map2_inr (f : R -> R -> R) b w (x y : tensor R) :
  shaped b w x -> shaped b w y ->
  tensor_map2 f x y = inr (zip_with (zip_with f) x y).
Proof.
  intros [Hlx Hx] [Hly Hy]. unfold tensor_map2. apply rows2M_inr.
  eapply Forall2_impl;
    [apply (Forall2_of_Forall (fun r : list R => length r = w)
              (fun r : list R => length r = w) x y);
       [lia|exact Hx|exact Hy]|].
  simpl. intros r q [Hr Hq]. apply zip_same_inr. lia.
Qed.

Lemma shaped_zip_with (f : R -> R -> R) b w (x y : tensor R) :
  shaped b w x -> shaped b w y -> shaped b w (zip_with (zip_with f) x y).
Proof.
  intros [Hlx Hx] [Hly Hy]. split; [rewrite length_zip_with; lia|].
  apply Forall_forall. intros o Ho.
  apply list_elem_of_lookup in Ho as [i Ho].
  apply lookup_zip_with_Some in Ho as (r & q & -> & Hr & Hq).
  rewrite length_zip_with.
  apply (Forall_lookup_1 _ _ _ _ Hx) in Hr.
  apply (Forall_lookup_1 _ _ _ _ Hy) in Hq. simpl in *. lia.
Qed.

Lemma shaped_fmap (g : list R -> list R) b w w' (x : tensor R) :
  (forall r, length r = w -> length (g r) = w') ->
  shaped b w x -> shaped b w' (g <$> x).
Proof.
  intros Hg [Hlx Hx]. split; [by rewrite length_fmap|].
  apply Forall_fmap. eapply Forall_impl; [exact Hx|]. simpl. auto.
Qed.

Lemma shaped_tensor_map (f : R -> R) b w (x : tensor R) :
  shaped b w x -> shaped b w (tensor_map f x).
Proof.
  apply shaped_fmap. intros r Hr. by rewrite length_fmap.
Qed.

Lemma in_channel_rows (m : Mask.t) c (x : tensor R) :
  Mask.in_channel m c x <-> Forall (channel_row m c) x.
Proof. unfold Mask.in_channel, channel_row. by destruct (Mask.keepshape m). Qed.

Lemma channel_row_length (m : Mask.t) c (r : list R) :
  channel_row m c r -> length r = row_length m c.
Proof.
  unfold channel_row, row_length. destruct (Mask.keepshape m); [|done].
  intros H. by apply Forall2_length in H.
Qed.

Lemma purify_row_length (m : Mask.t) c (r : list R) :
  length r = row_length m c -> length (purify_row m c r) = row_length m c.
Proof.
  unfold purify_row, row_length. destruct (Mask.keepshape m); [|done].
  intros Hr. unfold Mask.mrow. rewrite length_zip_with.
  destruct (c =? 0)%nat; rewrite ?one_minus_length; lia.
Qed.

Lemma purify_inr (m : Mask.t) c b (x : tensor R) :
  shaped b (row_length m c) x ->
  Mask.purify m x c false = inr (purify_row m c <$> x).
Proof.
  intros [Hl Hx]. unfold Mask.purify, purify_row, row_length in *.
  destruct (Mask.keepshape m).
  - unfold Mask._sameshape_purify. simpl.
    destruct (c =? 0)%nat; apply mask_mul_inr;
      (eapply Forall_impl; [exact Hx|]); simpl; intros r ->;
      by rewrite ?one_minus_length.
  - unfold Mask._anothershape_purify. by rewrite list_fmap_id.
Qed.

Lemma purify_row_channel (m : Mask.t) c (r : list R) :
  Mask.binary (Mask.mask m) -> c = 0%nat \/ c = 1%nat ->
  length r = row_length m c -> channel_row m c (purify_row m c r).
Proof.
  unfold channel_row, purify_row, row_length, Mask.width.
  destruct (Mask.keepshape m); [|done].
  intros Hb Hc. revert r.
  induction Hb as [|z mk Hz _ IH]; intros [|a r] Hr; try done.
  { destruct (c =? 0)%nat; constructor. }
  injection Hr as Hr. specialize (IH r Hr).
  destruct Hc as [-> | ->]; cbn [Nat.eqb] in *;
    unfold Mask.mrow, Mask.one_minus in *;
    cbn [zip_with fmap list_fmap]; cbn [fmap] in IH;
    (constructor; [|exact IH]); intros Hne;
    destruct Hz as [-> | ->]; try done.
  - rewrite one_minus_1. lra.
  - lra.
Qed.

End ShapeFacts.

Section LayerFacts.

Import Couplings.
Open Scope R_scope.

Lemma fmap_zip_with {A B C D} (g : C -> D) (f : A -> B -> C)
    (l : list A) (k : list B) :
  g <$> zip_with f l k = zip_with (fun a b => g (f a b)) l k.
Proof.
  revert k. induction l as [|a l IH]; intros [|b k]; try done.
  cbn [zip_with fmap list_fmap]. cbn [fmap] in IH. by rewrite IH.
Qed.

Lemma zip_with_undo {A B C} (F : A -> B -> C) (G : C -> B -> A)
    (la : list A) (lb : list B) :
  Forall2 (fun a b => G (F a b) b = a) la lb ->
  zip_with G (zip_with F la lb) lb = la.
Proof.
  induction 1 as [|a b la lb Hab _ IH]; [done|].
  simpl. by rewrite Hab, IH.
Qed.

Lemma zip_with_undo3 {A T S E E' M Y D}
    (mul : A -> E -> M) (plus : T -> M -> Y) (minus : Y -> T -> D)
    (mul' : D -> E' -> A) (e : S -> E) (e' : S -> E')
    (P : A -> T -> S -> Prop) (la : list A) (lt : list T) (ls : list S) :
  Forall3 P la lt ls ->
  (forall a t s, P a t s ->
     mul' (minus (plus t (mul a (e s))) t) (e' s) = a) ->
  zip_with mul' (zip_with minus (zip_with plus lt (zip_with mul la (e <$> ls)))
                          lt) (e' <$> ls) = la.
Proof.
  intros H Hp. induction H as [|a t s la lt ls HP _ IH]; [done|].
  cbn [zip_with fmap list_fmap]. cbn [fmap] in IH.
  by rewrite (Hp _ _ _ HP), IH.
Qed.

Lemma exp_undo (a t s : R) : (t + a * exp (- s) - t) * exp s = a.
Proof.
  replace ((t + a * exp (- s) - t) * exp s)
    with (a * (exp (- s) * exp s)) by ring.
  rewrite <- exp_plus. replace (- s + s) with 0 by ring.
  rewrite exp_0. ring.
Qed.

(** A shifted row is shifted back. *)
Lemma shift_row_undo (m : Mask.t) c (ra rt : list R) :
  Mask.binary (Mask.mask m) -> c = 0%nat \/ c = 1%nat ->
  channel_row m c ra -> length rt = row_length m c ->
  purify_row m c
    (zip_with Rminus (purify_row m c (zip_with Rplus ra rt)) rt) = ra.
Proof.
  unfold channel_row, purify_row, row_length, Mask.width.
  destruct (Mask.keepshape m).
  - intros Hb Hc Ha. revert rt.
    induction Ha as [|z a mk ra Hza _ IH]; intros [|t rt] Ht; try done.
    { by destruct (c =? 0)%nat. }
    injection Ht as Ht. apply Forall_cons in Hb as [Hz Hb].
    specialize (IH Hb rt Ht).
    destruct Hc as [-> | ->]; cbn [Nat.eqb] in *;
      unfold Mask.mrow, Mask.one_minus in *;
      cbn [zip_with fmap list_fmap]; cbn [fmap] in IH; rewrite IH; f_equal;
      destruct Hz as [-> | ->].
    + rewrite one_minus_0. lra.
    + rewrite one_minus_1, Hza by done. lra.
    + rewrite Hza by done. lra.
    + lra.
  - intros _ _ Ha Ht. rewrite <- Ha in Ht. clear Ha. revert rt Ht.
    induction ra as [|a ra IH]; intros [|t rt] Ht; try done.
    injection Ht as Ht. simpl. rewrite IH by done. f_equal. lra.
Qed.

(** The row an affine layer produces stays in its channel. *)
Lemma affine_row_channel (m : Mask.t) c (rt ra re : list R) :
  channel_row m c rt -> channel_row m c ra ->
  length re = row_length m c ->
  channel_row m c (zip_with Rplus rt (zip_with Rmult ra re)).
Proof.
  unfold channel_row, row_length. destruct (Mask.keepshape m).
  - intros Ht. revert ra re.
    induction Ht as [|z t mk rt Hzt _ IH]; intros ra re Ha He;
      inversion Ha as [|z' a mk' ra' Hza Ha']; subst; [constructor|].
    destruct re as [|e re]; [done|]. injection He as He.
    simpl. constructor; [|by apply IH].
    intros Hne. rewrite Hzt, Hza by done. lra.
  - intros Ht Ha He. rewrite !length_zip_with. lia.
Qed.

Lemma log_op_spec (f : R -> R -> R) b (l : logval) (v : list R) :
  log_fits b l -> length v = b ->
  exists w, log_op f l v = inr (LVec w) /\ length w = b /\
    forall i, (i < b)%nat ->
      log_at (LVec w) i = f (log_at l i) (default 0 (v !! i)).
Proof.
  intros Hl Hv. destruct l as [r|u]; simpl in *.
  - exists (f r <$> v). split; [done|]. split; [by rewrite length_fmap|].
    intros i Hi. rewrite list_lookup_fmap.
    destruct (lookup_lt_is_Some_2 v i) as [a Ha]; [lia|]. by rewrite Ha.
  - exists (zip_with f u v). rewrite zip_same_inr by lia.
    split; [done|]. split; [rewrite length_zip_with; lia|].
    intros i Hi. rewrite lookup_zip_with.
    destruct (lookup_lt_is_Some_2 u i) as [a Ha]; [lia|].
    destruct (lookup_lt_is_Some_2 v i) as [c Hc]; [lia|].
    by rewrite Ha, Hc.
Qed.

Lemma channel_rows_shaped (m : Mask.t) c b (x : tensor R) :
  Forall (channel_row m c) x -> length x = b -> shaped b (row_length m c) x.
Proof.
  intros H Hl. split; [done|].
  eapply Forall_impl; [exact H|]. apply channel_row_length.
Qed.

Lemma Forall_zip_with_rows {A B C} (P : C -> Prop) (f : A -> B -> C)
    (x : list A) (y : list B) :
  Forall2 (fun a b => P (f a b)) x y -> Forall P (zip_with f x y).
Proof. induction 1; simpl; constructor; done. Qed.

(** One layer, forward and then backward: the backward pass returns the
    active channel it was given, and the two log-Jacobians cancel. *)
Lemma atomic_undo (self : t) b k (f : net) (xa xf : tensor R) (l : logval) :
  Mask.binary (Mask.mask (mask self)) ->
  net_fits self b k f ->
  Forall (channel_row (mask self) (k `mod` 2)) xa -> length xa = b ->
  shaped b (row_length (mask self) (1 - k `mod` 2)) xf ->
  log_fits b l ->
  exists ya l',
    atomic_forward self xa (Some xf) (k `mod` 2) f l = inr (ya, l') /\
    Forall (channel_row (mask self) (k `mod` 2)) ya /\ length ya = b /\
    log_fits b l' /\ (forall r, l' = LNum r -> l = LNum r) /\
    forall lb, log_fits b lb ->
      exists lb',
        atomic_backward self ya (Some xf) (k `mod` 2) f lb = inr (xa, lb') /\
        log_fits b lb' /\ (forall r, lb' = LNum r -> lb = LNum r) /\
        forall i, (i < b)%nat ->
          log_at l' i + log_at lb' i = log_at l i + log_at lb i.
Proof.
  intros Hbin Hnet Hxa Hlen Hxf Hl.
  assert (Hp : (k `mod` 2 = 0 \/ k `mod` 2 = 1)%nat).
  { pose proof (Nat.mod_upper_bound k 2). lia. }
  revert Hnet Hxa Hxf. unfold net_fits. cbv zeta.
  generalize (k `mod` 2)%nat Hp. clear Hp. intros p Hp Hnet Hxa Hxf.
  set (m := mask self) in *.
  pose proof (channel_rows_shaped m p b xa Hxa Hlen) as Hsa.
  specialize (Hnet xf Hxf).
  unfold atomic_forward, atomic_backward.
  destruct (cls self).
  - (* shift *)
    destruct Hnet as (x_t & Hf & Hst).
    set (ya := purify_row m p <$> zip_with (zip_with Rplus) xa x_t).
    assert (Hsum : shaped b (row_length m p) (zip_with (zip_with Rplus) xa x_t))
      by by apply shaped_zip_with.
    assert (Hsy : shaped b (row_length m p) ya).
    { apply (shaped_fmap _ b (row_length m p)); [|done].
      apply purify_row_length. }
    exists ya, l. split.
    { unfold shift_atomic. simpl. rewrite Hf. simpl.
      rewrite (tensor_map2_inr Rplus b (row_length m p)) by done. simpl.
      fold m. by rewrite (purify_inr m p b). }
    split.
    { apply Forall_fmap. destruct Hsum as [_ Hsum].
      eapply Forall_impl; [exact Hsum|]. simpl. intros r Hr.
      by apply purify_row_channel. }
    split; [by destruct Hsy|]. split; [done|]. split; [done|].
    intros lb Hlb. exists lb. split.
    { unfold shift_atomic. simpl. rewrite Hf. simpl.
      rewrite (tensor_map2_inr Rminus b (row_length m p)) by done. simpl.
      fold m.
      rewrite (purify_inr m p b) by by apply shaped_zip_with. simpl.
      do 2 f_equal. unfold ya.
      rewrite !fmap_zip_with.
      apply (zip_with_undo
               (fun ra rt => purify_row m p (zip_with Rplus ra rt))
               (fun ro rt => purify_row m p (zip_with Rminus ro rt))).
      destruct Hsa as [Hla _]. destruct Hst as [Hlt Ht].
      eapply Forall2_impl;
        [apply (Forall2_of_Forall (channel_row m p)
                  (fun r : list R => length r = row_length m p) xa x_t);
           [lia|done|done]|].
      simpl. intros ra rt [Hra Hrt]. by apply shift_row_undo. }
    split; [done|]. split; [done|]. done.
  - (* affine *)
    destruct Hnet as (x_t & x_s & Hf & Hst & Hss).
    set (t' := purify_row m p <$> x_t).
    set (s' := if zee2sym self
               then tensor_map Rabs (purify_row m p <$> x_s)
               else purify_row m p <$> x_s).
    set (e := tensor_map (fun a => exp (- a)) s').
    set (ya := zip_with (zip_with Rplus) t' (zip_with (zip_with Rmult) xa e)).
    assert (Hst' : shaped b (row_length m p) t').
    { apply (shaped_fmap _ b (row_length m p)); [|done].
      apply purify_row_length. }
    assert (Hss' : shaped b (row_length m p) s').
    { unfold s'. destruct (zee2sym self); [apply shaped_tensor_map|];
        (apply (shaped_fmap _ b (row_length m p)); [|done]);
        apply purify_row_length. }
    assert (Hse : shaped b (row_length m p) e) by by apply shaped_tensor_map.
    assert (Hsm : shaped b (row_length m p) (zip_with (zip_with Rmult) xa e))
      by by apply shaped_zip_with.
    assert (Hsy : shaped b (row_length m p) ya) by by apply shaped_zip_with.
    assert (Hv : length (sum_density s') = b).
    { unfold sum_density. rewrite length_fmap. by destruct Hss'. }
    destruct (log_op_spec Rminus b l (sum_density s') Hl Hv)
      as (w & Hw & Hwl & Hwi).
    exists ya, (LVec w). split.
    { unfold affine_atomic_forward. simpl. rewrite Hf. simpl. fold m.
      rewrite (purify_inr m p b x_t) by done. simpl.
      rewrite (purify_inr m p b x_s) by done. simpl. fold s'. fold e.
      rewrite (tensor_map2_inr Rmult b (row_length m p)) by done. simpl.
      fold t'.
      rewrite (tensor_map2_inr Rplus b (row_length m p)) by done. simpl.
      by rewrite Hw. }
    split.
    { unfold ya. apply Forall_zip_with_rows.
      destruct Hst as [Hlt Ht]. destruct Hsm as [Hlm _].
      assert (Hrows : Forall3 (fun rt ra re =>
                 length rt = row_length m p /\ channel_row m p ra /\
                 length re = row_length m p) x_t xa e).
      { destruct Hse as [Hle He]. destruct Hsa as [Hla _].
        apply Forall3_of_Forall; try done; lia. }
      unfold t'. clear -Hrows Hbin Hp.
      induction Hrows as [|rt ra re x_t xa e (Hrt & Hra & Hre) _ IH];
        [constructor|].
      cbn [fmap list_fmap zip_with]. constructor; [|exact IH].
      apply affine_row_channel; [|done..]. by apply purify_row_channel. }
    split; [by destruct Hsy|]. split; [done|]. split; [done|].
    intros lb Hlb.
    destruct (log_op_spec Rplus b lb (sum_density s') Hlb Hv)
      as (wb & Hwb & Hwbl & Hwbi).
    exists (LVec wb). split.
    { unfold affine_atomic_backward. simpl. rewrite Hf. simpl. fold m.
      rewrite (purify_inr m p b x_t) by done. simpl.
      rewrite (purify_inr m p b x_s) by done. simpl. fold s'. fold t'.
      rewrite (tensor_map2_inr Rminus b (row_length m p)) by done. simpl.
      rewrite (tensor_map2_inr Rmult b (row_length m p));
        [|by apply shaped_zip_with|by apply shaped_tensor_map].
      simpl. rewrite Hwb. simpl. do 2 f_equal.
      unfold ya, e, tensor_map.
      apply (zip_with_undo3 (zip_with Rmult) (zip_with Rplus)
               (zip_with Rminus) (zip_with Rmult)
               (fun r : list R => (fun a => exp (- a)) <$> r)
               (fun r : list R => exp <$> r)
               (fun ra rt rs => length rt = length ra /\
                                length rs = length ra)).
      - destruct Hsa as [Hla Ha]. destruct Hst' as [Hlt Ht].
        destruct Hss' as [Hls Hs].
        eapply Forall3_impl;
          [apply (Forall3_of_Forall
                    (fun r : list R => length r = row_length m p)
                    (fun r : list R => length r = row_length m p)
                    (fun r : list R => length r = row_length m p)
                    xa t' s'); try done; lia|].
        simpl. intros ra rt rs (Hra & Hrt & Hrs). lia.
      - intros ra rt rs [Hrt Hrs].
        apply (zip_with_undo3 Rmult Rplus Rminus Rmult
                 (fun a => exp (- a)) exp
                 (fun _ _ _ => True /\ True /\ True)).
        + apply (Forall3_of_Forall (fun _ : R => True) (fun _ : R => True)
                   (fun _ : R => True)); try lia; by apply Forall_true.
        + intros a t0 s0 _. apply exp_undo. }
    split; [done|]. split; [done|].
    intros i Hi. rewrite Hwi, Hwbi by done. lra.
Qed.

End LayerFacts.

Section LoopFacts.

Import Couplings.
Open Scope R_scope.

Variable self : t.
Variable b : nat.
Hypothesis Hbin : Mask.binary (Mask.mask (mask self)).

Lemma for_each_app {K St} (body : K -> St -> py St) (ks ks' : list K)
    (s : St) :
  for_each body (ks ++ ks') s = (s' ← for_each body ks s; for_each body ks' s').
Proof.
  revert s. induction ks as [|k ks IH]; intros s; [done|].
  simpl. destruct (body k s) as [e|s']; [done|]. simpl. apply IH.
Qed.

Lemma for_each_ext {K St} (body body' : K -> St -> py St) (ks : list K)
    (s : St) :
  Forall (fun k => forall s, body k s = body' k s) ks ->
  for_each body ks s = for_each body' ks s.
Proof.
  intros H. revert s. induction H as [|k ks Hk _ IH]; intros s; [done|].
  simpl. rewrite Hk. destruct (body' k s) as [e|s']; [done|]. apply IH.
Qed.

Local Abbreviation fwd := (forward_over self).
Local Abbreviation bwd := (backward_over self).

Lemma fwd_snoc (fs : list net) (f : net) (st : state) :
  fwd (fs ++ [f]) st =
  (st' ← fwd fs st; layer self (atomic_forward self) None (length fs) f st').
Proof.
  unfold forward_over, enumerate. rewrite imap_app, for_each_app. simpl.
  destruct (for_each _ _ st) as [e|st']; [done|]. simpl.
  rewrite Nat.add_0_r.
  by destruct (layer self (atomic_forward self) None (length fs) f st').
Qed.

Lemma bwd_snoc (fs : list net) (f : net) (st : state) :
  bwd (fs ++ [f]) st =
  (st' ← layer self (atomic_backward self) None (length fs) f st; bwd fs st').
Proof.
  unfold backward_over. rewrite length_app. simpl.
  rewrite Nat.add_1_r, seq_S, reverse_app. simpl.
  rewrite (index_Some (fs ++ [f]) (length fs) f)
    by (by rewrite lookup_app_r, Nat.sub_diag by lia).
  simpl.
  destruct (layer self (atomic_backward self) None (length fs) f st)
    as [e|st']; [done|]. simpl.
  apply for_each_ext. apply Forall_forall. intros k Hk s.
  apply elem_of_reverse, elem_of_seq in Hk.
  unfold index. by rewrite lookup_app_l by lia.
Qed.

Local Abbreviation channels := (channels (mask self) b).

Lemma layer_eq atomic k (f : net) (x : tensor R * tensor R) (l : logval) :
  layer self atomic None k f (x, l) =
  ('(y, log0) ← atomic (item (k `mod` 2) x)
                  (Some (item (1 - k `mod` 2) x)) (k `mod` 2)%nat f l;
   mret (set_item (k `mod` 2) x y, log0)).
Proof. reflexivity. Qed.

Lemma layer_undo k (f : net) (x : tensor R * tensor R) (l : logval) :
  net_fits self b k f -> channels x -> log_fits b l ->
  exists x' l',
    layer self (atomic_forward self) None k f (x, l) = inr (x', l') /\
    channels x' /\ log_fits b l' /\ (forall r, l' = LNum r -> l = LNum r) /\
    forall lb, log_fits b lb ->
      exists lb',
        layer self (atomic_backward self) None k f (x', lb) = inr (x, lb') /\
        log_fits b lb' /\ (forall r, lb' = LNum r -> lb = LNum r) /\
        forall i, (i < b)%nat ->
          log_at l' i + log_at lb' i = log_at l i + log_at lb i.
Proof.
  intros Hnet (H0 & H1 & Hl0 & Hl1) Hl. destruct x as [x0 x1].
  cbn [fst snd] in *.
  assert (Hp : (k `mod` 2 = 0 \/ k `mod` 2 = 1)%nat).
  { pose proof (Nat.mod_upper_bound k 2). lia. }
  assert (Hact : Forall (channel_row (mask self) (k `mod` 2))
                   (item (k `mod` 2) (x0, x1)) /\
                 length (item (k `mod` 2) (x0, x1)) = b).
  { unfold item. destruct Hp as [-> | ->]; simpl; done. }
  assert (Hfz : shaped b (row_length (mask self) (1 - k `mod` 2))
                  (item (1 - k `mod` 2) (x0, x1))).
  { unfold item. destruct Hp as [-> | ->]; simpl;
      by apply channel_rows_shaped. }
  destruct Hact as [Hact Hactl].
  destruct (atomic_undo self b k f _ _ l Hbin Hnet Hact Hactl Hfz Hl)
    as (ya & l' & Hfw & Hya & Hyal & Hl' & Hnum & Hback).
  exists (set_item (k `mod` 2) (x0, x1) ya), l'.
  split; [by rewrite layer_eq, Hfw|].
  split.
  { unfold channels, set_item. destruct Hp as [Hp | Hp]; rewrite Hp in *;
      simpl; done. }
  split; [done|]. split; [done|].
  intros lb Hlb. destruct (Hback lb Hlb) as (lb' & Hbw & Hlb' & Hnumb & Hsum).
  exists lb'. split; [|done].
  rewrite layer_eq.
  assert (Hi : item (k `mod` 2) (set_item (k `mod` 2) (x0, x1) ya) = ya).
  { unfold item, set_item. by destruct (k `mod` 2 =? 0)%nat. }
  assert (Hi' : item (1 - k `mod` 2) (set_item (k `mod` 2) (x0, x1) ya)
                = item (1 - k `mod` 2) (x0, x1)).
  { unfold item, set_item. destruct Hp as [-> | ->]; done. }
  rewrite Hi, Hi', Hbw. cbn [mbind py_bind mret py_ret]. do 2 f_equal.
  unfold item, set_item. destruct Hp as [-> | ->]; done.
Qed.

Lemma loops_undo (fs : list net) :
  (forall k f, fs !! k = Some f -> net_fits self b k f) ->
  forall (x : tensor R * tensor R) (l : logval),
    channels x -> log_fits b l ->
    exists x' l',
      fwd fs (x, l) = inr (x', l') /\
      channels x' /\ log_fits b l' /\ (forall r, l' = LNum r -> l = LNum r) /\
      forall lb, log_fits b lb ->
        exists lb',
          bwd fs (x', lb) = inr (x, lb') /\
          log_fits b lb' /\ (forall r, lb' = LNum r -> lb = LNum r) /\
          forall i, (i < b)%nat ->
            log_at l' i + log_at lb' i = log_at l i + log_at lb i.
Proof.
  induction fs as [|f fs IH] using rev_ind; intros Hnets x l Hx Hl.
  - exists x, l. split; [done|]. split; [done|]. split; [done|].
    split; [done|]. intros lb Hlb. exists lb. by repeat split.
  - destruct (IH (fun k g Hk => Hnets k g (lookup_app_l_Some _ _ _ _ Hk))
                x l Hx Hl)
      as (x1 & l1 & Hfw1 & Hx1 & Hl1 & Hn1 & Hb1).
    destruct (layer_undo (length fs) f x1 l1) as
      (x2 & l2 & Hfw2 & Hx2 & Hl2 & Hn2 & Hb2); [|done|done|].
    { apply Hnets. by rewrite lookup_app_r, Nat.sub_diag by lia. }
    exists x2, l2. split; [by rewrite fwd_snoc, Hfw1|].
    split; [done|]. split; [done|]. split; [by auto|].
    intros lb Hlb.
    destruct (Hb2 lb Hlb) as (lb1 & Hbw2 & Hlb1 & Hnb1 & Hs1).
    destruct (Hb1 lb1 Hlb1) as (lb2 & Hbw1 & Hlb2 & Hnb2 & Hs2).
    exists lb2. split; [by rewrite bwd_snoc, Hbw2|].
    split; [done|]. split; [by auto|].
    intros i Hi. specialize (Hs1 i Hi). specialize (Hs2 i Hi). lra.
Qed.

End LoopFacts.

Section Invertibility.

Import Couplings.
Open Scope R_scope.

Lemma log_plus_zero b (lf lb : logval) :
  log_fits b lf -> log_fits b lb ->
  (forall r, lf = LNum r -> r = 0) -> (forall r, lb = LNum r -> r = 0) ->
  (forall i, (i < b)%nat -> log_at lf i + log_at lb i = 0) ->
  exists l, log_plus lf lb = inr l /\ is_zero l.
Proof.
  intros Hf Hb Hnf Hnb Hsum. destruct lf as [rf|u], lb as [rb|v]; simpl in *.
  - exists (LNum (rf + rb)). split; [done|]. simpl.
    rewrite (Hnf rf), (Hnb rb) by done. lra.
  - exists (LVec (Rplus rf <$> v)). split; [done|]. simpl.
    apply Forall_fmap, Forall_lookup. intros i a Ha. simpl.
    assert (Hi : (i < b)%nat) by (rewrite <- Hb; by eapply lookup_lt_Some).
    specialize (Hsum i Hi). rewrite Ha in Hsum. simpl in Hsum. lra.
  - exists (LVec ((fun a => a + rb) <$> u)). split; [done|]. simpl.
    apply Forall_fmap, Forall_lookup. intros i a Ha. simpl.
    assert (Hi : (i < b)%nat) by (rewrite <- Hf; by eapply lookup_lt_Some).
    specialize (Hsum i Hi). rewrite Ha in Hsum. simpl in Hsum. lra.
  - exists (LVec (zip_with Rplus u v)). rewrite zip_same_inr by lia.
    split; [done|]. simpl. apply Forall_lookup. intros i a Ha.
    apply lookup_zip_with_Some in Ha as (c & d & -> & Hc & Hd).
    assert (Hi : (i < b)%nat) by (rewrite <- Hf; by eapply lookup_lt_Some).
    specialize (Hsum i Hi). rewrite Hc, Hd in Hsum. simpl in Hsum. lra.
Qed.



End Invertibility.

(** ** Facts about [transfer] *)

Section TransferFacts.

Import Transfer.

Context {Net Val : Type}.
Variable net_transfer : R -> Net -> Net.
Variable Module__init : pyval Net Val -> gmap string (pyval Net Val).
Variable default_of : string -> pyval Net Val.
Variable width_of : pyval Net Val -> pyval Net Val.
Variable layer_of : string -> pyval Net Val.

Local Abbreviation transfer :=
  (transfer Net net_transfer Val Module__init default_of width_of layer_of).
Local Abbreviation new :=
  (new Net Val Module__init default_of width_of layer_of).

Lemma bind_raises {A B} (m : py A) (k : A -> py B) :
  (forall e, m = inl e -> lookup_or_binding e) ->
  (forall a, exists e, k a = inl e /\ lookup_or_binding e) ->
  exists e, (m ≫= k) = inl e /\ lookup_or_binding e.
Proof.
  intros Hm Hk. destruct m as [e|a]; simpl.
  - exists e. split; [done|by apply Hm].
  - apply Hk.
Qed.

Lemma getattr_raises (self : object Net Val) name e :
  getattr Net Val self name = inl e -> lookup_or_binding e.
Proof.
  unfold getattr. destruct (attrs Net Val self !! name); [done|].
  intros [= <-]. by left.
Qed.

Lemma transfer_net_raises scale_factor (v : pyval Net Val) e :
  transfer_net Net net_transfer Val scale_factor v = inl e ->
  lookup_or_binding e.
Proof. destruct v; simpl; try done; intros [= <-]; by left. Qed.

Lemma mask_or_raises (self : object Net Val) mask e :
  mask_or Net Val self mask = inl e -> lookup_or_binding e.
Proof. destruct mask; simpl; try done. apply getattr_raises. Qed.

Lemma new_two_positional cls (a b : pyval Net Val) kwargs :
  new cls [a; b] kwargs = inl TypeError.
Proof. by destruct cls. Qed.

(** C7, for the two spline classes.  Whatever the attributes of the
    object, [transfer] of an [RQSplineList_] or a [MultiRQSplineList_]
    raises: it looks up [self.net0] and [self.net1], which no constructor
    of the file sets (an [AttributeError] on an object without them), and
    it calls the constructor with two positional arguments where the
    signature takes one (a [TypeError] otherwise). *)
Theorem spline_transfer_raises (attrs : gmap string (pyval Net Val))
    (scale_factor : R) (mask : pyval Net Val) :
  (exists e, transfer (mk_object Net Val RQSplineList_ attrs) scale_factor mask
             = inl e /\ lookup_or_binding e) /\
  (exists e, transfer (mk_object Net Val MultiRQSplineList_ attrs)
               scale_factor mask = inl e /\ lookup_or_binding e) /\
  (attrs !! "net0" = None ->
   transfer (mk_object Net Val RQSplineList_ attrs) scale_factor mask
     = inl AttributeError /\
   transfer (mk_object Net Val MultiRQSplineList_ attrs) scale_factor mask
     = inl AttributeError).
Proof.
  split; [|split];
    [unfold Transfer.transfer; cbn [class_of];
     unfold RQSplineList__transfer, MultiRQSplineList__transfer;
     repeat (apply bind_raises;
             [first [apply getattr_raises | apply transfer_net_raises
                    | apply mask_or_raises] | intros ?]);
     cbn [class_of]; eexists;
     (split; [apply new_two_positional | by right]) ..|].
  intros Hnone.
  unfold Transfer.transfer, RQSplineList__transfer,
    MultiRQSplineList__transfer, getattr. cbn [class_of Transfer.attrs].
  by rewrite Hnone.
Qed.

Lemma coupling_attrs_lookup (z a m n : pyval Net Val)
    (base : gmap string (pyval Net Val)) :
  let self := <["zee2sym" := z]> (<["channels_axis" := a]>
                (<["mask" := m]> (<["nets" := n]> base))) in
  self !! "nets" = Some n /\ self !! "mask" = Some m /\
  self !! "label" = base !! "label" /\
  self !! "channels_axis" = Some a /\ self !! "zee2sym" = Some z.
Proof.
  cbv zeta. repeat split.
  - by rewrite !lookup_insert_ne, lookup_insert_eq by done.
  - by rewrite !lookup_insert_ne, lookup_insert_eq by done.
  - by rewrite !lookup_insert_ne by done.
  - by rewrite lookup_insert_ne, lookup_insert_eq by done.
  - by rewrite lookup_insert_eq.
Qed.

Lemma new_coupling cls (fs : list Net) (kwargs : gmap string (pyval Net Val)) :
  cls = ShiftList_ \/ cls = AffineList_ ->
  is_Some (kwargs !! "mask") ->
  (forall name, is_Some (kwargs !! name) ->
                name ∈ ["mask"; "channels_axis"; "zee2sym"; "label"]) ->
  new cls [PNets Net Val fs] kwargs =
  inr (mk_object Net Val cls
         (<["zee2sym" := keyword Net Val default_of kwargs "zee2sym"]>
          (<["channels_axis" :=
               keyword Net Val default_of kwargs "channels_axis"]>
           (<["mask" := keyword Net Val default_of kwargs "mask"]>
            (<["nets" := PNets Net Val fs]>
             (Module__init (keyword Net Val default_of kwargs "label"))))))).
Proof.
  intros Hcls Hmask Hdom.
  assert (Hbind : bind_args Net Val
            ["mask"; "channels_axis"; "zee2sym"; "label"] "mask" false
            [PNets Net Val fs] kwargs = inr (PNets Net Val fs, ∅)).
  { unfold bind_args.
    rewrite bool_decide_eq_true_2 by by apply elem_of_dom.
    assert (Hrest : filter (fun kv : string * pyval Net Val =>
                      kv.1 ∉ ["mask"; "channels_axis"; "zee2sym"; "label"])
                      kwargs = ∅).
    { apply map_empty_filter_2. intros i x Hi Hn. simpl in Hn.
      apply Hn, Hdom. by exists x. }
    rewrite Hrest. by rewrite bool_decide_eq_true_2. }
  unfold Transfer.new.
  destruct Hcls as [-> | ->]; unfold CouplingList__init;
    rewrite Hbind; reflexivity.
Qed.

(** X11.  [transfer] on the shift and affine engines: an engine built by
    the constructor from a list of nets and keywords is transferred to a new
    object of its class, with the nets transferred one by one, in order, and
    the mask, label, axis and symmetry flag it had.  [Module_] is taken to
    keep the label it is given. *)
Lemma coupling_transfer_returns cls (fs : list Net)
    (kwargs : gmap string (pyval Net Val)) (self : object Net Val)
    (scale_factor : R) :
  (forall l, Module__init l !! "label" = Some l) ->
  cls = ShiftList_ \/ cls = AffineList_ ->
  is_Some (kwargs !! "mask") ->
  (forall name, is_Some (kwargs !! name) ->
                name ∈ ["mask"; "channels_axis"; "zee2sym"; "label"]) ->
  new cls [PNets Net Val fs] kwargs = inr self ->
  exists self',
    transfer self scale_factor (PNone Net Val) = inr self' /\
    class_of Net Val self' = cls /\
    attrs Net Val self' !! "nets"
      = Some (PNets Net Val (net_transfer scale_factor <$> fs)) /\
    Forall (fun name => attrs Net Val self' !! name
                        = attrs Net Val self !! name)
           ["mask"; "label"; "channels_axis"; "zee2sym"].
Proof.
  intros Hlabel Hcls Hmask Hdom Hnew.
  rewrite new_coupling in Hnew by done. injection Hnew as <-.
  set (at0 := <["zee2sym" := keyword Net Val default_of kwargs "zee2sym"]>
          (<["channels_axis" :=
               keyword Net Val default_of kwargs "channels_axis"]>
           (<["mask" := keyword Net Val default_of kwargs "mask"]>
            (<["nets" := PNets Net Val fs]>
             (Module__init (keyword Net Val default_of kwargs "label")))))).
  set (kw := <["zee2sym" := keyword Net Val default_of kwargs "zee2sym"]>
             (<["channels_axis" :=
                  keyword Net Val default_of kwargs "channels_axis"]>
              (<["label" := keyword Net Val default_of kwargs "label"]>
               ({["mask" := keyword Net Val default_of kwargs "mask"]}
                : gmap string (pyval Net Val))))).
  assert (Hget : forall name v, at0 !! name = Some v ->
            getattr Net Val (mk_object Net Val cls at0) name = inr v).
  { intros name v Hv. unfold getattr. cbn [attrs]. by rewrite Hv. }
  assert (Htr : transfer (mk_object Net Val cls at0) scale_factor
                  (PNone Net Val)
       = new cls [PNets Net Val (net_transfer scale_factor <$> fs)] kw).
  { unfold Transfer.transfer, CouplingList__transfer, mask_or.
    rewrite (Hget "nets" (PNets Net Val fs))
      by (unfold at0; by simplify_map_eq).
    rewrite (Hget "mask" (keyword Net Val default_of kwargs "mask"))
      by (unfold at0; by simplify_map_eq).
    rewrite (Hget "label" (keyword Net Val default_of kwargs "label"))
      by (unfold at0; rewrite !lookup_insert_ne by done; apply Hlabel).
    rewrite (Hget "channels_axis"
               (keyword Net Val default_of kwargs "channels_axis"))
      by (unfold at0; by simplify_map_eq).
    rewrite (Hget "zee2sym" (keyword Net Val default_of kwargs "zee2sym"))
      by (unfold at0; by simplify_map_eq).
    by destruct Hcls as [-> | ->]. }
  assert (Hk : forall name,
            name ∈ ["mask"; "label"; "channels_axis"; "zee2sym"] ->
            keyword Net Val default_of kw name
            = keyword Net Val default_of kwargs name).
  { intros name Hin. unfold keyword at 1. unfold kw.
    repeat (apply elem_of_cons in Hin as [-> | Hin]);
      [..|by apply elem_of_nil in Hin].
    - by rewrite !lookup_insert_ne, lookup_singleton_eq by done.
    - by rewrite !lookup_insert_ne, lookup_insert_eq by done.
    - by rewrite lookup_insert_ne, lookup_insert_eq by done.
    - by rewrite lookup_insert_eq. }
  assert (Hkmask : is_Some (kw !! "mask")).
  { unfold kw. rewrite !lookup_insert_ne, lookup_singleton_eq by done.
    by eexists. }
  assert (Hkdom : forall name, is_Some (kw !! name) ->
            name ∈ ["mask"; "channels_axis"; "zee2sym"; "label"]).
  { unfold kw. intros name [v Hv].
    apply lookup_insert_Some in Hv as [[<- _]|[_ Hv]];
      [rewrite !elem_of_cons; auto|].
    apply lookup_insert_Some in Hv as [[<- _]|[_ Hv]];
      [rewrite !elem_of_cons; auto|].
    apply lookup_insert_Some in Hv as [[<- _]|[_ Hv]];
      [rewrite !elem_of_cons; auto|].
    apply lookup_singleton_Some in Hv as [<- _].
    rewrite !elem_of_cons; auto. }
  rewrite Htr, (new_coupling cls _ kw Hcls Hkmask Hkdom).
  eexists. split; [reflexivity|]. cbn [class_of attrs].
  split; [done|].
  rewrite !Hk by (rewrite !elem_of_cons; auto 10).
  destruct (coupling_attrs_lookup
              (keyword Net Val default_of kwargs "zee2sym")
              (keyword Net Val default_of kwargs "channels_axis")
              (keyword Net Val default_of kwargs "mask")
              (PNets Net Val (net_transfer scale_factor <$> fs))
              (Module__init (keyword Net Val default_of kwargs "label")))
    as (Hn1 & Hm1 & Hl1 & Hc1 & Hz1).
  destruct (coupling_attrs_lookup
              (keyword Net Val default_of kwargs "zee2sym")
              (keyword Net Val default_of kwargs "channels_axis")
              (keyword Net Val default_of kwargs "mask")
              (PNets Net Val fs)
              (Module__init (keyword Net Val default_of kwargs "label")))
    as (Hn0 & Hm0 & Hl0 & Hc0 & Hz0).
  split; [exact Hn1|]. unfold at0.
  repeat (apply Forall_cons; split); [..|by apply Forall_nil]; congruence.
Qed.

End TransferFacts.

(** An affine engine of two nets, here numbers that their [transfer] raises
    by one, with a mask and no other keyword. *)
Lemma coupling_transfer_returns_witness :
  exists self self',
    Transfer.new nat nat (fun l => {["label" := l]})
      (fun _ => Transfer.PNone nat nat) (fun w => w) (fun _ => Transfer.PNone nat nat)
      Transfer.AffineList_ [Transfer.PNets nat nat [1; 2]%nat]
      {["mask" := Transfer.PVal nat nat 7%nat]} = inr self /\
    Transfer.transfer nat (fun _ n => S n) nat (fun l => {["label" := l]})
      (fun _ => Transfer.PNone nat nat) (fun w => w) (fun _ => Transfer.PNone nat nat)
      self 1 (Transfer.PNone nat nat) = inr self' /\
    Transfer.class_of nat nat self' = Transfer.AffineList_ /\
    Transfer.attrs nat nat self' !! "nets"
      = Some (Transfer.PNets nat nat [2; 3]%nat).
Proof.
  assert (Hmask : is_Some (({["mask" := Transfer.PVal nat nat 7%nat]}
                            : gmap string (Transfer.pyval nat nat))
                           !! "mask")).
  { rewrite lookup_singleton_eq. by eexists. }
  assert (Hdom : forall name,
    is_Some (({["mask" := Transfer.PVal nat nat 7%nat]}
              : gmap string (Transfer.pyval nat nat)) !! name) ->
    name ∈ ["mask"; "channels_axis"; "zee2sym"; "label"]).
  { intros name [v Hv]. apply lookup_singleton_Some in Hv as [<- _].
    apply elem_of_cons. by left. }
  pose proof (new_coupling (fun l => {["label" := l]})
                (fun _ => Transfer.PNone nat nat) (fun w => w)
                (fun _ => Transfer.PNone nat nat)
                Transfer.AffineList_ [1; 2]%nat _
                (or_intror eq_refl) Hmask Hdom) as Hnew.
  destruct (coupling_transfer_returns (fun _ n => S n)
              (fun l => {["label" := l]})
              (fun _ => Transfer.PNone nat nat) (fun w => w)
              (fun _ => Transfer.PNone nat nat)
              Transfer.AffineList_ [1; 2]%nat _ _ 1
              (fun l => lookup_singleton_eq _ _)
              (or_intror eq_refl) Hmask Hdom Hnew)
    as (self' & Htr & Hc & Hn & _).
  eexists _, self'. split; [exact Hnew|]. split; [exact Htr|].
  split; [exact Hc|exact Hn].
Defined.

(** ** Facts about the controlled engines *)

Section ControlFacts.

Import Couplings.
Open Scope R_scope.

Context {G : Type}.

Lemma layer_without_control (self : t) (f : net) (st : state) :
  layer self (atomic_backward self) (Some None) 0 f st = inl AttributeError.
Proof.
  destruct st as [x l]. unfold layer, atomic_backward.
  by destruct (cls self).
Qed.

Lemma backward_loop_without_control (self : t) (st : state) :
  nets self <> [] ->
  exists e, backward_loop self (Some None) st = inl e /\
    (forall st',
       for_each (fun k st => f ← index (nets self) k;
                   layer self (atomic_backward self) (Some None) k f st)
                (reverse (seq 1 (length (nets self) - 1))) st = inr st' ->
       e = AttributeError).
Proof.
  intros Hne. unfold backward_loop.
  destruct (nets self) as [|f fs] eqn:Hfs; [done|].
  cbn [length seq]. rewrite reverse_cons, for_each_app.
  replace (S (length fs) - 1)%nat with (length fs) by lia.
  destruct (for_each _ (reverse (seq 1 (length fs))) st) as [e|st'].
  - exists e. split; [done|]. intros st' [=].
  - exists AttributeError. split; [|done]. cbn [mbind py_bind for_each].
    cbn [index lookup list_lookup]. simpl.
    by rewrite layer_without_control.
Qed.

(** C8, as the code has it.  [backward] on a generated-control engine makes
    no check of its state: before any [forward] it runs the controlled
    backward pass with [None] for the control.  Without layers that returns
    the input, put through [split] and [cat]; with layers it raises, and
    what it raises is the [AttributeError] of [None.unsqueeze] at layer [0]
    whenever the split and the layers above [0] return.  After a [forward]
    the object holds the control which that call generated, and [backward]
    runs the controlled backward pass with exactly it. *)
Theorem cntr_backward_control (self : t)
    (gen : nat -> G -> tensor R * G) (y : tensor R) (log0 : logval) :
  (nets self = [] ->
     cntr_backward (cntr_init self gen) y log0 =
     (x ← Mask.split (mask self) y;
      y' ← Mask.cat (mask self) x.1 x.2;
      mret (y', log0))) /\
  (nets self <> [] ->
     exists e, cntr_backward (cntr_init self gen) y log0 = inl e /\
       (forall x st',
          Mask.split (mask self) y = inr x ->
          for_each (fun k st => f ← index (nets self) k;
                      layer self (atomic_backward self) (Some None) k f st)
                   (reverse (seq 1 (length (nets self) - 1))) (x, log0)
            = inr st' ->
          e = AttributeError)) /\
  (forall (c : cntr G) (g : G) (x : tensor R),
     let '(c', _, _) := cntr_forward c g x log0 in
     control c' = Some (control_generator c (length x) g).1 /\
     engine c' = engine c /\
     forall y' log0',
       cntr_backward c' y' log0' =
       ('(x', _, l) ← direct_backward (engine c)
                        (y', Some (control_generator c (length x) g).1) log0';
        mret (x', l))).
Proof.
  split; [|split].
  - intros Hn. unfold cntr_backward, cntr_init, direct_backward.
    cbn [engine control]. unfold backward_loop. rewrite Hn. simpl.
    destruct (Mask.split (mask self) y) as [e|[x0 x1]]; [done|]. simpl.
    by destruct (Mask.cat (mask self) x0 x1).
  - intros Hne. unfold cntr_backward, cntr_init, direct_backward.
    cbn [engine control].
    destruct (Mask.split (mask self) y) as [e|x] eqn:Hsplit.
    + exists e. split; [done|]. intros x st' [=].
    + destruct (backward_loop_without_control self (x, log0) Hne)
        as (e & He & Hattr).
      exists e. cbn [mbind py_bind]. rewrite He. split; [done|].
      intros x' st' [= <-]. apply Hattr.
  - intros c g x. unfold cntr_forward.
    destruct (control_generator c (length x) g) as [ctl g'] eqn:Hgen.
    cbn [fst snd control engine]. done.
Qed.

(** C8, as the claim words it, fails on an engine without layers: before
    any [forward], [backward] returns. *)
Lemma cntr_backward_returns :
  cntr_backward (cntr_init example_engine_empty example_generator)
    [[1; 2]] (LNum 0) = inr ([[1; 2]], LNum 0).
Proof. reflexivity. Qed.

(** With the two affine layers of the example engine, what [backward]
    raises before any [forward] is the [AttributeError] of the missing
    control. *)
Lemma cntr_backward_attribute_error :
  cntr_backward (cntr_init example_engine example_generator)
    [[1; 2]] (LNum 0) = inl AttributeError.
Proof. reflexivity. Qed.

End ControlFacts.

(** ** More about [Mask]: [purify], the parity, the sizes of the halves *)

Section MaskMore.

Import Couplings.
Open Scope Z_scope.

Lemma purify_row_fixed (m : Mask.t) c (r : list R) :
  Mask.binary (Mask.mask m) -> c = 0%nat \/ c = 1%nat ->
  channel_row m c r -> purify_row m c r = r.
Proof.
  unfold channel_row, purify_row.
  destruct (Mask.keepshape m); [|done].
  intros Hb Hc Hr.
  induction Hr as [|z a mk r Ha _ IH]; [by destruct (c =? 0)%nat|].
  apply Forall_cons in Hb as [Hz Hb]. specialize (IH Hb).
  destruct Hc as [-> | ->]; cbn [Nat.eqb] in *;
    unfold Mask.mrow, Mask.one_minus in *;
    cbn [zip_with fmap list_fmap]; cbn [fmap] in IH; rewrite IH; f_equal;
    destruct Hz as [-> | ->].
  - rewrite one_minus_0. lra.
  - rewrite one_minus_1, Ha by done. lra.
  - rewrite Ha by done. lra.
  - lra.
Qed.

(** X1.  [purify(x, channel)] with [zero2one=False], on a tensor of the shape
    of a channel tensor: it returns a tensor of that channel with the rows
    of [x]; purifying again changes nothing; and a tensor that is already
    of the channel (an output of [split], of a coupling layer) is returned
    as it is. *)
Theorem purify_keeps_channel (shape : list nat) (parity : Z) (ks : bool)
    (form : Mask.split_form) (self : Mask.t) (c : nat) (x : tensor R) :
  parity = 0 \/ parity = 1 ->
  Mask.init shape parity ks form = inr self ->
  c = 0%nat \/ c = 1%nat ->
  Forall (fun r => length r = row_length self c) x ->
  exists p,
    Mask.purify self x c false = inr p /\
    Mask.in_channel self c p /\ length p = length x /\
    Mask.purify self p c false = inr p /\
    (Mask.in_channel self c x -> p = x).
Proof.
  intros Hp Hinit Hc Hx.
  destruct (init_facts _ _ _ _ _ Hp Hinit) as (Hbin & _).
  assert (Hrows : Forall (channel_row self c) (purify_row self c <$> x)).
  { apply Forall_fmap. eapply Forall_impl; [exact Hx|]. simpl.
    intros r Hr. by apply purify_row_channel. }
  exists (purify_row self c <$> x).
  split; [by apply (purify_inr self c (length x))|].
  split; [by apply in_channel_rows|]. split; [by rewrite length_fmap|].
  split.
  - rewrite (purify_inr self c (length x)).
    + f_equal. rewrite <- list_fmap_compose.
      apply Forall_fmap_ext_1. eapply Forall_impl; [exact Hx|]. simpl.
      intros r Hr. apply purify_row_fixed; [done..|].
      by apply purify_row_channel.
    + by apply channel_rows_shaped; [|rewrite length_fmap].
  - intros Hin. apply in_channel_rows in Hin.
    rewrite <- (list_fmap_id x) at 2.
    apply Forall_fmap_ext_1. eapply Forall_impl; [exact Hin|]. simpl.
    intros r Hr. by apply purify_row_fixed.
Qed.

(** A checkerboard of four sites, a tensor with an entry off the channel. *)
Lemma purify_keeps_channel_witness :
  exists p,
    Mask.purify (Mask.mk [0; 1; 1; 0] None [2; 2]%nat true) [[1; 2; 3; 4]%R] 0 false
      = inr p /\
    Mask.purify (Mask.mk [0; 1; 1; 0] None [2; 2]%nat true) p 0 false = inr p.
Proof.
  destruct (purify_keeps_channel [2; 2]%nat 0 true Mask.even_odd
              (Mask.mk [0; 1; 1; 0] None [2; 2]%nat true) 0 [[1; 2; 3; 4]%R])
    as (p & Hp & _ & _ & Hpp & _).
  - by left.
  - reflexivity.
  - by left.
  - repeat constructor.
  - by exists p.
Defined.

Lemma zero2one_row (m : list Z) (c : Z) (r : list R) :
  Mask.binary m -> c = 0 \/ c = 1 -> length r = length m ->
  zip_with (fun z a => (a + IZR z)%R)
    (if c =? 0 then m else Mask.one_minus m)
    (zip_with (fun z a => (IZR z * a)%R)
       (if c =? 0 then Mask.one_minus m else m) r)
  = zip_with (fun z a => if z =? c then a else 1%R) m r.
Proof.
  intros Hb Hc. revert r.
  induction Hb as [|z m Hz _ IH]; intros [|a r] Hr; try done.
  { by destruct (c =? 0). }
  injection Hr as Hr. specialize (IH r Hr).
  destruct Hc as [-> | ->]; cbn [Z.eqb] in *; unfold Mask.one_minus in *;
    cbn [zip_with fmap list_fmap]; cbn [fmap] in IH; rewrite IH; f_equal;
    destruct Hz as [-> | ->]; rewrite ?one_minus_0, ?one_minus_1;
    cbn [Z.eqb Pos.eqb]; lra.
Qed.

(** X2.  [purify(x, channel, zero2one=True)]: in the same-shape mode the
    entries on the channel are kept and every entry off the channel
    becomes one; in the reshaped mode the tensor is returned as it is. *)
Theorem purify_zero2one (shape : list nat) (parity : Z) (ks : bool)
    (form : Mask.split_form) (self : Mask.t) (c : nat) (x : tensor R) :
  parity = 0 \/ parity = 1 ->
  Mask.init shape parity ks form = inr self ->
  c = 0%nat \/ c = 1%nat ->
  Forall (fun r => length r = row_length self c) x ->
  Mask.purify self x c true
  = inr (if ks
         then (fun r => zip_with (fun z a => if z =? Z.of_nat c then a else 1%R)
                          (Mask.mask self) r) <$> x
         else x).
Proof.
  intros Hp Hinit Hc Hx.
  destruct (init_facts _ _ _ _ _ Hp Hinit) as (Hbin & _ & _ & Hks & _).
  unfold Mask.purify, row_length in *. rewrite Hks in *.
  destruct ks; [|done].
  unfold Mask._sameshape_purify. cbn [negb].
  assert (Hrow : forall r, length r = length (Mask.mask self) ->
    (q ← zip_same (fun z a => (IZR z * a)%R)
           (if Z.of_nat c =? 0 then Mask.one_minus (Mask.mask self)
            else Mask.mask self) r;
     zip_same (fun z a => (a + IZR z)%R)
       (if Z.of_nat c =? 0 then Mask.mask self
        else Mask.one_minus (Mask.mask self)) q)
    = inr (zip_with (fun z a => if z =? Z.of_nat c then a else 1%R)
             (Mask.mask self) r)).
  { intros r Hr.
    rewrite zip_same_inr
      by (destruct (Z.of_nat c =? 0); by rewrite ?one_minus_length).
    cbn [mbind py_bind].
    rewrite zip_same_inr.
    - f_equal. apply zero2one_row; [done|lia|done].
    - rewrite length_zip_with.
      destruct (Z.of_nat c =? 0); rewrite ?one_minus_length; lia. }
  destruct Hc as [-> | ->]; cbn [Nat.eqb Z.of_nat Z.eqb] in *;
    unfold Mask.mask_mul_add; apply rowsM_inr;
    (eapply Forall_impl; [exact Hx|]); intros r Hr; by apply Hrow.
Qed.

(** The checkerboard of four sites again. *)
Lemma purify_zero2one_witness :
  Mask.purify (Mask.mk [0; 1; 1; 0] None [2; 2]%nat true)
    [[5; 6; 7; 8]%R] 0 true
  = inr [[5; 1; 1; 8]%R].
Proof.
  apply (purify_zero2one [2; 2]%nat 0 true Mask.even_odd
           (Mask.mk [0; 1; 1; 0] None [2; 2]%nat true) 0 [[5; 6; 7; 8]%R]).
  - by left.
  - reflexivity.
  - by left.
  - repeat constructor.
Defined.

(** *** The other parity *)

Lemma evenodd_flip shape parity :
  parity = 0 \/ parity = 1 ->
  Mask.evenodd shape (1 - parity) = Mask.one_minus (Mask.evenodd shape parity).
Proof.
  intros Hp. unfold Mask.evenodd, Mask.one_minus.
  rewrite <- list_fmap_compose. apply list_fmap_ext. intros _ ind _. simpl.
  unfold Mask.to_uint8.
  pose proof (Z.mod_pos_bound (Mask.sum ind) 2 ltac:(lia)) as Hs.
  assert (Hcase : Mask.sum ind mod 2 = 0 \/ Mask.sum ind mod 2 = 1) by lia.
  rewrite (Zplus_mod (Mask.sum ind) (1 - parity)),
    (Zplus_mod (Mask.sum ind) parity).
  destruct Hp as [-> | ->], Hcase as [-> | ->]; reflexivity.
Qed.

Lemma one_minus_lines (k n l : nat) (a b : Z) :
  Mask.one_minus (concat (replicate k (replicate n a ++ replicate l b)))
  = concat (replicate k (replicate n (Mask.to_uint8 (1 - a))
                         ++ replicate l (Mask.to_uint8 (1 - b)))).
Proof.
  unfold Mask.one_minus. induction k as [|k IH]; [done|].
  cbn [replicate concat]. rewrite fmap_app, IH, fmap_app, !fmap_replicate.
  done.
Qed.

Lemma get_mask_flip shape parity form m :
  parity = 0 \/ parity = 1 ->
  Mask.get_mask shape parity form = inr m ->
  Mask.get_mask shape (1 - parity) form = inr (Mask.one_minus m).
Proof.
  intros Hp. destruct form; cbn [Mask.get_mask].
  - intros [= <-]. by rewrite evenodd_flip.
  - unfold Mask.halfhalf. destruct (last shape) as [l|]; [|done].
    intros [= <-]. cbn [mret py_ret]. f_equal. rewrite one_minus_lines.
    by destruct Hp as [-> | ->].
Qed.

Lemma one_minus_one_minus (m : list Z) :
  Mask.binary m -> Mask.one_minus (Mask.one_minus m) = m.
Proof.
  induction 1 as [|z m Hz _ IH]; [done|].
  unfold Mask.one_minus in *. cbn [fmap list_fmap]. cbn [fmap] in IH.
  rewrite IH. by destruct Hz as [-> | ->].
Qed.

Lemma select_one_minus {A} (m : list Z) (v : Z) (r : list A) :
  Mask.binary m -> v = 0 \/ v = 1 ->
  Mask.select (Mask.one_minus m) v r = Mask.select m (1 - v) r.
Proof.
  intros Hb Hv. revert r.
  induction Hb as [|z m Hz _ IH]; intros [|a r]; try done.
  unfold Mask.one_minus in *. cbn [fmap list_fmap Mask.select].
  cbn [fmap] in IH. rewrite IH.
  by destruct Hz as [-> | ->], Hv as [-> | ->].
Qed.



(** *** The sizes of the two halves *)

Lemma select_self_app (m1 m2 : list Z) (v : Z) :
  Mask.select (m1 ++ m2) v (m1 ++ m2)
  = Mask.select m1 v m1 ++ Mask.select m2 v m2.
Proof.
  induction m1 as [|z m1 IH]; [by destruct m2|].
  cbn [app Mask.select]. rewrite IH. by destruct (z =? v).
Qed.

Lemma select_self_replicate (n : nat) (z v : Z) :
  length (Mask.select (replicate n z) v (replicate n z))
  = if z =? v then n else 0%nat.
Proof.
  induction n as [|n IH]; [by destruct (z =? v)|].
  cbn [replicate Mask.select]. destruct (z =? v); simpl; by rewrite ?IH.
Qed.

Lemma select_self_lines (k : nat) (line : list Z) (v : Z) :
  length (Mask.select (concat (replicate k line)) v
            (concat (replicate k line)))
  = (k * length (Mask.select line v line))%nat.
Proof.
  induction k as [|k IH]; [done|]. cbn [replicate concat].
  rewrite select_self_app, length_app, IH. lia.
Qed.

(** X4.  The half-half mask on a lattice whose last axis has [l] sites: the
    channel of the mask's parity holds the first [(1 + l) // 2] sites of
    every line and the other channel the remaining [l // 2], so for an odd
    [l] the two channels differ in size by one site per line. *)
Theorem halfhalf_widths (shape : list nat) (parity : Z) (ks : bool)
    (self : Mask.t) (l : nat) :
  parity = 0 \/ parity = 1 ->
  Mask.init shape parity ks Mask.half_half = inr self ->
  last shape = Some l ->
  Mask.width self (Z.to_nat parity)
    = (Mask.numel (removelast shape) * ((1 + l) `div` 2))%nat /\
  Mask.width self (Z.to_nat (1 - parity))
    = (Mask.numel (removelast shape) * (l `div` 2))%nat.
Proof.
  intros Hp Hinit Hl.
  assert (Hmask : Mask.mask self
    = concat (replicate (Mask.numel (removelast shape))
        (replicate ((1 + l) `div` 2) (Mask.to_uint8 parity)
         ++ replicate (l - (1 + l) `div` 2) (Mask.to_uint8 (1 - parity))))).
  { revert Hinit. unfold Mask.init, Mask.get_mask, Mask.halfhalf.
    rewrite Hl. cbn [mbind py_bind mret py_ret].
    destruct ks; cbn [mbind py_bind mret py_ret]; by intros [= <-]. }
  unfold Mask.width. rewrite Hmask, !select_self_lines.
  rewrite !select_self_app, !length_app, !select_self_replicate.
  assert (Hhalf : (l - (1 + l) `div` 2 = l `div` 2)%nat).
  { pose proof (Nat.div_mod_eq l 2) as H1.
    pose proof (Nat.div_mod_eq (1 + l) 2) as H2.
    pose proof (Nat.mod_upper_bound l 2 ltac:(lia)) as H3.
    pose proof (Nat.mod_upper_bound (1 + l) 2 ltac:(lia)) as H4. lia. }
  rewrite Hhalf.
  destruct Hp as [-> | ->]; cbn [Mask.to_uint8 Z.to_nat Z.of_nat Z.sub];
    vm_compute (Mask.to_uint8 _); vm_compute Z.eqb;
    cbv beta iota; split; f_equal; lia.
Qed.

(** A lattice of two lines of five sites: six and four sites. *)
Lemma halfhalf_widths_witness :
  Mask.width (Mask.mk [0; 0; 0; 1; 1; 0; 0; 0; 1; 1] None [2; 5]%nat true)
    0 = 6%nat /\
  Mask.width (Mask.mk [0; 0; 0; 1; 1; 0; 0; 0; 1; 1] None [2; 5]%nat true)
    1 = 4%nat.
Proof.
  apply (halfhalf_widths [2; 5]%nat 0 true
           (Mask.mk [0; 0; 0; 1; 1; 0; 0; 0; 1; 1] None [2; 5]%nat true) 5).
  - by left.
  - reflexivity.
  - reflexivity.
Defined.


End MaskMore.

(** ** More about the coupling engines: the log-Jacobian as an accumulator,
    nets that answer zero, controls *)

Section LayerSpec.

Import Couplings.
Open Scope R_scope.

Lemma zip_with_plus_zero (ra rt : list R) :
  length rt = length ra -> Forall (fun a => a = 0) rt ->
  zip_with Rplus ra rt = ra.
Proof.
  revert rt. induction ra as [|a ra IH]; intros [|t rt] Hl Hz; try done.
  injection Hl as Hl. apply Forall_cons in Hz as [-> Hz].
  simpl. rewrite IH by done. f_equal. lra.
Qed.

Lemma affine_row_zero (ra rt rs : list R) :
  length rt = length ra -> length rs = length ra ->
  Forall (fun a => a = 0) rt -> Forall (fun a => a = 0) rs ->
  zip_with Rplus rt (zip_with Rmult ra ((fun a => exp (- a)) <$> rs)) = ra.
Proof.
  revert rt rs.
  induction ra as [|a ra IH]; intros [|t rt] [|s rs] Ht Hs Hzt Hzs; try done.
  injection Ht as Ht. injection Hs as Hs.
  apply Forall_cons in Hzt as [-> Hzt]. apply Forall_cons in Hzs as [-> Hzs].
  cbn [fmap list_fmap zip_with]. cbn [fmap] in IH. rewrite IH by done.
  f_equal. rewrite Ropp_0, exp_0. lra.
Qed.

Lemma purify_row_zero (m : Mask.t) c (r : list R) :
  Forall (fun a => a = 0) r -> Forall (fun a => a = 0) (purify_row m c r).
Proof.
  unfold purify_row. destruct (Mask.keepshape m); [|done].
  unfold Mask.mrow. generalize (if (c =? 0)%nat
                                then Mask.one_minus (Mask.mask m)
                                else Mask.mask m).
  intros mk Hr. revert mk.
  induction Hr as [|a r -> _ IH]; intros [|z mk]; simpl; try constructor.
  - lra.
  - apply IH.
Qed.

Lemma sum_density_zero (x : tensor R) :
  all_zero x -> Forall (fun a => a = 0) (sum_density x).
Proof.
  unfold all_zero, sum_density. intros H. apply Forall_fmap.
  eapply Forall_impl; [exact H|]. simpl. intros r Hr.
  induction Hr as [|a r -> _ IH]; simpl; [done|]. rewrite IH. lra.
Qed.

Lemma lookup_zero (v : list R) i :
  Forall (fun a => a = 0) v -> default 0 (v !! i) = 0.
Proof.
  intros H. destruct (v !! i) as [a|] eqn:Ha; [|done].
  by apply (Forall_lookup_1 _ _ _ _ H) in Ha.
Qed.

(** What [atomic_forward] returns: the new active channel does not depend
    on the log-Jacobian it is given, and the log-Jacobian of every sample
    grows by an amount [v] that does not depend on it either.  A shift layer
    adds nothing, and a net that answers zero leaves the channel alone. *)
Lemma atomic_forward_spec (self : t) b p (f : net) (xa xf : tensor R) :
  Mask.binary (Mask.mask (mask self)) -> p = 0%nat \/ p = 1%nat ->
  answer_fits self b p (f xf) ->
  Forall (channel_row (mask self) p) xa -> length xa = b ->
  exists ya v,
    Forall (channel_row (mask self) p) ya /\ length ya = b /\ length v = b /\
    (cls self = ShiftList_ -> Forall (fun a => a = 0) v) /\
    (Forall all_zero (f xf) -> ya = xa /\ Forall (fun a => a = 0) v) /\
    forall l, log_fits b l ->
      exists l',
        atomic_forward self xa (Some xf) p f l = inr (ya, l') /\
        log_fits b l' /\ (forall r, l' = LNum r -> l = LNum r) /\
        forall i, (i < b)%nat ->
          log_at l' i = log_at l i + default 0 (v !! i).
Proof.
  intros Hbin Hp Hans Hxa Hlen.
  set (m := mask self) in *.
  pose proof (channel_rows_shaped m p b xa Hxa Hlen) as Hsa.
  unfold atomic_forward. unfold answer_fits in Hans.
  destruct (cls self) eqn:Hcls.
  - (* shift *)
    destruct Hans as (x_t & Hf & Hst).
    set (ya := purify_row m p <$> zip_with (zip_with Rplus) xa x_t).
    assert (Hsum : shaped b (row_length m p) (zip_with (zip_with Rplus) xa x_t))
      by by apply shaped_zip_with.
    exists ya, (replicate b 0).
    split.
    { apply Forall_fmap. destruct Hsum as [_ Hsum].
      eapply Forall_impl; [exact Hsum|]. simpl. intros r Hr.
      by apply purify_row_channel. }
    split; [unfold ya; rewrite length_fmap; by destruct Hsum|].
    split; [by rewrite length_replicate|].
    split; [intros _; by apply Forall_replicate|].
    split.
    { rewrite Hf. intros Hz. apply Forall_cons in Hz as [Hz _].
      split; [|by apply Forall_replicate].
      unfold ya. rewrite fmap_zip_with.
      destruct Hsa as [Hla Ha]. destruct Hst as [Hlt Ht].
      assert (Hrows : Forall2 (fun ra rt =>
                 (channel_row m p ra /\ length ra = row_length m p) /\
                 (length rt = row_length m p /\ Forall (fun a => a = 0) rt))
                xa x_t).
      { apply Forall2_of_Forall; [lia| |].
        - apply Forall_and. split; done.
        - apply Forall_and. split; done. }
      clear -Hrows Hbin Hp.
      induction Hrows as [|ra rt xa x_t ((Hra & Hla) & (Hlt & Hzt)) _ IH];
        [done|].
      cbn [zip_with]. rewrite IH. f_equal.
      rewrite zip_with_plus_zero by (done || lia).
      by apply purify_row_fixed. }
    intros l Hl. exists l. split.
    { unfold shift_atomic. simpl. rewrite Hf. simpl.
      rewrite (tensor_map2_inr Rplus b (row_length m p)) by done. simpl.
      fold m. by rewrite (purify_inr m p b). }
    split; [done|]. split; [done|]. intros i Hi.
    rewrite lookup_replicate_2 by done. simpl. lra.
  - (* affine *)
    destruct Hans as (x_t & x_s & Hf & Hst & Hss).
    set (t' := purify_row m p <$> x_t).
    set (s' := if zee2sym self
               then tensor_map Rabs (purify_row m p <$> x_s)
               else purify_row m p <$> x_s).
    set (e := tensor_map (fun a => exp (- a)) s').
    set (ya := zip_with (zip_with Rplus) t' (zip_with (zip_with Rmult) xa e)).
    assert (Hst' : shaped b (row_length m p) t').
    { apply (shaped_fmap _ b (row_length m p)); [|done].
      apply purify_row_length. }
    assert (Hss' : shaped b (row_length m p) s').
    { unfold s'. destruct (zee2sym self); [apply shaped_tensor_map|];
        (apply (shaped_fmap _ b (row_length m p)); [|done]);
        apply purify_row_length. }
    assert (Hse : shaped b (row_length m p) e) by by apply shaped_tensor_map.
    assert (Hsm : shaped b (row_length m p) (zip_with (zip_with Rmult) xa e))
      by by apply shaped_zip_with.
    assert (Hsy : shaped b (row_length m p) ya) by by apply shaped_zip_with.
    assert (Hv : length (sum_density s') = b).
    { unfold sum_density. rewrite length_fmap. by destruct Hss'. }
    exists ya, (Ropp <$> sum_density s').
    split.
    { unfold ya. apply Forall_zip_with_rows.
      destruct Hst as [Hlt Ht]. destruct Hsm as [Hlm _].
      assert (Hrows : Forall3 (fun rt ra re =>
                 length rt = row_length m p /\ channel_row m p ra /\
                 length re = row_length m p) x_t xa e).
      { destruct Hse as [Hle He]. destruct Hsa as [Hla _].
        apply Forall3_of_Forall; try done; lia. }
      unfold t'. clear -Hrows Hbin Hp.
      induction Hrows as [|rt ra re x_t xa e (Hrt & Hra & Hre) _ IH];
        [constructor|].
      cbn [fmap list_fmap zip_with]. constructor; [|exact IH].
      apply affine_row_channel; [|done..]. by apply purify_row_channel. }
    split; [by destruct Hsy|]. split; [by rewrite length_fmap|].
    split; [done|].
    split.
    { rewrite Hf. intros Hz. apply Forall_cons in Hz as [Hzt Hz].
      apply Forall_cons in Hz as [Hzs _].
      assert (Hzt' : all_zero t').
      { unfold t', all_zero. apply Forall_fmap.
        eapply Forall_impl; [exact Hzt|]. simpl. apply purify_row_zero. }
      assert (Hzs' : all_zero s').
      { assert (Hpz : all_zero (purify_row m p <$> x_s)).
        { unfold all_zero. apply Forall_fmap.
          eapply Forall_impl; [exact Hzs|]. simpl. apply purify_row_zero. }
        unfold s'. destruct (zee2sym self); [|done].
        unfold all_zero, tensor_map. apply Forall_fmap.
        eapply Forall_impl; [exact Hpz|]. simpl. intros r Hr.
        apply Forall_fmap. eapply Forall_impl; [exact Hr|]. simpl.
        intros a ->. apply Rabs_R0. }
      split.
      - unfold ya, e, tensor_map.
        destruct Hsa as [Hla Ha]. destruct Hst' as [Hlt Ht].
        destruct Hss' as [Hls Hs].
        assert (Hrows : Forall3 (fun ra rt rs =>
                   length ra = row_length m p /\
                   (length rt = row_length m p /\ Forall (fun a => a = 0) rt) /\
                   (length rs = row_length m p /\ Forall (fun a => a = 0) rs))
                  xa t' s').
        { apply Forall3_of_Forall; try done; try lia.
          - apply Forall_and. split; done.
          - apply Forall_and. split; done. }
        clear -Hrows.
        induction Hrows as [|ra rt rs xa t' s' (Hra & (Hrt & Hzt) & (Hrs & Hzs))
                              _ IH]; [done|].
        cbn [fmap list_fmap zip_with]. cbn [fmap] in IH. rewrite IH. f_equal.
        apply affine_row_zero; (done || lia).
      - apply Forall_fmap. eapply Forall_impl;
          [exact (sum_density_zero s' Hzs')|].
        simpl. intros a ->. lra. }
    intros l Hl.
    destruct (log_op_spec Rminus b l (sum_density s') Hl Hv)
      as (w & Hw & Hwl & Hwi).
    exists (LVec w). split.
    { unfold affine_atomic_forward. simpl. rewrite Hf. simpl. fold m.
      rewrite (purify_inr m p b x_t) by done. simpl.
      rewrite (purify_inr m p b x_s) by done. simpl. fold s'. fold e.
      rewrite (tensor_map2_inr Rmult b (row_length m p)) by done. simpl.
      fold t'.
      rewrite (tensor_map2_inr Rplus b (row_length m p)) by done. simpl.
      by rewrite Hw. }
    split; [done|]. split; [done|]. intros i Hi. rewrite (Hwi i Hi).
    rewrite list_lookup_fmap.
    destruct (lookup_lt_is_Some_2 (sum_density s') i) as [a Ha]; [lia|].
    rewrite Ha. simpl. lra.
Qed.

End LayerSpec.

Section LoopSpec.

Import Couplings.
Open Scope R_scope.

Variable self : t.
Variable b : nat.
Hypothesis Hbin : Mask.binary (Mask.mask (mask self)).

(** The nets [fs] answer zero. *)
Local Abbreviation zero_nets fs :=
  (forall k (f : net) x_fz, fs !! k = Some f ->
     shaped b (row_length (mask self) (1 - k `mod` 2)) x_fz ->
     Forall all_zero (f x_fz)).

Lemma lookup_plus (u v : list R) i :
  length u = b -> length v = b -> (i < b)%nat ->
  default 0 (zip_with Rplus u v !! i)
  = default 0 (u !! i) + default 0 (v !! i).
Proof.
  intros Hu Hv Hi. rewrite lookup_zip_with.
  destruct (lookup_lt_is_Some_2 u i) as [a Ha]; [lia|].
  destruct (lookup_lt_is_Some_2 v i) as [c Hc]; [lia|].
  by rewrite Ha, Hc.
Qed.

Lemma layer_spec k (f : net) (x : tensor R * tensor R) :
  net_fits self b k f -> channels (mask self) b x ->
  exists x' v,
    channels (mask self) b x' /\ length v = b /\
    (cls self = ShiftList_ -> Forall (fun a => a = 0) v) /\
    (Forall all_zero (f (item (1 - k `mod` 2) x)) ->
     x' = x /\ Forall (fun a => a = 0) v) /\
    forall l, log_fits b l ->
      exists l',
        layer self (atomic_forward self) None k f (x, l) = inr (x', l') /\
        log_fits b l' /\ (forall r, l' = LNum r -> l = LNum r) /\
        forall i, (i < b)%nat ->
          log_at l' i = log_at l i + default 0 (v !! i).
Proof.
  intros Hnet (H0 & H1 & Hl0 & Hl1). destruct x as [x0 x1].
  cbn [fst snd] in *.
  assert (Hp : (k `mod` 2 = 0 \/ k `mod` 2 = 1)%nat).
  { pose proof (Nat.mod_upper_bound k 2). lia. }
  assert (Hact : Forall (channel_row (mask self) (k `mod` 2))
                   (item (k `mod` 2) (x0, x1)) /\
                 length (item (k `mod` 2) (x0, x1)) = b).
  { unfold item. destruct Hp as [-> | ->]; simpl; done. }
  assert (Hfz : shaped b (row_length (mask self) (1 - k `mod` 2))
                  (item (1 - k `mod` 2) (x0, x1))).
  { unfold item. destruct Hp as [-> | ->]; simpl;
      by apply channel_rows_shaped. }
  destruct Hact as [Hact Hactl].
  destruct (atomic_forward_spec self b (k `mod` 2) f _
              (item (1 - k `mod` 2) (x0, x1)) Hbin Hp (Hnet _ Hfz) Hact Hactl)
    as (ya & v & Hya & Hyal & Hv & Hshift & Hzero & Hrun).
  exists (set_item (k `mod` 2) (x0, x1) ya), v.
  split.
  { unfold channels, set_item. destruct Hp as [Hp | Hp]; rewrite Hp in *;
      simpl; done. }
  split; [done|]. split; [done|].
  split.
  { intros Hz. destruct (Hzero Hz) as [-> Hvz]. split; [|done].
    unfold set_item, item. by destruct (k `mod` 2 =? 0)%nat. }
  intros l Hl. destruct (Hrun l Hl) as (l' & Hfw & Hl' & Hnum & Hsum).
  exists l'. split; [by rewrite layer_eq, Hfw|]. done.
Qed.

Lemma forward_over_spec (fs : list net) :
  (forall k f, fs !! k = Some f -> net_fits self b k f) ->
  forall x : tensor R * tensor R,
    channels (mask self) b x ->
    exists x' v,
      channels (mask self) b x' /\ length v = b /\
      (cls self = ShiftList_ -> Forall (fun a => a = 0) v) /\
      (zero_nets fs -> x' = x /\ Forall (fun a => a = 0) v) /\
      forall l, log_fits b l ->
        exists l',
          forward_over self fs (x, l) = inr (x', l') /\
          log_fits b l' /\ (forall r, l' = LNum r -> l = LNum r) /\
          forall i, (i < b)%nat ->
            log_at l' i = log_at l i + default 0 (v !! i).
Proof.
  induction fs as [|f fs IH] using rev_ind; intros Hnets x Hx.
  - exists x, (replicate b 0). split; [done|].
    split; [by rewrite length_replicate|].
    split; [intros _; by apply Forall_replicate|].
    split; [intros _; split; [done|by apply Forall_replicate]|].
    intros l Hl. exists l. split; [done|]. split; [done|]. split; [done|].
    intros i Hi. rewrite lookup_replicate_2 by done. simpl. lra.
  - destruct (IH (fun k g Hk => Hnets k g (lookup_app_l_Some _ _ _ _ Hk))
                x Hx)
      as (x1 & v1 & Hx1 & Hv1 & Hs1 & Hz1 & Hrun1).
    assert (Hlast : (fs ++ [f]) !! length fs = Some f)
      by (by rewrite lookup_app_r, Nat.sub_diag by lia).
    destruct (layer_spec (length fs) f x1 (Hnets _ _ Hlast) Hx1)
      as (x2 & v2 & Hx2 & Hv2 & Hs2 & Hz2 & Hrun2).
    exists x2, (zip_with Rplus v1 v2). split; [done|].
    split; [rewrite length_zip_with; lia|].
    assert (Hsum0 : Forall (fun a => a = 0) v1 ->
                    Forall (fun a => a = 0) v2 ->
                    Forall (fun a => a = 0) (zip_with Rplus v1 v2)).
    { intros Ha Hb. apply Forall_lookup. intros i a Hi.
      apply lookup_zip_with_Some in Hi as (c & d & -> & Hc & Hd).
      apply (Forall_lookup_1 _ _ _ _ Ha) in Hc.
      apply (Forall_lookup_1 _ _ _ _ Hb) in Hd. lra. }
    split; [intros Hc; by apply Hsum0; auto|].
    split.
    { intros Hz.
      destruct Hz1 as [-> Hz1].
      { intros k g x_fz Hk. apply Hz. by apply lookup_app_l_Some. }
      destruct Hz2 as [-> Hz2].
      { apply (Hz (length fs)); [done|].
        destruct Hx as (H0 & H1 & Hl0 & Hl1).
        assert (Hp : (length fs `mod` 2 = 0 \/ length fs `mod` 2 = 1)%nat).
        { pose proof (Nat.mod_upper_bound (length fs) 2). lia. }
        unfold item. destruct Hp as [-> | ->]; simpl;
          by apply channel_rows_shaped. }
      split; [done|]. by apply Hsum0. }
    intros l Hl.
    destruct (Hrun1 l Hl) as (l1 & Hfw1 & Hl1 & Hn1 & Hsum1).
    destruct (Hrun2 l1 Hl1) as (l2 & Hfw2 & Hl2 & Hn2 & Hsum2).
    exists l2. split; [by rewrite fwd_snoc, Hfw1|].
    split; [done|]. split; [by auto|].
    intros i Hi. rewrite (Hsum2 i Hi), (Hsum1 i Hi), lookup_plus by done. lra.
Qed.

End LoopSpec.

Section EngineSpec.

Import Couplings.
Open Scope R_scope.

Lemma for_each_invariant {K St} (P : St -> Prop) (body : K -> St -> py St)
    (ks : list K) :
  (forall k s s', body k s = inr s' -> P s -> P s') ->
  forall s s', for_each body ks s = inr s' -> P s -> P s'.
Proof.
  intros Hbody. induction ks as [|k ks IH]; intros s s'.
  - by intros [= <-].
  - cbn [for_each]. destruct (body k s) as [e|s1] eqn:Hk; [done|].
    cbn [mbind py_bind]. intros Hrest Hs.
    apply (IH _ _ Hrest). by apply (Hbody k s).
Qed.

Lemma shift_layer_log (self : t) op control k (f : net) (st st' : state) :
  layer self (shift_atomic op self) control k f st = inr st' ->
  st'.2 = st.2.
Proof.
  destruct st as [x l]. unfold layer, shift_atomic.
  destruct (preprocess_fz self _) as [e|x_fz]; [done|]. cbn [mbind py_bind].
  destruct (postprocess self (f x_fz)) as [e|x_t]; [done|].
  cbn [mbind py_bind].
  destruct (tensor_map2 op _ x_t) as [e|y]; [done|]. cbn [mbind py_bind].
  destruct (Mask.purify (mask self) y _ false) as [e|y']; [done|].
  cbn [mbind py_bind mret py_ret]. by intros [= <-].
Qed.



Lemma is_zero_of_entries b (l : logval) :
  log_fits b l -> (forall r, l = LNum r -> r = 0) ->
  (forall i, (i < b)%nat -> log_at l i = 0) -> is_zero l.
Proof.
  destruct l as [r|v]; simpl.
  - intros _ Hn _. by apply Hn.
  - intros Hl _ Hi. apply Forall_lookup. intros i a Ha.
    assert (Hlt : (i < b)%nat) by (rewrite <- Hl; by eapply lookup_lt_Some).
    specialize (Hi i Hlt). rewrite Ha in Hi. done.
Qed.





End EngineSpec.

Section ControlLoops.

Import Couplings.
Open Scope R_scope.

Variable self : t.
Variable b : nat.
Hypothesis Hbin : Mask.binary (Mask.mask (mask self)).
Variable c : tensor R.

(** Layer [0] of a controlled engine hands the control to its net; the
    layers above it run as in an engine without control. *)
Lemma layer_control_0 (forward : bool) (f : net) (st : state) :
  layer self (if forward then atomic_forward self else atomic_backward self)
    (Some (Some c)) 0 f st
  = layer self (if forward then atomic_forward self else atomic_backward self)
      None 0 (fun _ => f c) st.
Proof.
  destruct st as [x l]. unfold atomic_forward, atomic_backward.
  by destruct forward, (cls self).
Qed.

Lemma layer_control_S atomic k (f : net) (st : state) :
  k <> 0%nat ->
  layer self atomic (Some (Some c)) k f st = layer self atomic None k f st.
Proof. intros Hk. destruct st as [x l]. by destruct k. Qed.

Lemma forward_with_snoc (fs : list net) (f : net) (st : state) :
  forward_with self (Some c) (fs ++ [f]) st =
  (st' ← forward_with self (Some c) fs st;
   layer self (atomic_forward self) (Some (Some c)) (length fs) f st').
Proof.
  unfold forward_with, enumerate. rewrite imap_app, for_each_app. simpl.
  destruct (for_each _ _ st) as [e|st']; [done|]. simpl.
  rewrite Nat.add_0_r.
  by destruct (layer self (atomic_forward self) (Some (Some c))
                 (length fs) f st').
Qed.

Lemma backward_with_snoc (fs : list net) (f : net) (st : state) :
  backward_with self (Some c) (fs ++ [f]) st =
  (st' ← layer self (atomic_backward self) (Some (Some c)) (length fs) f st;
   backward_with self (Some c) fs st').
Proof.
  unfold backward_with. rewrite length_app. simpl.
  rewrite Nat.add_1_r, seq_S, reverse_app. simpl.
  rewrite (index_Some (fs ++ [f]) (length fs) f)
    by (by rewrite lookup_app_r, Nat.sub_diag by lia).
  simpl.
  destruct (layer self (atomic_backward self) (Some (Some c)) (length fs) f st)
    as [e|st']; [done|]. simpl.
  apply for_each_ext. apply Forall_forall. intros k Hk s.
  apply elem_of_reverse, elem_of_seq in Hk.
  unfold index. by rewrite lookup_app_l by lia.
Qed.

(** The nets fit a controlled engine: the net of layer [0] answers the
    control, the others the frozen channel. *)
Local Abbreviation nets_fit fs :=
  ((forall f : net, fs !! 0%nat = Some f -> answer_fits self b 0 (f c)) /\
   (forall k (f : net), k <> 0%nat -> fs !! k = Some f -> net_fits self b k f)).

Lemma layer_control_undo k (f : net) (x : tensor R * tensor R) (l : logval) :
  (k = 0%nat -> answer_fits self b 0 (f c)) ->
  (k <> 0%nat -> net_fits self b k f) ->
  channels (mask self) b x -> log_fits b l ->
  exists x' l',
    layer self (atomic_forward self) (Some (Some c)) k f (x, l)
      = inr (x', l') /\
    channels (mask self) b x' /\ log_fits b l' /\
    (forall r, l' = LNum r -> l = LNum r) /\
    forall lb, log_fits b lb ->
      exists lb',
        layer self (atomic_backward self) (Some (Some c)) k f (x', lb)
          = inr (x, lb') /\
        log_fits b lb' /\ (forall r, lb' = LNum r -> lb = LNum r) /\
        forall i, (i < b)%nat ->
          log_at l' i + log_at lb' i = log_at l i + log_at lb i.
Proof.
  intros H0 HS Hx Hl. destruct (decide (k = 0%nat)) as [-> | Hk].
  - assert (Hnet : net_fits self b 0 (fun _ => f c)).
    { intros x_fz _. by apply H0. }
    destruct (layer_undo self b Hbin 0 _ x l Hnet Hx Hl)
      as (x' & l' & Hfw & Hx' & Hl' & Hn & Hback).
    exists x', l'. split; [by rewrite (layer_control_0 true)|].
    split; [done|]. split; [done|]. split; [done|].
    intros lb Hlb. destruct (Hback lb Hlb) as (lb' & Hbw & Hrest).
    exists lb'. split; [by rewrite (layer_control_0 false)|done].
  - destruct (layer_undo self b Hbin k f x l (HS Hk) Hx Hl)
      as (x' & l' & Hfw & Hx' & Hl' & Hn & Hback).
    exists x', l'. split; [by rewrite layer_control_S|].
    split; [done|]. split; [done|]. split; [done|].
    intros lb Hlb. destruct (Hback lb Hlb) as (lb' & Hbw & Hrest).
    exists lb'. split; [by rewrite layer_control_S|done].
Qed.

Lemma loops_control_undo (fs : list net) :
  nets_fit fs ->
  forall (x : tensor R * tensor R) (l : logval),
    channels (mask self) b x -> log_fits b l ->
    exists x' l',
      forward_with self (Some c) fs (x, l) = inr (x', l') /\
      channels (mask self) b x' /\ log_fits b l' /\
      (forall r, l' = LNum r -> l = LNum r) /\
      forall lb, log_fits b lb ->
        exists lb',
          backward_with self (Some c) fs (x', lb) = inr (x, lb') /\
          log_fits b lb' /\ (forall r, lb' = LNum r -> lb = LNum r) /\
          forall i, (i < b)%nat ->
            log_at l' i + log_at lb' i = log_at l i + log_at lb i.
Proof.
  induction fs as [|f fs IH] using rev_ind; intros [Hn0 HnS] x l Hx Hl.
  - exists x, l. split; [done|]. split; [done|]. split; [done|].
    split; [done|]. intros lb Hlb. exists lb. by repeat split.
  - destruct (IH (conj (fun g Hg => Hn0 g (lookup_app_l_Some _ _ _ _ Hg))
                       (fun k g Hk Hg =>
                          HnS k g Hk (lookup_app_l_Some _ _ _ _ Hg)))
                x l Hx Hl)
      as (x1 & l1 & Hfw1 & Hx1 & Hl1 & Hn1 & Hb1).
    assert (Hlast : (fs ++ [f]) !! length fs = Some f)
      by (by rewrite lookup_app_r, Nat.sub_diag by lia).
    destruct (layer_control_undo (length fs) f x1 l1) as
      (x2 & l2 & Hfw2 & Hx2 & Hl2 & Hn2 & Hb2); [| |done|done|].
    { intros Hk. apply Hn0. by rewrite <- Hk. }
    { intros Hk. by apply HnS. }
    exists x2, l2. split; [by rewrite forward_with_snoc, Hfw1|].
    split; [done|]. split; [done|]. split; [by auto|].
    intros lb Hlb.
    destruct (Hb2 lb Hlb) as (lb1 & Hbw2 & Hlb1 & Hnb1 & Hs1).
    destruct (Hb1 lb1 Hlb1) as (lb2 & Hbw1 & Hlb2 & Hnb2 & Hs2).
    exists lb2. split; [by rewrite backward_with_snoc, Hbw2|].
    split; [done|]. split; [by auto|].
    intros i Hi. specialize (Hs1 i Hi). specialize (Hs2 i Hi). lra.
Qed.

End ControlLoops.

Section ControlledEngines.

Import Couplings.
Open Scope R_scope.

Lemma direct_undo (shape : list nat) (parity : Z)
    (ks : bool) (form : Mask.split_form) (m : Mask.t) (k : kind)
    (fs : list net) (axis : Z) (z2 : bool) (lbl : string)
    (x c : tensor R) :
  (parity = 0 \/ parity = 1)%Z ->
  Mask.init shape parity ks form = inr m ->
  Mask.fits m x ->
  (forall f, fs !! 0%nat = Some f ->
             answer_fits (mk k fs m axis z2 lbl) (length x) 0 (f c)) ->
  (forall i f, i <> 0%nat -> fs !! i = Some f ->
               net_fits (mk k fs m axis z2 lbl) (length x) i f) ->
  exists y logJ logJ' l,
    direct_forward (mk k fs m axis z2 lbl) (x, Some c) (LNum 0)
      = inr (y, Some c, logJ) /\
    direct_backward (mk k fs m axis z2 lbl) (y, Some c) (LNum 0)
      = inr (x, Some c, logJ') /\
    log_plus logJ logJ' = inr l /\ is_zero l.
Proof.
  intros Hp Hinit Hfits Hn0 HnS.
  set (self := mk k fs m axis z2 lbl) in *.
  destruct (init_facts _ _ _ _ _ Hp Hinit) as (Hbin & _).
  destruct (split_cat_facts _ _ _ _ _ x Hp Hinit Hfits)
    as (x0 & x1 & Hsplit & Hcat & Hc0 & Hc1 & Hl0 & Hl1 & _ & Hconv).
  assert (Hch : channels m (length x) (x0, x1)).
  { split; [by apply in_channel_rows|]. split; [by apply in_channel_rows|].
    done. }
  destruct (loops_control_undo self (length x) Hbin c fs (conj Hn0 HnS)
              (x0, x1) (LNum 0) Hch I)
    as ([y0 y1] & lf & Hfw & (Hy0 & Hy1 & Hyl0 & Hyl1) & Hlf & Hnf & Hback).
  destruct (Hback (LNum 0) I) as (lb & Hbw & Hlb & Hnb & Hsum).
  simpl in Hy0, Hy1, Hyl0, Hyl1.
  destruct (Hconv y0 y1) as (y & Hycat & Hyfits & Hysplit);
    [by apply in_channel_rows | by apply in_channel_rows | lia |].
  destruct (log_plus_zero (length x) lf lb) as (l & Hl & Hz); try done.
  { intros r Hr. specialize (Hnf r Hr). by injection Hnf as <-. }
  { intros r Hr. specialize (Hnb r Hr). by injection Hnb as <-. }
  { intros i Hi. rewrite (Hsum i Hi). simpl. lra. }
  exists y, lf, lb, l. split; [|split; [|done]].
  - unfold direct_forward. change (mask self) with m. rewrite Hsplit.
    cbn [mbind py_bind]. unfold forward_loop.
    change (for_each _ (enumerate (nets self)) (x0, x1, LNum 0))
      with (forward_with self (Some c) fs (x0, x1, LNum 0)).
    rewrite Hfw. cbn [mbind py_bind fst snd]. by rewrite Hycat.
  - unfold direct_backward. change (mask self) with m. rewrite Hysplit.
    cbn [mbind py_bind]. unfold backward_loop.
    change (for_each _ (reverse (seq 0 (length (nets self)))) (y0, y1, LNum 0))
      with (backward_with self (Some c) fs (y0, y1, LNum 0)).
    rewrite Hbw. cbn [mbind py_bind fst snd]. by rewrite Hcat.
Qed.





End ControlledEngines.

(** ** More about the Metropolis step: what a status depends on, the chain
    within a batch and from batch to batch, the calls that raise *)

Section ChainFacts.

Import Metropolis MCMCSampler.
Open Scope float_scope.

Lemma running_reference_prefix (rand_arr rand_arr' : nat -> float)
    (logqp : list float) (ref0 : float) (k i : nat) :
  (forall j, (j < k)%nat -> rand_arr' j = rand_arr j) ->
  (i <= k)%nat ->
  running_reference rand_arr' (take k logqp) ref0 i
  = running_reference rand_arr logqp ref0 i.
Proof.
  intros Hrand. induction i as [|i IH]; intros Hi; [done|].
  cbn [running_reference]. rewrite IH by lia.
  rewrite lookup_take_lt by lia. rewrite Hrand by lia. done.
Qed.

Lemma accepted_at_prefix (rand_arr rand_arr' : nat -> float)
    (logqp : list float) (ref0 : float) (k i : nat) :
  (forall j, (j < k)%nat -> rand_arr' j = rand_arr j) ->
  (i < k)%nat ->
  accepted_at rand_arr' (take k logqp) ref0 i
  = accepted_at rand_arr logqp ref0 i.
Proof.
  intros Hrand Hi. unfold accepted_at.
  rewrite lookup_take_lt by lia.
  rewrite (running_reference_prefix rand_arr rand_arr') by (done || lia).
  by rewrite Hrand by lia.
Qed.

(** X12.  A status depends on what comes before it only: the statuses of the
    first [k] proposals of a batch are the statuses of these [k] proposals
    judged alone, against the same reference and with the same first [k]
    draws; the later proposals and draws have no part in them. *)
Theorem calc_accept_status_prefix (rand_arr rand_arr' : nat -> float)
    (logqp : list float) (logqp_ref : option float) (k : nat)
    (status : list bool) :
  calc_accept_status rand_arr logqp logqp_ref = inr status ->
  (forall j, (j < k)%nat -> rand_arr' j = rand_arr j) ->
  (0 < k)%nat \/ is_Some logqp_ref ->
  calc_accept_status rand_arr' (take k logqp) logqp_ref
  = inr (take k status).
Proof.
  intros Hs Hrand Hk.
  destruct (initial_reference logqp logqp_ref) as [r0|] eqn:Hr0.
  2:{ exfalso. revert Hs. unfold calc_accept_status.
      destruct logqp_ref as [r|]; [done|]. simpl in Hr0.
      unfold index. by rewrite Hr0. }
  rewrite (calc_accept_status_inr rand_arr logqp logqp_ref r0 Hr0) in Hs.
  injection Hs as <-.
  rewrite (calc_accept_status_inr rand_arr' (take k logqp) logqp_ref r0).
  2:{ unfold initial_reference in *. destruct logqp_ref as [r|]; [done|].
      destruct Hk as [Hk|[? ?]]; [|done]. by rewrite lookup_take_lt by lia. }
  f_equal. unfold status_upto.
  rewrite <- fmap_take, take_seq, length_take.
  apply list_fmap_ext. intros j i Hi.
  apply lookup_seq in Hi as [-> Hi]. simpl.
  by rewrite (accepted_at_prefix rand_arr rand_arr') by (done || lia).
Qed.

(** The example of C5, cut after two proposals. *)
Lemma calc_accept_status_prefix_witness :
  calc_accept_status example_log_u (take 2 example_logqp) None
  = inr (take 2 [true; true; false; true]).
Proof.
  apply (calc_accept_status_prefix example_log_u example_log_u
           example_logqp None 2 [true; true; false; true]).
  - reflexivity.
  - reflexivity.
  - left. lia.
Defined.

(** What one call of [_accept_reject_step] returns, with the new dictionary
    spelled out. *)
Lemma step_returns {Sample : Type} (rand_arr : nat -> float)
    (ref : ref_dict Sample) (y : list Sample) (logq logp : list float) :
  (0 < length y)%nat ->
  length logq = length y ->
  length logp = length y ->
  (populated ref \/
   exists ref0,
     initial_reference (zip_with PrimFloat.sub logq logp) (ref_logqp ref)
       = Some ref0 /\
     accepted_at rand_arr (zip_with PrimFloat.sub logq logp) ref0 0
       = Some true) ->
  exists accept_seq y' logq' logp' yl ql pl,
    calc_accept_status rand_arr (zip_with PrimFloat.sub logq logp)
      (ref_logqp ref) = inr accept_seq /\
    length accept_seq = length y /\
    _accept_reject_step rand_arr ref y logq logp
      = inr (mk_ref (Some yl) (Some ql) (Some pl) (Some (ql - pl)),
             (y', logq', logp')) /\
    (length y' = length y /\ length logq' = length y /\
     length logp' = length y) /\
    (forall i, (i < length y)%nat ->
       y' !! i = emitted accept_seq (ref_sample ref) y i /\
       logq' !! i = emitted accept_seq (ref_logq ref) logq i /\
       logp' !! i = emitted accept_seq (ref_logp ref) logp i) /\
    last y' = Some yl /\ last logq' = Some ql /\ last logp' = Some pl.
Proof.
  intros Hn Hq Hp Href.
  set (logqp := zip_with PrimFloat.sub logq logp) in *.
  assert (Hlq : length logqp = length y).
  { unfold logqp. rewrite length_zip_with. lia. }
  assert (Hr0 : exists r0, initial_reference logqp (ref_logqp ref) = Some r0).
  { unfold initial_reference. destruct (ref_logqp ref) as [r|]; [by exists r|].
    apply lookup_lt_is_Some_2. lia. }
  destruct Hr0 as [r0 Hr0].
  set (accept_seq := status_upto rand_arr logqp r0 (length logqp)).
  assert (Hstatus : calc_accept_status rand_arr logqp (ref_logqp ref)
                    = inr accept_seq) by by apply calc_accept_status_inr.
  assert (Hal : length accept_seq = length y).
  { unfold accept_seq, status_upto. by rewrite length_fmap, length_seq. }
  destruct (lookup_lt_is_Some_2 accept_seq 0%nat) as [a0 Ha0]; [lia|].
  assert (Hfix : forall {A} (t : list A) (v : option A),
             length t = length y -> (a0 = false -> is_Some v) ->
             exists t', (if a0 then mret t else setitem_0 t v) = inr t').
  { intros A t v Ht Hv. destruct a0; [by exists t|].
    destruct (Hv eq_refl) as [a ->]. exists (<[0%nat := a]> t).
    unfold setitem_0. by rewrite (proj2 (Nat.ltb_lt _ _)) by lia. }
  assert (Hpop : a0 = false -> populated ref).
  { intros ->. destruct Href as [Hpop|(r0' & Hr0' & Hacc)]; [done|].
    rewrite Hr0 in Hr0'. injection Hr0' as <-.
    unfold accept_seq in Ha0. rewrite status_upto_lookup in Ha0. congruence. }
  destruct (Hfix _ y (ref_sample ref)) as [yc Hyc];
    [done | intros E; apply (Hpop E) |].
  destruct (Hfix _ logq (ref_logq ref)) as [qc Hqc];
    [done | intros E; apply (Hpop E) |].
  destruct (Hfix _ logp (ref_logp ref)) as [pc Hpc];
    [done | intros E; apply (Hpop E) |].
  destruct (gather_emitted accept_seq y (ref_sample ref) a0 yc)
    as (y' & Hy' & Hyl & Hye); [lia | done | done |].
  destruct (gather_emitted accept_seq logq (ref_logq ref) a0 qc)
    as (q' & Hq' & Hql & Hqe); [lia | done | done |].
  destruct (gather_emitted accept_seq logp (ref_logp ref) a0 pc)
    as (p' & Hp' & Hpl & Hpe); [lia | done | done |].
  destruct (last_nonempty y') as [yl Hyl']; [lia|].
  destruct (last_nonempty q') as [ql Hql']; [lia|].
  destruct (last_nonempty p') as [pl Hpl']; [lia|].
  exists accept_seq, y', q', p', yl, ql, pl.
  split; [done|]. split; [done|]. split.
  { unfold _accept_reject_step, tensor_sub.
    rewrite Hq, Hp, Nat.eqb_refl. simpl. fold logqp. rewrite Hstatus. simpl.
    rewrite (index_Some _ _ _ Ha0). simpl.
    assert (Hc : ((if a0
              then mret (y, logq, logp)
              else y0 ← setitem_0 y (ref_sample ref);
                   logq0 ← setitem_0 logq (ref_logq ref);
                   logp0 ← setitem_0 logp (ref_logp ref);
                   mret (y0, logq0, logp0))
            : py (list Sample * list float * list float))
            = inr (yc, qc, pc)).
    { destruct a0.
      - by injection Hyc as <-; injection Hqc as <-; injection Hpc as <-.
      - by rewrite Hyc, Hqc, Hpc. }
    rewrite Hc. simpl. rewrite Hy'. simpl. rewrite Hq'. simpl.
    rewrite Hp'. simpl.
    rewrite (index_last_Some _ _ Hyl'), (index_last_Some _ _ Hql'),
      (index_last_Some _ _ Hpl'). done. }
  split; [lia|]. split; [|done].
  intros i Hi. rewrite Hye, Hqe, Hpe by lia. done.
Qed.

Lemma emitted_S {A} (accept_seq : list bool) (v : option A) (t : list A) i :
  emitted accept_seq v t (S i)
  = if decide (accept_seq !! S i = Some true) then t !! S i
    else emitted accept_seq v t i.
Proof.
  unfold emitted. cbn [last_accepted].
  destruct (accept_seq !! S i) as [[|]|]; by destruct (decide _).
Qed.

Lemma emitted_0 {A} (accept_seq : list bool) (v : option A) (t : list A) :
  emitted accept_seq v t 0
  = if decide (accept_seq !! 0%nat = Some true) then t !! 0%nat else v.
Proof.
  unfold emitted. cbn [last_accepted].
  destruct (accept_seq !! 0%nat) as [[|]|]; by destruct (decide _).
Qed.

(** X13.  The batch [_accept_reject_step] returns is a chain: every element
    after the first is the proposal of its position when that proposal is
    accepted, and a repetition of the element before it when it is
    rejected; the first element is its proposal or, rejected, the persisted
    reference.  Sample, [logq] and [logp] move together. *)
Theorem accept_reject_step_repeats {Sample : Type} (rand_arr : nat -> float)
    (ref : ref_dict Sample) (y : list Sample) (logq logp : list float) :
  (0 < length y)%nat ->
  length logq = length y ->
  length logp = length y ->
  (populated ref \/
   exists ref0,
     initial_reference (zip_with PrimFloat.sub logq logp) (ref_logqp ref)
       = Some ref0 /\
     accepted_at rand_arr (zip_with PrimFloat.sub logq logp) ref0 0
       = Some true) ->
  exists accept_seq y' logq' logp' ref',
    calc_accept_status rand_arr (zip_with PrimFloat.sub logq logp)
      (ref_logqp ref) = inr accept_seq /\
    _accept_reject_step rand_arr ref y logq logp
      = inr (ref', (y', logq', logp')) /\
    (if decide (accept_seq !! 0%nat = Some true)
     then y' !! 0%nat = y !! 0%nat /\ logq' !! 0%nat = logq !! 0%nat /\
          logp' !! 0%nat = logp !! 0%nat
     else y' !! 0%nat = ref_sample ref /\ logq' !! 0%nat = ref_logq ref /\
          logp' !! 0%nat = ref_logp ref) /\
    (forall i, (S i < length y)%nat ->
       if decide (accept_seq !! S i = Some true)
       then y' !! S i = y !! S i /\ logq' !! S i = logq !! S i /\
            logp' !! S i = logp !! S i
       else y' !! S i = y' !! i /\ logq' !! S i = logq' !! i /\
            logp' !! S i = logp' !! i).
Proof.
  intros Hn Hq Hp Href.
  destruct (step_returns rand_arr ref y logq logp Hn Hq Hp Href)
    as (accept_seq & y' & q' & p' & yl & ql & pl & Hs & _ & Hstep & _ & Hem & _).
  exists accept_seq, y', q', p',
    (mk_ref (Some yl) (Some ql) (Some pl) (Some (ql - pl))).
  split; [done|]. split; [exact Hstep|]. split.
  - destruct (Hem 0%nat Hn) as (-> & -> & ->). rewrite !emitted_0.
    by destruct (decide _).
  - intros i Hi.
    destruct (Hem (S i) Hi) as (-> & -> & ->).
    destruct (Hem i ltac:(lia)) as (-> & -> & ->).
    rewrite !emitted_S. by destruct (decide _).
Qed.

(** Two proposals against a persisted reference, both rejected: the
    reference is emitted twice. *)
Lemma accept_reject_step_repeats_witness :
  exists y' logq' logp' ref',
    _accept_reject_step (fun _ => -0.1)
      (mk_ref (Some 5%nat) (Some 1) (Some 2) (Some (-1)))
      [7%nat; 8%nat] [0; 0] [0; 0]
      = inr (ref', (y', logq', logp')) /\
    y' !! 0%nat = Some 5%nat /\ y' !! 1%nat = y' !! 0%nat.
Proof.
  destruct (accept_reject_step_repeats (fun _ => -0.1)
              (mk_ref (Some 5%nat) (Some 1) (Some 2) (Some (-1)))
              [7%nat; 8%nat] [0; 0] [0; 0])
    as (accept_seq & y' & q' & p' & ref' & Hs & Hstep & H0 & HS).
  - simpl. lia.
  - reflexivity.
  - reflexivity.
  - left. repeat split; by eexists.
  - exists y', q', p', ref'. split; [exact Hstep|].
    assert (Hseq : accept_seq = [false; false]).
    { revert Hs. vm_compute. by intros [= <-]. }
    subst accept_seq. split.
    + exact (proj1 H0).
    + exact (proj1 (HS 0%nat ltac:(simpl; lia))).
Defined.

(** X14.  From batch to batch: after a call that returned, the next call on
    any batch of proposals returns as well; its statuses are those of
    [calc_accept_status] against [logq - logp] of the last element the first
    call emitted, and when its first proposal is rejected its first element
    is that last element, with its [logq] and [logp]. *)
Theorem accept_reject_step_twice {Sample : Type}
    (rand_arr rand_arr' : nat -> float) (ref : ref_dict Sample)
    (y : list Sample) (logq logp : list float)
    (z : list Sample) (logq_z logp_z : list float) :
  (0 < length y)%nat ->
  length logq = length y ->
  length logp = length y ->
  (populated ref \/
   exists ref0,
     initial_reference (zip_with PrimFloat.sub logq logp) (ref_logqp ref)
       = Some ref0 /\
     accepted_at rand_arr (zip_with PrimFloat.sub logq logp) ref0 0
       = Some true) ->
  (0 < length z)%nat ->
  length logq_z = length z ->
  length logp_z = length z ->
  exists ref1 y' logq' logp' yl ql pl accept_seq ref2 z' logq_z' logp_z',
    _accept_reject_step rand_arr ref y logq logp
      = inr (ref1, (y', logq', logp')) /\
    last y' = Some yl /\ last logq' = Some ql /\ last logp' = Some pl /\
    calc_accept_status rand_arr' (zip_with PrimFloat.sub logq_z logp_z)
      (Some (ql - pl)) = inr accept_seq /\
    _accept_reject_step rand_arr' ref1 z logq_z logp_z
      = inr (ref2, (z', logq_z', logp_z')) /\
    (accept_seq !! 0%nat = Some false ->
       z' !! 0%nat = Some yl /\ logq_z' !! 0%nat = Some ql /\
       logp_z' !! 0%nat = Some pl).
Proof.
  intros Hn Hq Hp Href Hnz Hqz Hpz.
  destruct (step_returns rand_arr ref y logq logp Hn Hq Hp Href)
    as (s1 & y' & q' & p' & yl & ql & pl & _ & _ & Hstep & _ & _ &
        Hyl & Hql & Hpl).
  set (ref1 := mk_ref (Some yl) (Some ql) (Some pl) (Some (ql - pl))) in *.
  assert (Hpop : populated ref1) by (repeat split; by eexists).
  destruct (step_returns rand_arr' ref1 z logq_z logp_z Hnz Hqz Hpz
              (or_introl Hpop))
    as (s2 & z' & qz' & pz' & zl & qzl & pzl & Hs2 & _ & Hstep2 & _ & Hem &
        _).
  exists ref1, y', q', p', yl, ql, pl, s2,
    (mk_ref (Some zl) (Some qzl) (Some pzl) (Some (qzl - pzl))), z', qz', pz'.
  split; [exact Hstep|]. split; [done|]. split; [done|]. split; [done|].
  split; [exact Hs2|]. split; [exact Hstep2|].
  intros Hrej. destruct (Hem 0%nat Hnz) as (-> & -> & ->).
  rewrite !emitted_0. rewrite Hrej.
  destruct (decide (Some false = Some true)); done.
Qed.

(** Two batches of one proposal each; the second proposal is rejected and
    the element of the first batch is emitted again. *)
Lemma accept_reject_step_twice_witness :
  exists ref1 ref2 z' logq_z' logp_z',
    _accept_reject_step (fun _ => -0.1) ref_init [7%nat] [0] [0]
      = inr (ref1, ([7%nat], [0], [0])) /\
    _accept_reject_step (fun _ => -0.1) ref1 [8%nat] [1] [0]
      = inr (ref2, (z', logq_z', logp_z')) /\
    z' !! 0%nat = Some 7%nat.
Proof.
  destruct (accept_reject_step_twice (fun _ => -0.1) (fun _ => -0.1)
              ref_init [7%nat] [0] [0] [8%nat] [1] [0])
    as (ref1 & y' & q' & p' & yl & ql & pl & s2 & ref2 & z' & qz' & pz' &
        Hstep & Hyl & Hql & Hpl & Hs2 & Hstep2 & Hrej).
  - simpl. lia.
  - reflexivity.
  - reflexivity.
  - right. exists 0. split; reflexivity.
  - simpl. lia.
  - reflexivity.
  - reflexivity.
  - assert (H1 : (ref1, (y', q', p'))
                 = (mk_ref (Some 7%nat) (Some 0) (Some 0) (Some (0 - 0)),
                    ([7%nat], [0], [0]))).
    { revert Hstep. vm_compute. by intros [= <- <- <- <-]. }
    injection H1 as -> -> -> ->.
    injection Hyl as <-. injection Hql as <-. injection Hpl as <-.
    assert (Hseq : s2 = [false]).
    { revert Hs2. vm_compute. by intros [= <-]. }
    subst s2.
    exists (mk_ref (Some 7%nat) (Some 0) (Some 0) (Some 0)), ref2, z', qz', pz'.
    split; [exact Hstep|]. split; [exact Hstep2|].
    exact (proj1 (Hrej eq_refl)).
Defined.

(** X15.  The calls of [_accept_reject_step] that raise: on an empty batch
    it raises [IndexError], whatever the dictionary holds; and on the first
    call of a sampler, whose dictionary holds nothing, a first proposal that
    is rejected makes it raise [TypeError], from writing the missing
    reference into the batch.  The first proposal is judged against its own
    log-ratio [r], so it is rejected when [log u_0 < r - r] fails, as it
    does when [r] is infinite or not a number. *)
Theorem accept_reject_step_raises {Sample : Type} (rand_arr : nat -> float) :
  (forall (ref : ref_dict Sample) y,
     _accept_reject_step rand_arr ref y [] [] = inl IndexError) /\
  (forall (y : list Sample) logq logp r,
     (0 < length y)%nat ->
     length logq = length y -> length logp = length y ->
     zip_with PrimFloat.sub logq logp !! 0%nat = Some r ->
     (rand_arr 0%nat <? r - r) = false ->
     _accept_reject_step rand_arr ref_init y logq logp = inl TypeError).
Proof.
  split.
  - intros ref y. unfold _accept_reject_step. cbn [tensor_sub length].
    cbn [Nat.eqb mbind py_bind mret py_ret zip_with].
    unfold calc_accept_status. by destruct (ref_logqp ref).
  - intros y logq logp r Hn Hq Hp Hr Hrej.
    unfold _accept_reject_step, tensor_sub, ref_init.
    cbn [ref_logqp ref_sample ref_logq ref_logp].
    rewrite Hq, Hp, Nat.eqb_refl. cbn [mbind py_bind mret py_ret].
    set (logqp := zip_with PrimFloat.sub logq logp) in *.
    rewrite (calc_accept_status_inr rand_arr logqp None r) by done.
    cbn [mbind py_bind].
    assert (H0 : status_upto rand_arr logqp r (length logqp) !! 0%nat
                 = Some false).
    { rewrite status_upto_lookup. unfold accepted_at. rewrite Hr. simpl.
      by rewrite Hrej. }
    rewrite (index_Some _ _ _ H0). reflexivity.
Qed.

(** A first proposal whose [logq] is infinite. *)
Lemma accept_reject_step_raises_witness :
  _accept_reject_step (fun _ => -0.1) ref_init [7%nat] [infinity] [0]
  = inl TypeError.
Proof.
  apply (proj2 (accept_reject_step_raises (fun _ => -0.1))
           [7%nat] [infinity] [0] infinity).
  - simpl. lia.
  - reflexivity.
  - reflexivity.
  - reflexivity.
  - reflexivity.
Defined.

End ChainFacts.

(** ** More about [BlockedMCMCSampler]: a sweep under an exact [restore],
    and [sample_] as a whole *)

Section BlockedMore.

Import BlockedMCMCSampler.
Open Scope float_scope.

Context {X Y : Type}.
Variable net_ : X -> Y * float.
Variable net_backward : Y -> py X.
Variable log_prob : X -> float.
Variable action : Y -> float.
Variable prior_sample : X.
Variable nvar : nat.
Variable blockupdater : X -> nat -> X.
Variable blockupdater_restore : X -> nat -> X.

Local Abbreviation sweep :=
  (sweep X Y net_ log_prob action blockupdater blockupdater_restore).
Local Abbreviation blocks :=
  (blocks X Y net_ log_prob action blockupdater blockupdater_restore).
Local Abbreviation logqp_of := (logqp_of X Y net_ log_prob action).
Local Abbreviation sample_step :=
  (sample_step X Y net_ log_prob action blockupdater blockupdater_restore).
Local Abbreviation sample_ :=
  (sample_ X Y net_ net_backward log_prob action prior_sample nvar
     blockupdater blockupdater_restore).

(** The blocks of [seq i n] whose update was accepted. *)
Local Abbreviation accepted i n acc :=
  ((filter (fun p : nat * bool => p.2 = true) (zip (seq i n) acc)).*1).

Lemma blocks_exact (lrand_arr : nat -> float) n :
  (forall x i, blockupdater_restore (blockupdater x i) i = x) ->
  forall i x ref,
    let '(x_end, _, acc, ref_end) := blocks lrand_arr i n x ref in
    x_end = foldl blockupdater x (accepted i n acc) /\
    (ref = None \/ ref = Some (logqp_of x) ->
     (n = 0%nat /\ ref_end = ref) \/ ref_end = Some (logqp_of x_end)).
Proof.
  intros Hrestore. induction n as [|n IH]; intros i x ref.
  { cbn [BlockedMCMCSampler.blocks]. split; [done|]. intros _. by left. }
  cbn [BlockedMCMCSampler.blocks].
  set (x' := blockupdater x i).
  destruct (judge lrand_arr i ref (logqp_of x')) eqn:Hjudge.
  - specialize (IH (S i) x' (Some (logqp_of x'))).
    destruct (blocks lrand_arr (S i) n x' (Some (logqp_of x')))
      as [[[x_end cs] acc] ref_end].
    destruct IH as [Hx Href]. split.
    + cbn [seq zip zip_with]. rewrite filter_cons_True by done.
      cbn [fmap list_fmap foldl fst]. exact Hx.
    + intros _. right. destruct Href as [[-> ->]|Href]; [by right| |done].
      cbn [seq zip zip_with filter list_filter fmap list_fmap foldl] in Hx.
      by rewrite Hx.
  - specialize (IH (S i) (blockupdater_restore x' i) ref).
    destruct (blocks lrand_arr (S i) n (blockupdater_restore x' i) ref)
      as [[[x_end cs] acc] ref_end].
    unfold x' in *. rewrite Hrestore in IH.
    destruct IH as [Hx Href]. split.
    + cbn [seq zip zip_with]. rewrite filter_cons_False by (simpl; congruence).
      exact Hx.
    + intros Hinv. destruct ref as [r|]; [|discriminate Hjudge].
      destruct Hinv as [?|Hinv]; [done|].
      right. destruct (Href (or_intror Hinv)) as [[-> ->]|Href']; [|done].
      cbn [seq zip zip_with filter list_filter fmap list_fmap foldl] in Hx.
      by rewrite Hx.
Qed.

(** X16.  A sweep with an updater whose [restore] undoes its update
    exactly: [sweep] returns, the [x] it leaves is the [x] it was given with
    the accepted block updates applied in order, the rejected ones leaving
    no trace; and, started without a reference or with the log-ratio of
    [x] as reference, a sweep over at least one block ends with the
    log-ratio of the [x] it leaves as reference. *)
Theorem sweep_keeps_accepted (lrand_arr : nat -> float) (x : X)
    (calls : list event) (n_blocks : nat) (logqp_ref : option float) :
  (forall x i, blockupdater_restore (blockupdater x i) i = x) ->
  exists st,
    sweep lrand_arr x calls n_blocks logqp_ref = inr st /\
    sw_x X st
      = foldl blockupdater x (accepted 0 n_blocks (sw_accept_seq X st)) /\
    ((0 < n_blocks)%nat ->
     logqp_ref = None \/ logqp_ref = Some (logqp_of x) ->
     sw_logqp_ref X st = Some (logqp_of (sw_x X st))).
Proof.
  intros Hrestore.
  pose proof (sweep_loop net_ log_prob action blockupdater
                blockupdater_restore lrand_arr n_blocks 0 x calls logqp_ref []
                (replicate n_blocks false) eq_refl
                (length_replicate _ _) (or_introl eq_refl)) as Hloop.
  pose proof (blocks_exact lrand_arr n_blocks Hrestore 0 x logqp_ref) as Hex.
  destruct (blocks lrand_arr 0 n_blocks x logqp_ref)
    as [[[x_end cs] acc] ref_end].
  destruct Hex as [Hx Href].
  eexists. split; [exact Hloop|]. cbn [sw_x sw_accept_seq sw_logqp_ref app].
  split; [exact Hx|]. intros Hn Hinv.
  destruct (Href Hinv) as [[-> _]|Hr]; [lia|done].
Qed.

Lemma sweep_returns (lrand_arr : nat -> float) (x : X) (calls : list event)
    (n : nat) (ref : option float) :
  exists sw, sweep lrand_arr x calls n ref = inr sw /\
             length (sw_accept_seq X sw) = n.
Proof.
  pose proof (sweep_loop net_ log_prob action blockupdater
                blockupdater_restore lrand_arr n 0 x calls ref []
                (replicate n false) eq_refl
                (length_replicate _ _) (or_introl eq_refl)) as Hloop.
  pose proof (blocks_calls net_ log_prob action blockupdater
                blockupdater_restore lrand_arr n 0 x ref) as Hcalls.
  destruct (blocks lrand_arr 0 n x ref) as [[[x_end cs] acc] ref_end].
  destruct Hcalls as [Hlen _].
  eexists. split; [exact Hloop|]. done.
Qed.

Lemma sample_step_returns (lrand : nat -> nat -> float) (n i : nat)
    (st : sample_state X Y) :
  exists sw,
    length (sw_accept_seq X sw) = n /\
    sample_step lrand n i st
    = inr (mk_sample X Y (sw_x X sw) (sw_calls X sw)
             (sa_accept_seq X Y st ++ [sw_accept_seq X sw])
             (sw_logqp_ref X sw) (Some (net_ (sw_x X sw)).1)
             (sa_cfgs X Y st ++ [(net_ (sw_x X sw)).1])
             (sa_logq X Y st
                ++ [log_prob (sw_x X sw) - (net_ (sw_x X sw)).2])
             (sa_logp X Y st ++ [- action (net_ (sw_x X sw)).1])).
Proof.
  destruct (sweep_returns (lrand i) (sa_x X Y st) (sa_calls X Y st) n
              (sa_logqp_ref X Y st)) as (sw & Hsw & Hlen).
  exists sw. split; [done|]. unfold BlockedMCMCSampler.sample_step.
  rewrite Hsw. cbn [mbind py_bind]. by destruct (net_ (sw_x X sw)).
Qed.

(** The loop of [sample_] from pass [i] on, [k] passes. *)
Lemma sample_loop (lrand : nat -> nat -> float) (n k : nat) :
  forall i (st : sample_state X Y),
    exists st',
      for_range_from (sample_step lrand n) i k st = inr st' /\
      length (sa_cfgs X Y st') = (length (sa_cfgs X Y st) + k)%nat /\
      length (sa_logq X Y st') = (length (sa_logq X Y st) + k)%nat /\
      length (sa_logp X Y st') = (length (sa_logp X Y st) + k)%nat /\
      length (sa_accept_seq X Y st')
        = (length (sa_accept_seq X Y st) + k)%nat /\
      (Forall (fun row => length row = n) (sa_accept_seq X Y st) ->
       Forall (fun row => length row = n) (sa_accept_seq X Y st')) /\
      (k = 0%nat -> st' = st) /\
      ((0 < k)%nat -> sa_y X Y st' = last (sa_cfgs X Y st') /\
                      is_Some (sa_y X Y st')).
Proof.
  induction k as [|k IH]; intros i st.
  { exists st. cbn [for_range_from]. repeat split; try lia; try done. }
  cbn [for_range_from].
  destruct (sample_step_returns lrand n i st) as (sw & Hlen & Hstep).
  rewrite Hstep. cbn [mbind py_bind].
  match goal with
  | |- context [for_range_from _ (S i) k ?s] =>
      destruct (IH (S i) s) as (st' & Hrun & Hc & Hq & Hp & Hr & Hrows & H0 & HS)
  end.
  cbn [sa_cfgs sa_logq sa_logp sa_accept_seq sa_y] in *.
  rewrite length_app in Hc, Hq, Hp, Hr. cbn [length] in Hc, Hq, Hp, Hr.
  exists st'. split; [exact Hrun|].
  split; [lia|]. split; [lia|]. split; [lia|]. split; [lia|].
  split.
  { intros Hall. apply Hrows. apply Forall_app. split; [done|].
    by constructor. }
  split; [lia|]. intros _.
  destruct k as [|k].
  - rewrite (H0 eq_refl). cbn [sa_y sa_cfgs]. rewrite last_snoc.
    split; [done|by eexists].
  - apply HS. lia.
Qed.


End BlockedMore.

(** Counters for configurations, an updater that adds one and a [restore]
    that takes it off again. *)
Lemma sweep_keeps_accepted_witness :
  exists st,
    BlockedMCMCSampler.sweep nat nat (fun x => (x, 0%float))
      (fun _ => 0%float) (fun _ => 0%float) (fun x _ => S x)
      (fun x _ => pred x) (fun _ => (-0.1)%float) 5%nat [] 2 None = inr st /\
    BlockedMCMCSampler.sw_x nat st
      = foldl (fun x (_ : nat) => S x) 5%nat
          (filter (fun p : nat * bool => p.2 = true)
             (zip (seq 0 2) (BlockedMCMCSampler.sw_accept_seq nat st))).*1.
Proof.
  destruct (sweep_keeps_accepted (fun x : nat => (x, 0%float))
              (fun _ => 0%float) (fun _ => 0%float) (fun x _ => S x)
              (fun x _ => pred x) (fun _ => (-0.1)%float) 5%nat [] 2 None)
    as (st & Hst & Hx & _).
  - reflexivity.
  - exists st. split; [exact Hst|exact Hx].
Defined.

(** ** The history of an [MCMCSampler] *)

Section HistoryFacts.

Import Metropolis.
Open Scope float_scope.

Context {Sample : Type}.
Variable np_mean : list bool -> float.
Variable rand_arr : nat -> float.

(** The step with its bookkeeping, against the step alone. *)
Lemma step_with_history (self : Sampler.t Sample) (y : list Sample)
    (logq logp : list float) (bookkeeping : bool) :
  Sampler._accept_reject_step np_mean rand_arr self y logq logp bookkeeping
  = match MCMCSampler._accept_reject_step rand_arr (Sampler._ref self)
            y logq logp,
          (logqp ← MCMCSampler.tensor_sub logq logp;
           calc_accept_status rand_arr logqp
             (MCMCSampler.ref_logqp (Sampler._ref self))) with
    | inr (ref, out), inr accept_seq =>
        let h := MCMCHistory.bookkeeping (Sampler.history self) None None
                   None None None (Some (np_mean accept_seq)) None in
        let h := if bookkeeping
                 then MCMCHistory.bookkeeping h None None None None
                        (Some accept_seq) None
                        (Some (calc_accept_indices accept_seq))
                 else h in
        (Sampler.mk ref h, inr out)
    | inl e, _ => (self, inl e)
    | _, inl e => (self, inl e)
    end.
Proof.
  unfold Sampler._accept_reject_step, MCMCSampler._accept_reject_step.
  destruct (MCMCSampler.tensor_sub logq logp) as [e|logqp]; [done|].
  cbn [mbind py_bind].
  destruct (calc_accept_status rand_arr logqp _) as [e|accept_seq]; [done|].
  cbn [mbind py_bind].
  destruct (index accept_seq 0) as [e|a0]; [done|]. cbn [mbind py_bind].
  match goal with
  | |- context [(if a0 then ?a else ?b) ≫= _] =>
      destruct (if a0 then a else b) as [e|[[y1 q1] p1]]; [done|]
  end.
  cbn [mbind py_bind].
  destruct (MCMCSampler.index_select y1 _) as [e|y2]; [done|].
  cbn [mbind py_bind].
  destruct (MCMCSampler.index_select q1 _) as [e|q2]; [done|].
  cbn [mbind py_bind].
  destruct (MCMCSampler.index_select p1 _) as [e|p2]; [done|].
  cbn [mbind py_bind].
  destruct (index_last y2) as [e|yl]; [done|]. cbn [mbind py_bind].
  destruct (index_last q2) as [e|ql]; [done|]. cbn [mbind py_bind].
  destruct (index_last p2) as [e|pl]; [done|]. done.
Qed.

Lemma index_select_length {A} (t : list A) (ind : list nat) (l : list A) :
  MCMCSampler.index_select t ind = inr l -> length l = length ind.
Proof.
  unfold MCMCSampler.index_select. revert l.
  induction ind as [|i ind IH]; intros l.
  - by intros [= <-].
  - cbn [mapM]. destruct (index t i) as [e|a]; [done|]. cbn [mbind py_bind].
    destruct (mapM (index t) ind) as [e|l']; [done|]. cbn [mbind py_bind].
    intros [= <-]. simpl. f_equal. by apply IH.
Qed.

Lemma step_statuses (ref : MCMCSampler.ref_dict Sample) (y : list Sample)
    (logq logp : list float) ref' y' logq' logp' :
  MCMCSampler._accept_reject_step rand_arr ref y logq logp
    = inr (ref', (y', logq', logp')) ->
  exists accept_seq,
    (logqp ← MCMCSampler.tensor_sub logq logp;
     calc_accept_status rand_arr logqp (MCMCSampler.ref_logqp ref))
      = inr accept_seq /\
    length logq' = length logp'.
Proof.
  unfold MCMCSampler._accept_reject_step.
  destruct (MCMCSampler.tensor_sub logq logp) as [e|logqp]; [done|].
  cbn [mbind py_bind].
  destruct (calc_accept_status rand_arr logqp _) as [e|accept_seq]; [done|].
  cbn [mbind py_bind].
  destruct (index accept_seq 0) as [e|a0]; [done|]. cbn [mbind py_bind].
  match goal with
  | |- context [(if a0 then ?a else ?b) ≫= _] =>
      destruct (if a0 then a else b) as [e|[[y1 q1] p1]]; [done|]
  end.
  cbn [mbind py_bind].
  destruct (MCMCSampler.index_select y1 _) as [e|y2]; [done|].
  cbn [mbind py_bind].
  destruct (MCMCSampler.index_select q1 _) as [e|q2] eqn:Hq; [done|].
  cbn [mbind py_bind].
  destruct (MCMCSampler.index_select p1 _) as [e|p2] eqn:Hp; [done|].
  cbn [mbind py_bind].
  destruct (index_last y2) as [e|yl]; [done|]. cbn [mbind py_bind].
  destruct (index_last q2) as [e|ql]; [done|]. cbn [mbind py_bind].
  destruct (index_last p2) as [e|pl]; [done|]. cbn [mbind py_bind].
  intros [= _ _ <- <-]. exists accept_seq. split; [done|].
  apply index_select_length in Hq, Hp. congruence.
Qed.

(** X18.  What one call of [sample_] leaves in the history, for a history
    whose lists are aligned.  The batch returned and the new [_ref] are
    those of the Metropolis step.  A call that returns appends the
    acceptance rate, always; with [bookkeeping=True] it appends, besides,
    the raw [logq] and [logp], the emitted ones, the statuses and their
    indices, one entry each, and [report_summary] then reports on the batch
    just emitted and on all the rates; with [bookkeeping=False] the six
    lists stay as they are.  The history stays aligned.  A call that
    raises leaves [_ref] and the rates alone, but with [bookkeeping=True]
    the raw [logq] and [logp] are already in the history, which is then no
    longer aligned. *)
Theorem sample_bookkeeping {Report} (summary : list float -> list float -> Report)
    (self : Sampler.t Sample)
    (raw : list Sample * list float * list float) (bookkeeping : bool) :
  MCMCHistory.aligned (Sampler.history self) ->
  let h := Sampler.history self in
  match Sampler.sample_ np_mean rand_arr self raw bookkeeping,
        MCMCSampler.sample_ rand_arr (Sampler._ref self) raw with
  | (self', inr out), inr (ref', out') =>
      let h' := Sampler.history self' in
      out = out' /\ Sampler._ref self' = ref' /\
      MCMCHistory.aligned h' /\
      exists accept_seq,
        (logqp ← MCMCSampler.tensor_sub raw.1.2 raw.2;
         calc_accept_status rand_arr logqp
           (MCMCSampler.ref_logqp (Sampler._ref self))) = inr accept_seq /\
        MCMCHistory.accept_rate h'
          = MCMCHistory.accept_rate h ++ [np_mean accept_seq] /\
        if bookkeeping
        then MCMCHistory.raw_logq h' = MCMCHistory.raw_logq h ++ [raw.1.2] /\
             MCMCHistory.raw_logp h' = MCMCHistory.raw_logp h ++ [raw.2] /\
             MCMCHistory.logq h' = MCMCHistory.logq h ++ [out.1.2] /\
             MCMCHistory.logp h' = MCMCHistory.logp h ++ [out.2] /\
             MCMCHistory.accept_seq h'
               = MCMCHistory.accept_seq h ++ [accept_seq] /\
             MCMCHistory.accept_ind h'
               = MCMCHistory.accept_ind h
                 ++ [calc_accept_indices accept_seq] /\
             MCMCHistory.report_summary summary h'
               = inr (summary (zip_with PrimFloat.sub out.1.2 out.2)
                              (MCMCHistory.accept_rate h'))
        else MCMCHistory.raw_logq h' = MCMCHistory.raw_logq h /\
             MCMCHistory.raw_logp h' = MCMCHistory.raw_logp h /\
             MCMCHistory.logq h' = MCMCHistory.logq h /\
             MCMCHistory.logp h' = MCMCHistory.logp h /\
             MCMCHistory.accept_seq h' = MCMCHistory.accept_seq h /\
             MCMCHistory.accept_ind h' = MCMCHistory.accept_ind h
  | (self', inl e), inl e' =>
      let h' := Sampler.history self' in
      e = e' /\ Sampler._ref self' = Sampler._ref self /\
      MCMCHistory.accept_rate h' = MCMCHistory.accept_rate h /\
      MCMCHistory.logq h' = MCMCHistory.logq h /\
      MCMCHistory.logp h' = MCMCHistory.logp h /\
      MCMCHistory.accept_seq h' = MCMCHistory.accept_seq h /\
      MCMCHistory.accept_ind h' = MCMCHistory.accept_ind h /\
      if bookkeeping
      then MCMCHistory.raw_logq h' = MCMCHistory.raw_logq h ++ [raw.1.2] /\
           MCMCHistory.raw_logp h' = MCMCHistory.raw_logp h ++ [raw.2] /\
           ~ MCMCHistory.aligned h'
      else MCMCHistory.raw_logq h' = MCMCHistory.raw_logq h /\
           MCMCHistory.raw_logp h' = MCMCHistory.raw_logp h
  | _, _ => False
  end.
Proof.
  intros (Hp & Hrq & Hrp & Hs & Hi & Hr). destruct raw as [[y logq] logp].
  destruct self as [ref h]. cbn [Sampler.history Sampler._ref fst snd] in *.
  unfold Sampler.sample_, MCMCSampler.sample_.
  destruct bookkeeping; rewrite step_with_history;
    cbn [Sampler.history Sampler._ref];
    destruct (MCMCSampler._accept_reject_step rand_arr ref y logq logp)
      as [e|[ref' [[y' q'] p']]] eqn:Hstep.
  - unfold MCMCHistory.aligned, MCMCHistory.bookkeeping, MCMCHistory.append.
    cbn [Sampler.history Sampler._ref MCMCHistory.logq MCMCHistory.logp
         MCMCHistory.raw_logq MCMCHistory.raw_logp MCMCHistory.accept_seq
         MCMCHistory.accept_ind MCMCHistory.accept_rate].
    repeat split; try done.
    intros (_ & Hbad & _). rewrite length_app in Hbad. simpl in Hbad. lia.
  - destruct (step_statuses _ _ _ _ _ _ _ _ Hstep) as (s & Hseq & Hlen).
    rewrite Hseq.
    unfold MCMCHistory.aligned, MCMCHistory.report_summary,
      MCMCHistory.bookkeeping, MCMCHistory.append.
    cbn [Sampler.history Sampler._ref MCMCHistory.logq MCMCHistory.logp
         MCMCHistory.raw_logq MCMCHistory.raw_logp MCMCHistory.accept_seq
         MCMCHistory.accept_ind MCMCHistory.accept_rate fst snd].
    split; [done|]. split; [done|]. split.
    { rewrite !length_app. simpl. lia. }
    exists s. split; [done|]. repeat split.
    unfold index_last. rewrite !last_snoc. cbn [mbind py_bind mret py_ret].
    unfold MCMCSampler.tensor_sub. by rewrite Hlen, Nat.eqb_refl.
  - cbn [Sampler.history Sampler._ref]. repeat split; done.
  - destruct (step_statuses _ _ _ _ _ _ _ _ Hstep) as (s & Hseq & Hlen).
    rewrite Hseq.
    unfold MCMCHistory.aligned, MCMCHistory.bookkeeping, MCMCHistory.append.
    cbn [Sampler.history Sampler._ref MCMCHistory.logq MCMCHistory.logp
         MCMCHistory.raw_logq MCMCHistory.raw_logp MCMCHistory.accept_seq
         MCMCHistory.accept_ind MCMCHistory.accept_rate fst snd].
    split; [done|]. split; [done|]. split.
    { rewrite !length_app. simpl. lia. }
    exists s. split; [done|]. repeat split.
Qed.

End HistoryFacts.

(** The first call of a fresh sampler, one proposal, with bookkeeping. *)
Lemma sample_bookkeeping_witness :
  exists self' out,
    Sampler.sample_ (fun _ => 0.5%float) (fun _ => (-0.1)%float)
      Sampler.init ([7%nat], [0%float], [0%float]) true = (self', inr out) /\
    MCMCHistory.aligned (Sampler.history self').
Proof.
  assert (Hal : MCMCHistory.aligned (Sampler.history (@Sampler.init nat))).
  { repeat split; simpl; lia. }
  pose proof (sample_bookkeeping (fun _ => 0.5%float)
                (fun _ => (-0.1)%float) (fun _ _ => tt) Sampler.init
                ([7%nat], [0%float], [0%float]) true Hal) as H.
  cbv zeta in H.
  destruct (Sampler.sample_ (fun _ => 0.5%float) (fun _ => (-0.1)%float)
              Sampler.init ([7%nat], [0%float], [0%float]) true)
    as [self' [e|out]] eqn:Hs.
  - exfalso. revert Hs. vm_compute. discriminate.
  - destruct (MCMCSampler.sample_ _ _ _) as [e'|[ref' out']]; [done|].
    destruct H as (_ & _ & Hal' & _).
    exists self', out. split; [reflexivity|exact Hal'].
Defined.

(** ** The serial generator *)

Section SerialFacts.

Import Serial.

Context {St Sample : Type}.
Variable sample_ :
  nat -> St -> St * py (list Sample * list float * list float).
Variable next : St -> St * (list Sample * list float * list float).
Variable b : nat.

Hypothesis Hb : (0 < b)%nat.
Hypothesis Hnext : forall st, sample_ b st = ((next st).1, inr (next st).2).
Hypothesis Hsize : forall st,
  length (next st).2.1.1 = b /\ length (next st).2.1.2 = b /\
  length (next st).2.2 = b.

Lemma passes_snoc (i n : nat) (fr : frame St Sample) :
  passes sample_ b i (S n) fr
  = match passes sample_ b i n fr with
    | (fr', Some e) => (fr', Some e)
    | (fr', None) => pass sample_ b (i + n) fr'
    end.
Proof.
  revert i fr. induction n as [|n IH]; intros i fr.
  - cbn [passes]. rewrite Nat.add_0_r.
    by destruct (pass sample_ b i fr) as [fr' [e|]].
  - change (passes sample_ b i (S (S n)) fr)
      with (match pass sample_ b i fr with
            | (fr', Some e) => (fr', Some e)
            | (fr', None) => passes sample_ b (S i) (S n) fr'
            end).
    cbn [passes] in *.
    destruct (pass sample_ b i fr) as [fr' [e|]]; [done|].
    rewrite IH. by replace (S i + n)%nat with (i + S n)%nat by lia.
Qed.

Lemma items_length (B : list Sample * list float * list float) :
  length B.1.1 = b -> length B.1.2 = b -> length B.2 = b ->
  length (items B) = b.
Proof. intros H1 H2 H3. unfold items. rewrite !length_zip_with. lia. Qed.

Lemma items_lookup (B : list Sample * list float * list float) r :
  (r < b)%nat ->
  length B.1.1 = b -> length B.1.2 = b -> length B.2 = b ->
  exists a q p,
    B.1.1 !! r = Some a /\ B.1.2 !! r = Some q /\ B.2 !! r = Some p /\
    items B !! r = Some (a, q, p).
Proof.
  intros Hr H1 H2 H3.
  destruct (lookup_lt_is_Some_2 B.1.1 r) as [a Ha]; [lia|].
  destruct (lookup_lt_is_Some_2 B.1.2 r) as [q Hq]; [lia|].
  destruct (lookup_lt_is_Some_2 B.2 r) as [p Hp]; [lia|].
  exists a, q, p. repeat split; try done.
  unfold items. apply lookup_zip_with_Some. exists (a, q), p.
  split; [done|]. split; [|done].
  apply lookup_zip_with_Some. by exists a, q.
Qed.

Lemma draw_sizes (k : nat) (st : St) :
  length (draw next k st).2 = k /\
  length (concat (items <$> (draw next k st).2)) = (k * b)%nat.
Proof.
  induction k as [|k IH]; [done|]. cbn [draw].
  destruct (draw next k st) as [st' bs]. cbn [snd] in IH.
  destruct IH as [Hl Hc].
  destruct (next st') as [st'' B] eqn:HB. cbn [snd].
  rewrite length_app, fmap_app, concat_app, length_app. cbn [length].
  split; [lia|]. rewrite Hc. cbn [fmap list_fmap concat].
  rewrite app_nil_r.
  destruct (Hsize st') as (H1 & H2 & H3). rewrite HB in H1, H2, H3.
  rewrite (items_length B) by done. lia.
Qed.

(** The frame after [n] passes. *)
Lemma passes_draw (n : nat) (st : St) :
  passes sample_ b 0 n (mk st None [])
  = (let '(st', bs) := draw next ((n + (b - 1)) `div` b) st in
     mk st' (last bs) (take n (concat (items <$> bs))), None).
Proof.
  induction n as [|n IH].
  { rewrite Nat.add_0_l, Nat.div_small by lia. done. }
  rewrite passes_snoc, IH. clear IH. change (0 + n)%nat with n.
  replace (S n + (b - 1))%nat with (n + 1 * b)%nat by lia.
  rewrite Nat.div_add by lia.
  pose proof (Nat.div_mod_eq n b) as Hdm.
  pose proof (Nat.mod_upper_bound n b ltac:(lia)) as Hr.
  replace (n `div` b + 1)%nat with (S (n `div` b)) by lia.
  set (q := (n `div` b)%nat) in *. set (r := (n `mod` b)%nat) in *.
  unfold pass. rewrite (proj2 (Nat.eqb_neq b 0)) by lia. fold r.
  destruct (decide (r = 0%nat)) as [Hr0|Hr0].
  - (* a new batch *)
    assert (Hk : ((n + (b - 1)) `div` b = q)%nat).
    { symmetry. apply (Nat.div_unique _ b q (b - 1)); [lia|]. lia. }
    rewrite Hk. cbn [draw].
    pose proof (draw_sizes q st) as [Hl Hc].
    destruct (draw next q st) as [st' bs]. cbn [snd] in Hl, Hc.
    rewrite (Nat.mul_comm q b) in Hc.
    cbn [sampler batch yielded]. rewrite Hr0. cbn [Nat.eqb].
    rewrite Hnext.
    destruct (Hsize st') as (H1 & H2 & H3).
    destruct (next st') as [st'' [[y lq] lp]] eqn:HB. cbn [fst snd] in *.
    cbn [sampler batch yielded].
    destruct (items_lookup (y, lq, lp) 0 Hb H1 H2 H3)
      as (a & qa & pa & Ha & Hq & Hp & Hit). cbn [fst snd] in *.
    rewrite (index_Some _ _ _ Ha), (index_Some _ _ _ Hq),
      (index_Some _ _ _ Hp). cbn [mbind py_bind mret py_ret].
    cbn [sampler batch yielded]. rewrite last_snoc. do 2 f_equal.
    rewrite fmap_app, concat_app. cbn [fmap list_fmap concat].
    rewrite app_nil_r.
    assert (Hn : n = length (concat (items <$> bs))) by (rewrite Hc; lia).
    rewrite (take_ge _ n) by lia.
    rewrite take_app_ge by lia.
    replace (S n - length (concat (items <$> bs)))%nat with 1%nat by lia.
    f_equal. destruct (items (y, lq, lp)) as [|it its]; [done|].
    by injection Hit as ->.
  - (* the batch at hand *)
    assert (Hk : ((n + (b - 1)) `div` b = S q)%nat).
    { symmetry. apply (Nat.div_unique _ b (S q) (r - 1)); [lia|]. lia. }
    rewrite Hk. cbn [draw].
    pose proof (draw_sizes q st) as [Hl Hc].
    destruct (draw next q st) as [st' bs]. cbn [snd] in Hl, Hc.
    rewrite (Nat.mul_comm q b) in Hc.
    destruct (Hsize st') as (H1 & H2 & H3).
    destruct (next st') as [st'' [[y lq] lp]] eqn:HB. cbn [fst snd] in *.
    rewrite (proj2 (Nat.eqb_neq r 0)) by done.
    cbn [sampler batch yielded]. rewrite last_snoc.
    destruct (items_lookup (y, lq, lp) r Hr H1 H2 H3)
      as (a & qa & pa & Ha & Hq & Hp & Hit). cbn [fst snd] in *.
    rewrite (index_Some _ _ _ Ha), (index_Some _ _ _ Hq),
      (index_Some _ _ _ Hp). cbn [mbind py_bind mret py_ret].
    do 2 f_equal.
    assert (Hlook : concat (items <$> bs ++ [(y, lq, lp)]) !! n
                    = Some (a, qa, pa)).
    { replace (concat (items <$> bs ++ [(y, lq, lp)]))
        with (concat (items <$> bs) ++ items (y, lq, lp)).
      2:{ rewrite fmap_app, concat_app. simpl. by rewrite app_nil_r. }
      unfold item in *.
      rewrite lookup_app_r; [|rewrite Hc; lia].
      rewrite Hc. replace (n - b * q)%nat with r by lia.
      done. }
    symmetry. apply take_S_r. exact Hlook.
Qed.

(** X19.  [serial_sample_generator(n_samples, batch_size)] over a sampler
    whose calls of [sample_(batch_size)] return batches of [batch_size]
    elements: it yields exactly [n_samples] elements and raises nothing;
    they are the elements of the successive batches, in order, cut after
    [n_samples]; [sample_] has been called once per batch started, the
    ceiling of [n_samples / batch_size] times, so that the elements of the
    last batch that were not yielded are lost to the chain while the
    sampler has moved past them.  With [batch_size = 0] and something to
    yield the generator raises [ZeroDivisionError] at once. *)
Theorem serial_generator_yields (n_samples : nat) (st : St) :
  (let '(st', bs) := draw next ((n_samples + (b - 1)) `div` b) st in
   serial_sample_generator sample_ n_samples b st
     = (mk st' (last bs) (take n_samples (concat (items <$> bs))), None) /\
   length (take n_samples (concat (items <$> bs))) = n_samples /\
   length bs = ((n_samples + (b - 1)) `div` b)%nat) /\
  serial_sample_generator sample_ (S n_samples) 0 st
    = (mk st None [], Some ZeroDivisionError).
Proof.
  split; [|done].
  pose proof (passes_draw n_samples st) as Hrun.
  pose proof (draw_sizes ((n_samples + (b - 1)) `div` b) st) as [Hl Hc].
  destruct (draw next ((n_samples + (b - 1)) `div` b) st) as [st' bs].
  cbn [snd] in Hl, Hc. split; [exact Hrun|]. split; [|exact Hl].
  rewrite length_take, Hc.
  pose proof (Nat.div_mod_eq (n_samples + (b - 1)) b) as Hdm.
  pose proof (Nat.mod_upper_bound (n_samples + (b - 1)) b ltac:(lia)) as Hr.
  rewrite (Nat.mul_comm _ b). lia.
Qed.


End SerialFacts.

(** A sampler that counts its calls and returns batches of two copies of
    the count: three elements are asked for. *)
Lemma serial_generator_yields_witness :
  Serial.serial_sample_generator
    (fun bsz s => (S s, inr (replicate bsz s, replicate bsz 0%float,
                             replicate bsz 0%float)))
    3 2 0%nat
  = (Serial.mk 2%nat
       (Some ([1%nat; 1%nat], [0%float; 0%float], [0%float; 0%float]))
       [(0%nat, 0%float, 0%float); (0%nat, 0%float, 0%float);
        (1%nat, 0%float, 0%float)], None).
Proof.
  exact (proj1 (proj1 (serial_generator_yields
           (fun bsz s => (S s, inr (replicate bsz s, replicate bsz 0%float,
                                    replicate bsz 0%float)))
           (fun s => (S s, (replicate 2 s, replicate 2 0%float,
                            replicate 2 0%float)))
           2 ltac:(lia) ltac:(reflexivity)
           ltac:(intros s; repeat split) 3 0%nat))).
Defined.

(** ** The knots [make_spline] builds *)

Section SplineFacts.

Import Spline.
Open Scope R_scope.

Lemma ln_2_pos : 0 < ln 2.
Proof. rewrite <- ln_1. apply ln_increasing; lra. Qed.

Lemma softplus_pos (a : R) : 0 < softplus a.
Proof.
  unfold softplus. pose proof ln_2_pos as Hb.
  destruct (Rlt_dec 20 (ln 2 * a)) as [H|H].
  - destruct (Rle_or_lt a 0) as [Ha|Ha]; [|done].
    assert (ln 2 * a <= 0); [|lra].
    replace 0 with (ln 2 * 0) by ring. apply Rmult_le_compat_l; lra.
  - apply Rdiv_lt_0_compat; [|done].
    rewrite <- ln_1. apply ln_increasing; [lra|].
    pose proof (exp_pos (ln 2 * a)). lra.
Qed.

Lemma softplus_0 : softplus 0 = 1.
Proof.
  unfold softplus. pose proof ln_2_pos as Hb.
  destruct (Rlt_dec 20 (ln 2 * 0)) as [H|H].
  - rewrite Rmult_0_r in H. lra.
  - rewrite Rmult_0_r, exp_0. replace (1 + 1) with 2 by ring.
    field. lra.
Qed.

Lemma sum_exp_pos (w : list R) :
  w <> [] -> 0 < foldr Rplus 0 (exp <$> w).
Proof.
  destruct w as [|a w]; [done|]. intros _.
  assert (0 <= foldr Rplus 0 (exp <$> w)).
  { induction w as [|c w IH]; [simpl; lra|].
    rewrite fmap_cons. cbn [foldr]. pose proof (exp_pos c). lra. }
  rewrite fmap_cons. cbn [foldr]. pose proof (exp_pos a). lra.
Qed.

Lemma sum_div (s : R) (v : list R) :
  foldr Rplus 0 ((fun a => a / s) <$> v) = foldr Rplus 0 v / s.
Proof.
  induction v as [|a v IH]; [simpl; unfold Rdiv; ring|].
  rewrite !fmap_cons. cbn [foldr]. rewrite IH. unfold Rdiv. ring.
Qed.

Lemma softmax_pos (w : list R) : Forall (fun a => 0 < a) (softmax w).
Proof.
  unfold softmax. apply Forall_fmap, Forall_forall. intros a Ha. simpl.
  apply Rdiv_lt_0_compat; [apply exp_pos|].
  apply sum_exp_pos. intros ->. by apply elem_of_nil in Ha.
Qed.

Lemma softmax_sum (w : list R) : w <> [] -> foldr Rplus 0 (softmax w) = 1.
Proof.
  intros Hw. unfold softmax. pose proof (sum_exp_pos w Hw) as Hs.
  set (s := foldr Rplus 0 (exp <$> w)) in *.
  assert (Heq : (fun a => exp a / s) <$> w
                = (fun e => e / s) <$> (exp <$> w))
    by (by rewrite <- list_fmap_compose).
  rewrite Heq, sum_div. fold s. field. lra.
Qed.

Lemma softmax_length (w : list R) : length (softmax w) = length w.
Proof. unfold softmax. by rewrite length_fmap. Qed.

Lemma cumsum_from_length acc (w : list R) :
  length (cumsum_from acc w) = length w.
Proof.
  revert acc. induction w as [|a w IH]; intros acc; [done|].
  simpl. by rewrite IH.
Qed.

Lemma cumsum_from_last acc (w : list R) :
  last (acc :: cumsum_from acc w) = Some (acc + foldr Rplus 0 w).
Proof.
  revert acc. induction w as [|a w IH]; intros acc.
  - simpl. f_equal. lra.
  - cbn [cumsum_from foldr]. rewrite last_cons_cons, IH. f_equal. lra.
Qed.

Lemma cumsum_from_increasing acc (w : list R) :
  Forall (fun a => 0 < a) w -> increasing (acc :: cumsum_from acc w).
Proof.
  intros Hw. revert acc.
  induction Hw as [|a w Ha _ IH]; intros acc i x y Hx Hy.
  - by destruct i.
  - destruct i as [|i].
    + injection Hx as <-. injection Hy as <-. lra.
    + apply (IH (acc + a) i); done.
Qed.

(** A fibre of coordinates: it starts at [lim0], increases strictly, and
    with at least one weight it ends at [lim0 + width]. *)
Lemma coord_fibre (width lim0 : R) (w : list R) :
  0 < width ->
  let knots := (fun c => c * width + lim0) <$> (0 :: cumsum (softmax w)) in
  head knots = Some lim0 /\ increasing knots /\
  length knots = S (length w) /\
  (w <> [] -> last knots = Some (lim0 + width)).
Proof.
  intros Hwidth knots. subst knots. split; [|split; [|split]].
  - simpl. f_equal. lra.
  - intros i a c Ha Hc. rewrite list_lookup_fmap in Ha, Hc.
    destruct ((0 :: cumsum (softmax w)) !! i) as [a0|] eqn:Ha0; [|done].
    destruct ((0 :: cumsum (softmax w)) !! S i) as [c0|] eqn:Hc0; [|done].
    injection Ha as <-. injection Hc as <-.
    pose proof (cumsum_from_increasing 0 (softmax w) (softmax_pos w)
                  i a0 c0 Ha0 Hc0) as Hlt.
    apply Rplus_lt_compat_r. by apply Rmult_lt_compat_r.
  - rewrite length_fmap. cbn [length]. unfold cumsum.
    by rewrite cumsum_from_length, softmax_length.
  - intros Hw. rewrite fmap_last. unfold cumsum.
    rewrite cumsum_from_last, softmax_sum by done. simpl. f_equal. lra.
Qed.

Lemma split_spec (out : channelled) (sizes : list Z) :
  split out sizes
  = if decide (Forall (fun z => (0 <= z)%Z) sizes /\
               foldr Z.add 0%Z sizes = Z.of_nat (size out))
    then inr (pieces (Z.to_nat <$> sizes) (fibres out))
    else inl RuntimeError.
Proof.
  unfold split.
  destruct (forallb (Z.leb 0) sizes) eqn:Hpos; cbn [andb].
  - destruct (foldr Z.add 0%Z sizes =? Z.of_nat (size out))%Z eqn:Hsum.
    + apply Z.eqb_eq in Hsum. rewrite decide_True; [done|].
      split; [|done]. apply Forall_forall. intros z Hz.
      rewrite forallb_forall in Hpos. apply Z.leb_le, Hpos.
      by apply list_elem_of_In.
    + apply Z.eqb_neq in Hsum. rewrite decide_False; [done|]. by intros [_ ?].
  - rewrite decide_False; [done|]. intros [Hall _].
    assert (forallb (Z.leb 0) sizes = true); [|congruence].
    apply forallb_forall. intros z Hz. apply Z.leb_le.
    rewrite Forall_forall in Hall. by apply Hall, list_elem_of_In.
Qed.

Lemma coords_length (width lim0 : R) (k : nat) (x : tensor R) :
  Forall (fun w => length w = k) x ->
  Forall (fun knots => length knots = S k) (scale width lim0 (to_coord x)).
Proof.
  intros Hx. unfold scale, to_coord. rewrite <- list_fmap_compose.
  apply Forall_fmap. eapply Forall_impl; [exact Hx|]. simpl.
  intros w Hw. rewrite length_fmap. cbn [length]. unfold cumsum.
  by rewrite cumsum_from_length, softmax_length, Hw.
Qed.

Lemma deriv_length (k : nat) (x : tensor R) :
  Forall (fun w => length w = k) x ->
  Forall (fun d => length d = k) (to_deriv x).
Proof.
  intros Hx. unfold to_deriv. apply Forall_fmap.
  eapply Forall_impl; [exact Hx|]. simpl. intros w Hw.
  by rewrite length_fmap.
Qed.

Lemma rows_take_drop (n a k : nat) (x : tensor R) :
  Forall (fun w => length w = n) x -> (a + k <= n)%nat ->
  Forall (fun w => length w = k)
    ((fun w : list R => take k w) <$> ((fun w : list R => drop a w) <$> x)).
Proof.
  intros Hx Hle. rewrite <- list_fmap_compose. apply Forall_fmap.
  eapply Forall_impl; [exact Hx|]. simpl. intros w Hw.
  rewrite length_take, length_drop. lia.
Qed.

Lemma rows_drop (n a : nat) (x : tensor R) :
  Forall (fun w => length w = n) x ->
  Forall (fun w => length w = (n - a)%nat) ((fun w : list R => drop a w) <$> x).
Proof.
  intros Hx. apply Forall_fmap. eapply Forall_impl; [exact Hx|]. simpl.
  intros w Hw. rewrite length_drop. lia.
Qed.

Lemma rows_take (n k : nat) (x : tensor R) :
  Forall (fun w => length w = n) x -> (k <= n)%nat ->
  Forall (fun w => length w = k) ((fun w : list R => take k w) <$> x).
Proof.
  intros Hx Hle. apply Forall_fmap. eapply Forall_impl; [exact Hx|]. simpl.
  intros w Hw. rewrite length_take. lia.
Qed.

(** How [make_spline] reads the channels of [out]: when it returns, and
    how many knots it then makes. *)
Lemma make_spline_arity (self : t) (out : channelled) :
  well_formed out ->
  let n := size out in
  match knots_x self, knots_y self with
  | None, None =>
      if decide (n `mod` 3 = 1)%nat
      then exists kw,
             make_spline self out = inr kw /\
             Forall (fun w => length w = (n + 2) `div` 3)%nat (kw_knots_x kw) /\
             Forall (fun w => length w = (n + 2) `div` 3)%nat (kw_knots_y kw) /\
             Forall (fun w => length w = (n + 2) `div` 3)%nat (kw_knots_d kw)
      else make_spline self out = inl RuntimeError
  | Some kx, None =>
      if decide (n `mod` 2 = 1)%nat
      then exists kw,
             make_spline self out = inr kw /\ kw_knots_x kw = kx /\
             Forall (fun w => length w = (n + 2) `div` 2)%nat (kw_knots_y kw) /\
             Forall (fun w => length w = (n + 2) `div` 2)%nat (kw_knots_d kw)
      else make_spline self out = inl RuntimeError
  | None, Some ky =>
      if decide (n `mod` 2 = 1)%nat
      then exists kw,
             make_spline self out = inr kw /\ kw_knots_y kw = ky /\
             Forall (fun w => length w = (n + 2) `div` 2)%nat (kw_knots_x kw) /\
             Forall (fun w => length w = (n + 2) `div` 2)%nat (kw_knots_d kw)
      else make_spline self out = inl RuntimeError
  | Some kx, Some ky =>
      exists kw,
        make_spline self out = inr kw /\
        kw_knots_x kw = kx /\ kw_knots_y kw = ky /\
        Forall (fun w => length w = n) (kw_knots_d kw)
  end.
Proof.
  intros Hwf n. unfold well_formed in Hwf. fold n in Hwf.
  unfold make_spline. fold n.
  destruct (knots_x self) as [kx|], (knots_y self) as [ky|].
  - eexists. split; [reflexivity|]. cbn [kw_knots_x kw_knots_y kw_knots_d].
    split; [done|]. split; [done|]. by apply deriv_length.
  - rewrite split_spec.
    set (m := ((Z.of_nat n + 2) / 2)%Z).
    assert (Hm : m = Z.of_nat ((n + 2) `div` 2))
      by (subst m; by rewrite Nat2Z.inj_div, Nat2Z.inj_add).
    pose proof (Nat.div_mod_eq (n + 2) 2) as Hd1.
    pose proof (Nat.mod_upper_bound (n + 2) 2 ltac:(lia)) as Hd2.
    pose proof (Nat.div_mod_eq n 2) as Hd3.
    pose proof (Nat.mod_upper_bound n 2 ltac:(lia)) as Hd4.
    clearbody m.
    destruct (decide (n `mod` 2 = 1)%nat) as [Hn|Hn].
    + rewrite decide_True.
      2:{ split; [repeat (apply Forall_cons_2; [lia|]); apply Forall_nil_2|].
          cbn [foldr]. lia. }
      cbn [mbind py_bind fmap list_fmap pieces].
      eexists. split; [reflexivity|].
      cbn [kw_knots_x kw_knots_y kw_knots_d]. split; [done|].
      split.
      * replace ((n + 2) `div` 2)%nat with (S (Z.to_nat (m - 1))) by lia.
        apply coords_length, (rows_take n); [done|lia].
      * apply deriv_length.
        replace ((n + 2) `div` 2)%nat with (Z.to_nat m) by lia.
        apply (rows_take_drop n); [done|lia].
    + rewrite decide_False; [done|]. cbn [foldr]. intros [_ Hsum]. lia.
  - rewrite split_spec.
    set (m := ((Z.of_nat n + 2) / 2)%Z).
    assert (Hm : m = Z.of_nat ((n + 2) `div` 2))
      by (subst m; by rewrite Nat2Z.inj_div, Nat2Z.inj_add).
    pose proof (Nat.div_mod_eq (n + 2) 2) as Hd1.
    pose proof (Nat.mod_upper_bound (n + 2) 2 ltac:(lia)) as Hd2.
    pose proof (Nat.div_mod_eq n 2) as Hd3.
    pose proof (Nat.mod_upper_bound n 2 ltac:(lia)) as Hd4.
    clearbody m.
    destruct (decide (n `mod` 2 = 1)%nat) as [Hn|Hn].
    + rewrite decide_True.
      2:{ split; [repeat (apply Forall_cons_2; [lia|]); apply Forall_nil_2|].
          cbn [foldr]. lia. }
      cbn [mbind py_bind fmap list_fmap pieces].
      eexists. split; [reflexivity|].
      cbn [kw_knots_x kw_knots_y kw_knots_d]. split; [done|].
      split.
      * replace ((n + 2) `div` 2)%nat with (S (Z.to_nat (m - 1))) by lia.
        apply coords_length, (rows_take n); [done|lia].
      * apply deriv_length.
        replace ((n + 2) `div` 2)%nat with (Z.to_nat m) by lia.
        apply (rows_take_drop n); [done|lia].
    + rewrite decide_False; [done|]. cbn [foldr]. intros [_ Hsum]. lia.
  - rewrite split_spec.
    set (m := ((Z.of_nat n + 2) / 3)%Z).
    assert (Hm : m = Z.of_nat ((n + 2) `div` 3))
      by (subst m; by rewrite Nat2Z.inj_div, Nat2Z.inj_add).
    pose proof (Nat.div_mod_eq (n + 2) 3) as Hd1.
    pose proof (Nat.mod_upper_bound (n + 2) 3 ltac:(lia)) as Hd2.
    pose proof (Nat.div_mod_eq n 3) as Hd3.
    pose proof (Nat.mod_upper_bound n 3 ltac:(lia)) as Hd4.
    clearbody m.
    destruct (decide (n `mod` 3 = 1)%nat) as [Hn|Hn].
    + rewrite decide_True.
      2:{ split; [repeat (apply Forall_cons_2; [lia|]); apply Forall_nil_2|].
          cbn [foldr]. lia. }
      cbn [mbind py_bind fmap list_fmap pieces].
      eexists. split; [reflexivity|].
      cbn [kw_knots_x kw_knots_y kw_knots_d].
      split; [|split].
      * replace ((n + 2) `div` 3)%nat with (S (Z.to_nat (m - 1))) by lia.
        apply coords_length, (rows_take n); [done|lia].
      * replace ((n + 2) `div` 3)%nat with (S (Z.to_nat (m - 1))) by lia.
        apply coords_length, (rows_take_drop n); [done|lia].
      * apply deriv_length.
        replace ((n + 2) `div` 3)%nat with (Z.to_nat m) by lia.
        apply Forall_fmap, Forall_fmap, Forall_fmap.
        eapply Forall_impl; [exact Hwf|]. simpl. intros w Hw.
        rewrite length_take, !length_drop. lia.
    + rewrite decide_False; [done|]. cbn [foldr]. intros [Hpos Hsum].
      apply Forall_cons in Hpos as [Hp1 _]. lia.
Qed.

(** X20.  How [make_spline] reads the channels of [out].  With no knots
    fixed a spline of [m] knots takes [3 m - 2] channels: [make_spline]
    returns exactly when the number [n] of channels leaves the remainder
    [1] on division by [3], and raises the [RuntimeError] of [split]
    otherwise ([n = 0] included); with the knots of one coordinate fixed
    it returns exactly when [n] is odd; with both fixed it always returns,
    every channel a derivative.  What it returns has, at every position,
    [m = (n + 2) // 3], respectively [(n + 2) // 2], knots in every computed
    coordinate and as many derivatives, and passes fixed knots on as they
    are. *)
Theorem make_spline_partition (self : t) (out : channelled) :
  well_formed out ->
  let n := size out in
  match knots_x self, knots_y self with
  | None, None =>
      if decide (n `mod` 3 = 1)%nat
      then exists kw,
             make_spline self out = inr kw /\
             Forall (fun w => length w = (n + 2) `div` 3)%nat (kw_knots_x kw) /\
             Forall (fun w => length w = (n + 2) `div` 3)%nat (kw_knots_y kw) /\
             Forall (fun w => length w = (n + 2) `div` 3)%nat (kw_knots_d kw)
      else make_spline self out = inl RuntimeError
  | Some kx, None =>
      if decide (n `mod` 2 = 1)%nat
      then exists kw,
             make_spline self out = inr kw /\ kw_knots_x kw = kx /\
             Forall (fun w => length w = (n + 2) `div` 2)%nat (kw_knots_y kw) /\
             Forall (fun w => length w = (n + 2) `div` 2)%nat (kw_knots_d kw)
      else make_spline self out = inl RuntimeError
  | None, Some ky =>
      if decide (n `mod` 2 = 1)%nat
      then exists kw,
             make_spline self out = inr kw /\ kw_knots_y kw = ky /\
             Forall (fun w => length w = (n + 2) `div` 2)%nat (kw_knots_x kw) /\
             Forall (fun w => length w = (n + 2) `div` 2)%nat (kw_knots_d kw)
      else make_spline self out = inl RuntimeError
  | Some kx, Some ky =>
      exists kw,
        make_spline self out = inr kw /\
        kw_knots_x kw = kx /\ kw_knots_y kw = ky /\
        Forall (fun w => length w = n) (kw_knots_d kw)
  end.
Proof. apply make_spline_arity. Qed.

(** Seven channels at one position, no knots fixed: three knots. *)
Lemma make_spline_partition_witness :
  exists kw,
    make_spline (mk (0, 1) (0, 1) None None)
      (mk_channelled 7 [[1; 2; 3; 4; 5; 6; 7]]) = inr kw /\
    Forall (fun w => length w = 3%nat) (kw_knots_x kw) /\
    Forall (fun w => length w = 3%nat) (kw_knots_y kw) /\
    Forall (fun w => length w = 3%nat) (kw_knots_d kw).
Proof.
  apply (make_spline_partition (mk (0, 1) (0, 1) None None)
           (mk_channelled 7 [[1; 2; 3; 4; 5; 6; 7]])).
  repeat constructor.
Defined.

(** What [make_spline] returns is made of parts of [out]: entries of [out]
    put through [to_coord] and the scaling, or through [to_deriv]. *)
Lemma make_spline_parts (self : t) (out : channelled) (kw : kwargs) :
  make_spline self out = inr kw ->
  (knots_x self = None ->
   exists x_, kw_knots_x kw
              = scale (xwidth self) (xlim self).1 (to_coord x_)) /\
  (knots_y self = None ->
   exists y_, kw_knots_y kw
              = scale (ywidth self) (ylim self).1 (to_coord y_)) /\
  exists d_, kw_knots_d kw = to_deriv d_ /\
    forall P : R -> Prop,
      Forall (Forall P) (fibres out) -> Forall (Forall P) d_.
Proof.
  assert (Hdrop : forall (P : R -> Prop) a (x : tensor R),
    Forall (Forall P) x ->
    Forall (Forall P) ((fun w : list R => drop a w) <$> x)).
  { intros P a x Hx. apply Forall_fmap. eapply Forall_impl; [exact Hx|].
    simpl. intros w Hw. by apply Forall_drop. }
  assert (Htake : forall (P : R -> Prop) a (x : tensor R),
    Forall (Forall P) x ->
    Forall (Forall P) ((fun w : list R => take a w) <$> x)).
  { intros P a x Hx. apply Forall_fmap. eapply Forall_impl; [exact Hx|].
    simpl. intros w Hw. by apply Forall_take. }
  unfold make_spline.
  destruct (knots_x self) as [kx|], (knots_y self) as [ky|].
  - intros [= <-]. split; [done|]. split; [done|].
    exists (fibres out). split; [done|]. auto.
  - destruct (split out _) as [e|parts] eqn:Hsplit; [done|].
    rewrite split_spec in Hsplit. destruct (decide _); [|done].
    injection Hsplit as <-. cbn [mbind py_bind fmap list_fmap pieces].
    intros [= <-]. split; [done|]. split; [intros _; by eexists|].
    eexists. split; [reflexivity|]. intros P HP. by apply Htake, Hdrop.
  - destruct (split out _) as [e|parts] eqn:Hsplit; [done|].
    rewrite split_spec in Hsplit. destruct (decide _); [|done].
    injection Hsplit as <-. cbn [mbind py_bind fmap list_fmap pieces].
    intros [= <-]. split; [intros _; by eexists|]. split; [done|].
    eexists. split; [reflexivity|]. intros P HP. by apply Htake, Hdrop.
  - destruct (split out _) as [e|parts] eqn:Hsplit; [done|].
    rewrite split_spec in Hsplit. destruct (decide _); [|done].
    injection Hsplit as <-. cbn [mbind py_bind fmap list_fmap pieces].
    intros [= <-]. split; [intros _; by eexists|].
    split; [intros _; by eexists|].
    eexists. split; [reflexivity|]. intros P HP.
    by apply Htake, Hdrop, Hdrop.
Qed.

Lemma coords_valid (width lim0 lim1 : R) (x : tensor R) :
  lim0 < lim1 -> width = lim1 - lim0 ->
  Forall (fun knots =>
            head knots = Some lim0 /\ increasing knots /\
            ((2 <= length knots)%nat -> last knots = Some lim1))
         (scale width lim0 (to_coord x)).
Proof.
  intros Hlim ->. unfold scale, to_coord. rewrite <- list_fmap_compose.
  apply Forall_fmap, Forall_true. intros w. unfold compose. cbv beta.
  pose proof (coord_fibre (lim1 - lim0) lim0 w ltac:(lra)) as Hfibre.
  cbv zeta in Hfibre. destruct Hfibre as (Hhead & Hinc & Hlen & Hlast).
  split; [exact Hhead|]. split; [exact Hinc|]. intros H2.
  rewrite Hlast.
  - f_equal. lra.
  - intros ->. rewrite Hlen in H2. simpl in H2. lia.
Qed.

(** X21.  The knots [make_spline] computes are those of a spline: along the
    channels axis, at every position, the knots of a computed coordinate
    start at the lower limit, increase strictly, and (there being at least
    two of them) end at the upper limit, for limits [lim[0] < lim[1]]; and
    all the derivatives are positive. *)
Theorem make_spline_knots (self : t) (out : channelled) (kw : kwargs) :
  make_spline self out = inr kw ->
  (knots_x self = None -> (xlim self).1 < (xlim self).2 ->
   Forall (fun knots =>
             head knots = Some (xlim self).1 /\ increasing knots /\
             ((2 <= length knots)%nat -> last knots = Some (xlim self).2))
          (kw_knots_x kw)) /\
  (knots_y self = None -> (ylim self).1 < (ylim self).2 ->
   Forall (fun knots =>
             head knots = Some (ylim self).1 /\ increasing knots /\
             ((2 <= length knots)%nat -> last knots = Some (ylim self).2))
          (kw_knots_y kw)) /\
  Forall (Forall (fun d => 0 < d)) (kw_knots_d kw).
Proof.
  intros Hkw.
  destruct (make_spline_parts self out kw Hkw) as (Hx & Hy & d_ & Hd & _).
  split; [|split].
  - intros Hnone Hlim. destruct (Hx Hnone) as [x_ ->].
    by apply coords_valid.
  - intros Hnone Hlim. destruct (Hy Hnone) as [y_ ->].
    by apply coords_valid.
  - rewrite Hd. unfold to_deriv. apply Forall_fmap, Forall_true.
    intros w. simpl. apply Forall_fmap, Forall_true. intros a. simpl.
    apply softplus_pos.
Qed.

(** Seven channels at one position: three knots in each coordinate. *)
Lemma make_spline_knots_witness :
  exists kw,
    make_spline (mk (0, 1) (0, 1) None None)
      (mk_channelled 7 [[1; 2; 3; 4; 5; 6; 7]]) = inr kw /\
    Forall (fun knots =>
              head knots = Some 0 /\ increasing knots /\
              ((2 <= length knots)%nat -> last knots = Some 1))
           (kw_knots_x kw) /\
    Forall (Forall (fun d => 0 < d)) (kw_knots_d kw).
Proof.
  eexists. split; [reflexivity|].
  match goal with
  | |- Forall _ (kw_knots_x ?kw) /\ _ =>
      destruct (make_spline_knots (mk (0, 1) (0, 1) None None)
                  (mk_channelled 7 [[1; 2; 3; 4; 5; 6; 7]]) kw eq_refl)
        as (Hx & _ & Hd)
  end.
  split; [|exact Hd]. apply Hx; [reflexivity|]. simpl. lra.
Defined.

(** X22.  An [out] of zeros, as a net whose last layer is initialised to
    zero returns it: every derivative is one, and with no knots fixed and
    the same limits for both coordinates the knots of [y] are those of
    [x], the data of the identity map. *)
Theorem make_spline_zero (self : t) (out : channelled) (kw : kwargs) :
  well_formed out ->
  Forall (Forall (fun a => a = 0)) (fibres out) ->
  make_spline self out = inr kw ->
  Forall (Forall (fun d => d = 1)) (kw_knots_d kw) /\
  (knots_x self = None -> knots_y self = None -> xlim self = ylim self ->
   kw_knots_x kw = kw_knots_y kw).
Proof.
  intros Hwf Hzero Hkw.
  destruct (make_spline_parts self out kw Hkw) as (_ & _ & d_ & Hd & HP).
  split.
  - rewrite Hd. unfold to_deriv. apply Forall_fmap.
    eapply Forall_impl; [exact (HP _ Hzero)|]. simpl. intros w Hw.
    apply Forall_fmap. eapply Forall_impl; [exact Hw|]. simpl.
    intros a ->. apply softplus_0.
  - intros Hx Hy Hlim. revert Hkw. unfold make_spline. rewrite Hx, Hy.
    rewrite split_spec. destruct (decide _) as [[Hpos Hsum]|]; [|done].
    cbn [mbind py_bind fmap list_fmap pieces]. intros [= <-].
    cbn [kw_knots_x kw_knots_y]. unfold xwidth, ywidth. rewrite Hlim.
    do 2 f_equal. rewrite <- list_fmap_compose.
    apply Forall_fmap_ext_1.
    unfold well_formed in Hwf.
    assert (Hrows : Forall (fun w => length w = size out /\
                                     Forall (fun a => a = 0) w) (fibres out)).
    { apply Forall_and. split; done. }
    eapply Forall_impl; [exact Hrows|]. simpl. intros w [Hlen Hw].
    set (a := Z.to_nat ((Z.of_nat (size out) + 2) `div` 3 - 1)) in *.
    assert (Ha : (a + a <= size out)%nat).
    { cbn [foldr] in Hsum. apply Forall_cons in Hpos as [Hp1 _].
      subst a. lia. }
    assert (Hrep : w = replicate (size out) 0).
    { rewrite <- Hlen. clear -Hw.
      induction Hw as [|c w -> _ IH]; [done|]. simpl. by rewrite <- IH. }
    rewrite Hrep, drop_replicate, !take_replicate. f_equal. lia.
Qed.

(** Four channels of zeros at one position. *)
Lemma make_spline_zero_witness :
  exists kw,
    make_spline (mk (0, 1) (0, 1) None None)
      (mk_channelled 4 [[0; 0; 0; 0]]) = inr kw /\
    Forall (Forall (fun d => d = 1)) (kw_knots_d kw) /\
    kw_knots_x kw = kw_knots_y kw.
Proof.
  eexists. split; [reflexivity|].
  match goal with
  | |- Forall _ (kw_knots_d ?kw) /\ _ =>
      destruct (make_spline_zero (mk (0, 1) (0, 1) None None)
                  (mk_channelled 4 [[0; 0; 0; 0]]) kw
                  ltac:(repeat constructor) ltac:(repeat constructor)
                  eq_refl)
        as (Hd & Hxy)
  end.
  split; [exact Hd|]. by apply Hxy.
Defined.

End SplineFacts.

(** ** The symmetry under a global change of sign *)

Section SignFacts.

Import Couplings.
Open Scope R_scope.

Lemma neg_length (x : tensor R) : length (neg x) = length x.
Proof. unfold neg, tensor_map. by rewrite length_fmap. Qed.

Lemma rowsM_neg (f : list R -> py (list R)) :
  (forall r, f (Ropp <$> r) = py_map (fmap Ropp) (f r)) ->
  forall x, rowsM f (neg x) = py_map neg (rowsM f x).
Proof.
  intros Hf x. unfold rowsM, neg, tensor_map.
  induction x as [|r x IH]; [done|].
  cbn [fmap list_fmap mapM]. cbn [fmap] in IH. rewrite Hf.
  destruct (f r) as [e|o]; [done|]. cbn [py_map mbind py_bind].
  rewrite IH. by destruct (mapM f x).
Qed.

Lemma rows2M_neg (f : list R -> list R -> py (list R)) :
  (forall r q, f (Ropp <$> r) (Ropp <$> q) = py_map (fmap Ropp) (f r q)) ->
  forall x y, rows2M f (neg x) (neg y) = py_map neg (rows2M f x y).
Proof.
  intros Hf x. unfold neg, tensor_map.
  induction x as [|r x IH]; intros [|q y]; try done.
  cbn [fmap list_fmap rows2M]. cbn [fmap] in IH. rewrite Hf.
  destruct (f r q) as [e|o]; [done|]. cbn [py_map mbind py_bind].
  rewrite IH. by destruct (rows2M f x y).
Qed.

Lemma rows2M_neg_l (f : list R -> list R -> py (list R)) :
  (forall r q, f (Ropp <$> r) q = py_map (fmap Ropp) (f r q)) ->
  forall x y, rows2M f (neg x) y = py_map neg (rows2M f x y).
Proof.
  intros Hf x. unfold neg, tensor_map.
  induction x as [|r x IH]; intros [|q y]; try done.
  cbn [fmap list_fmap rows2M]. cbn [fmap] in IH. rewrite Hf.
  destruct (f r q) as [e|o]; [done|]. cbn [py_map mbind py_bind].
  rewrite IH. by destruct (rows2M f x y).
Qed.

Lemma zip_with_neg_r {A} (g : A -> R -> R) (m : list A) (r : list R) :
  (forall z a, g z (- a) = - g z a) ->
  zip_with g m (Ropp <$> r) = Ropp <$> zip_with g m r.
Proof.
  intros Hg. revert r. induction m as [|z m IH]; intros [|a r]; try done.
  cbn [fmap list_fmap zip_with]. cbn [fmap] in IH. by rewrite Hg, IH.
Qed.

Lemma zip_with_neg_l {B} (g : R -> B -> R) (r : list R) (q : list B) :
  (forall a c, g (- a) c = - g a c) ->
  zip_with g (Ropp <$> r) q = Ropp <$> zip_with g r q.
Proof.
  intros Hg. revert q. induction r as [|a r IH]; intros [|c q]; try done.
  cbn [fmap list_fmap zip_with]. cbn [fmap] in IH. by rewrite Hg, IH.
Qed.

Lemma zip_with_neg (g : R -> R -> R) (r q : list R) :
  (forall a c, g (- a) (- c) = - g a c) ->
  zip_with g (Ropp <$> r) (Ropp <$> q) = Ropp <$> zip_with g r q.
Proof.
  intros Hg. revert q. induction r as [|a r IH]; intros [|c q]; try done.
  cbn [fmap list_fmap zip_with]. cbn [fmap] in IH. by rewrite Hg, IH.
Qed.

Lemma zip_same_neg_r {A} (g : A -> R -> R) (m : list A) (r : list R) :
  (forall z a, g z (- a) = - g z a) ->
  zip_same g m (Ropp <$> r) = py_map (fmap Ropp) (zip_same g m r).
Proof.
  intros Hg. unfold zip_same. rewrite length_fmap.
  destruct (length m =? length r)%nat; [|done].
  cbn [py_map mret py_ret]. by rewrite zip_with_neg_r.
Qed.

Lemma zip_same_neg_l (g : R -> R -> R) (r q : list R) :
  (forall a c, g (- a) c = - g a c) ->
  zip_same g (Ropp <$> r) q = py_map (fmap Ropp) (zip_same g r q).
Proof.
  intros Hg. unfold zip_same. rewrite length_fmap.
  destruct (length r =? length q)%nat; [|done].
  cbn [py_map mret py_ret]. by rewrite zip_with_neg_l.
Qed.

Lemma zip_same_neg (g : R -> R -> R) (r q : list R) :
  (forall a c, g (- a) (- c) = - g a c) ->
  zip_same g (Ropp <$> r) (Ropp <$> q) = py_map (fmap Ropp) (zip_same g r q).
Proof.
  intros Hg. unfold zip_same. rewrite !length_fmap.
  destruct (length r =? length q)%nat; [|done].
  cbn [py_map mret py_ret]. by rewrite zip_with_neg.
Qed.

Lemma tensor_map2_neg (g : R -> R -> R) (x y : tensor R) :
  (forall a c, g (- a) (- c) = - g a c) ->
  tensor_map2 g (neg x) (neg y) = py_map neg (tensor_map2 g x y).
Proof.
  intros Hg. unfold tensor_map2. apply rows2M_neg.
  intros r q. by apply zip_same_neg.
Qed.

Lemma tensor_map2_neg_l (g : R -> R -> R) (x y : tensor R) :
  (forall a c, g (- a) c = - g a c) ->
  tensor_map2 g (neg x) y = py_map neg (tensor_map2 g x y).
Proof.
  intros Hg. unfold tensor_map2. apply rows2M_neg_l.
  intros r q. by apply zip_same_neg_l.
Qed.

Lemma mask_mul_neg (m : list Z) (x : tensor R) :
  Mask.mask_mul m (neg x) = py_map neg (Mask.mask_mul m x).
Proof.
  unfold Mask.mask_mul. apply rowsM_neg. intros r.
  apply zip_same_neg_r. intros z a. ring.
Qed.

Lemma select_fmap {A B} (g : A -> B) (m : list Z) v (r : list A) :
  Mask.select m v (g <$> r) = g <$> Mask.select m v r.
Proof.
  revert r. induction m as [|z m IH]; intros [|a r]; try done.
  cbn [fmap list_fmap Mask.select]. cbn [fmap] in IH. rewrite IH.
  by destruct (z =? v)%Z.
Qed.

Lemma split_neg (m : Mask.t) (x : tensor R) :
  Mask.split m (neg x)
  = py_map (fun p => (neg p.1, neg p.2)) (Mask.split m x).
Proof.
  unfold Mask.split. destruct (Mask.keepshape m).
  - unfold Mask._sameshape_split. rewrite !mask_mul_neg.
    destruct (Mask.mask_mul (Mask.one_minus (Mask.mask m)) x) as [e|x0];
      [done|].
    cbn [py_map mbind py_bind].
    by destruct (Mask.mask_mul (Mask.mask m) x).
  - unfold Mask._anothershape_split.
    assert (Hpick : forall v,
      rowsM (fun r : list R =>
               if (length r =? length (Mask.mask m))%nat
               then mret (Mask.select (Mask.mask m) v r)
               else raise RuntimeError) (neg x)
      = py_map neg
          (rowsM (fun r : list R =>
                    if (length r =? length (Mask.mask m))%nat
                    then mret (Mask.select (Mask.mask m) v r)
                    else raise RuntimeError) x)).
    { intros v. apply rowsM_neg. intros r. rewrite length_fmap.
      destruct (length r =? length (Mask.mask m))%nat; [|done].
      cbn [py_map mret py_ret]. by rewrite select_fmap. }
    rewrite !Hpick.
    generalize (rowsM (fun r : list R =>
                  if (length r =? length (Mask.mask m))%nat
                  then mret (Mask.select (Mask.mask m) 0%Z r)
                  else raise RuntimeError) x).
    generalize (rowsM (fun r : list R =>
                  if (length r =? length (Mask.mask m))%nat
                  then mret (Mask.select (Mask.mask m) 1%Z r)
                  else raise RuntimeError) x).
    by intros [e1|x1] [e0|x0].
Qed.

Lemma purify_neg (m : Mask.t) (x : tensor R) c :
  Mask.purify m (neg x) c false = py_map neg (Mask.purify m x c false).
Proof.
  unfold Mask.purify. destruct (Mask.keepshape m); [|done].
  unfold Mask._sameshape_purify. cbn [negb].
  destruct (c =? 0)%nat; apply mask_mul_neg.
Qed.

Lemma assign_neg (m : list Z) (v : Z) :
  forall base src : list R,
    Mask.assign (Ropp <$> base) m v (Ropp <$> src)
    = py_map (fmap Ropp) (Mask.assign base m v src).
Proof.
  induction m as [|z m IH]; intros [|a base] src; try done.
  - by destruct src.
  - cbn [fmap list_fmap Mask.assign]. destruct (z =? v)%Z.
    + destruct src as [|c src]; [done|]. cbn [fmap list_fmap].
      cbn [fmap] in IH. rewrite IH.
      by destruct (Mask.assign base m v src).
    + cbn [fmap] in IH. rewrite IH.
      by destruct (Mask.assign base m v src).
Qed.

Lemma cat_neg (m : Mask.t) (x_0 x_1 : tensor R) :
  Mask.cat m (neg x_0) (neg x_1) = py_map neg (Mask.cat m x_0 x_1).
Proof.
  unfold Mask.cat. destruct (Mask.keepshape m).
  - unfold Mask._sameshape_cat. apply tensor_map2_neg. intros a c. ring.
  - unfold Mask._anothershape_cat.
    destruct (Mask.cat_mask m) as [cm|]; [|done]. cbn [mbind py_bind].
    apply rows2M_neg. intros r q.
    assert (Hempty : replicate (Mask.numel (Mask.shape m)) 0
                     = Ropp <$> replicate (Mask.numel (Mask.shape m)) 0).
    { rewrite fmap_replicate. f_equal. ring. }
    rewrite Hempty at 1. rewrite assign_neg.
    destruct (Mask.assign _ cm 0%Z r) as [e|o]; [done|].
    cbn [py_map mbind py_bind]. apply assign_neg.
Qed.

Lemma abs_neg (x : tensor R) : tensor_map Rabs (neg x) = tensor_map Rabs x.
Proof.
  unfold neg, tensor_map. rewrite <- list_fmap_compose.
  apply list_fmap_ext. intros _ r _. simpl.
  rewrite <- list_fmap_compose. apply list_fmap_ext. intros _ a _. simpl.
  apply Rabs_Ropp.
Qed.

Lemma item_neg p (x : tensor R * tensor R) :
  item p (neg x.1, neg x.2) = neg (item p x).
Proof. unfold item. by destruct (p =? 0)%nat. Qed.

Lemma set_item_neg p (x : tensor R * tensor R) (y : tensor R) :
  set_item p (neg x.1, neg x.2) (neg y)
  = (neg (set_item p x y).1, neg (set_item p x y).2).
Proof. unfold set_item. by destruct (p =? 0)%nat. Qed.

(** The state of the loops with the sign of both channels changed. *)
Local Abbreviation neg_state :=
  (fun st : state => (neg st.1.1, neg st.1.2, st.2)).

Local Abbreviation neg_result :=
  (fun yl : tensor R * logval => (neg yl.1, yl.2)).

Lemma shift_atomic_neg (op : R -> R -> R) (self : t) xa xf p (f : net) l :
  (forall a c, op (- a) (- c) = - op a c) ->
  odd_net f ->
  shift_atomic op self (neg xa) (neg <$> xf) p f l
  = py_map neg_result (shift_atomic op self xa xf p f l).
Proof.
  intros Hop Hodd. unfold shift_atomic.
  destruct xf as [xf|]; [|done]. cbn [fmap option_fmap option_map].
  cbn [preprocess_fz mbind py_bind mret py_ret]. rewrite Hodd.
  destruct (f xf) as [|x_t [|? ?]]; try done.
  cbn [fmap list_fmap postprocess mbind py_bind mret py_ret].
  rewrite tensor_map2_neg by done.
  destruct (tensor_map2 op xa x_t) as [e|y]; [done|].
  cbn [py_map mbind py_bind]. rewrite purify_neg.
  by destruct (Mask.purify (mask self) y p false).
Qed.

Lemma affine_forward_neg (self : t) xa xf p (f : net) l :
  zee2sym self = true -> odd_net f ->
  affine_atomic_forward self (neg xa) (neg <$> xf) p f l
  = py_map neg_result (affine_atomic_forward self xa xf p f l).
Proof.
  intros Hz Hodd. unfold affine_atomic_forward. rewrite Hz.
  destruct xf as [xf|]; [|done]. cbn [fmap option_fmap option_map].
  cbn [preprocess_fz mbind py_bind mret py_ret]. rewrite Hodd.
  destruct (f xf) as [|x_t [|x_s [|? ?]]]; try done.
  cbn [fmap list_fmap split_1_1 mbind py_bind mret py_ret].
  rewrite !purify_neg.
  destruct (Mask.purify (mask self) x_t p false) as [e|t']; [done|].
  cbn [py_map mbind py_bind].
  destruct (Mask.purify (mask self) x_s p false) as [e|s']; [done|].
  cbn [py_map mbind py_bind]. rewrite abs_neg.
  rewrite tensor_map2_neg_l by (intros; ring).
  destruct (tensor_map2 Rmult xa _) as [e|y]; [done|].
  cbn [py_map mbind py_bind].
  rewrite tensor_map2_neg by (intros; ring).
  destruct (tensor_map2 Rplus t' y) as [e|y']; [done|].
  cbn [py_map mbind py_bind].
  by destruct (log_op Rminus l _).
Qed.

Lemma affine_backward_neg (self : t) xa xf p (f : net) l :
  zee2sym self = true -> odd_net f ->
  affine_atomic_backward self (neg xa) (neg <$> xf) p f l
  = py_map neg_result (affine_atomic_backward self xa xf p f l).
Proof.
  intros Hz Hodd. unfold affine_atomic_backward. rewrite Hz.
  destruct xf as [xf|]; [|done]. cbn [fmap option_fmap option_map].
  cbn [preprocess_fz mbind py_bind mret py_ret]. rewrite Hodd.
  destruct (f xf) as [|x_t [|x_s [|? ?]]]; try done.
  cbn [fmap list_fmap split_1_1 mbind py_bind mret py_ret].
  rewrite !purify_neg.
  destruct (Mask.purify (mask self) x_t p false) as [e|t']; [done|].
  cbn [py_map mbind py_bind].
  destruct (Mask.purify (mask self) x_s p false) as [e|s']; [done|].
  cbn [py_map mbind py_bind]. rewrite abs_neg.
  rewrite tensor_map2_neg by (intros; ring).
  destruct (tensor_map2 Rminus xa t') as [e|y]; [done|].
  cbn [py_map mbind py_bind].
  rewrite tensor_map2_neg_l by (intros; ring).
  destruct (tensor_map2 Rmult y _) as [e|y']; [done|].
  cbn [py_map mbind py_bind].
  by destruct (log_op Rplus l _).
Qed.

Lemma layer_neg (self : t) atomic k (f : net) (st : state) :
  (forall xa xf l,
     atomic (neg xa) (neg <$> xf) (k `mod` 2)%nat f l
     = py_map neg_result (atomic xa xf (k `mod` 2)%nat f l)) ->
  layer self atomic None k f (neg_state st)
  = py_map neg_state (layer self atomic None k f st).
Proof.
  intros Hat. destruct st as [x l]. cbn [fst snd].
  rewrite !layer_eq. rewrite !item_neg.
  rewrite (Hat _ (Some (item (1 - k `mod` 2) x))).
  destruct (atomic _ _ _ f l) as [e|[y l']]; [done|].
  cbn [py_map mbind py_bind mret py_ret fst snd].
  by rewrite set_item_neg.
Qed.

Lemma for_each_map {K St} (g : St -> St) (body : K -> St -> py St)
    (ks : list K) :
  Forall (fun k => forall s, body k (g s) = py_map g (body k s)) ks ->
  forall s, for_each body ks (g s) = py_map g (for_each body ks s).
Proof.
  induction 1 as [|k ks Hk _ IH]; intros s; [done|].
  cbn [for_each]. rewrite Hk. destruct (body k s) as [e|s']; [done|].
  cbn [py_map mbind py_bind]. apply IH.
Qed.



End SignFacts.

(** ** [transfer] of an engine that generates its control *)

Section CntrTransferFacts.

Import Couplings.
Open Scope R_scope.

Context {G : Type}.


End CntrTransferFacts.

(** ** The splines [MultiRQSplineList_.make_spline] builds *)

Section MultiSplineFacts.

Import Spline.
Open Scope R_scope.

Lemma pieces_wf (sizes : list nat) :
  forall (n : nat) (x : tensor R),
    Forall (fun w => length w = n) x ->
    (foldr Nat.add 0 sizes <= n)%nat ->
    Forall2 (fun s p => Forall (fun w : list R => length w = s) p)
            sizes (pieces sizes x).
Proof.
  induction sizes as [|s sizes IH]; intros n x Hx Hsum; [constructor|].
  cbn [pieces foldr] in *. constructor.
  - apply (rows_take n); [done|lia].
  - apply (IH (n - s)%nat); [by apply rows_drop|lia].
Qed.

Lemma mapM_enum_returns {A B} (l : list A) :
  forall (k : nat) (f : nat -> A -> py B) (P : nat -> A -> B -> Prop),
    (forall i a, l !! i = Some a ->
                 exists b, f (k + i)%nat a = inr b /\ P (k + i)%nat a b) ->
    exists bs,
      mapM (fun io : nat * A => f io.1 io.2)
           (imap (fun i o => ((k + i)%nat, o)) l) = inr bs /\
      length bs = length l /\
      forall i b, bs !! i = Some b ->
                  exists a, l !! i = Some a /\ P (k + i)%nat a b.
Proof.
  induction l as [|a l IH]; intros k f P Hf.
  - exists []. split; [done|]. split; [done|]. intros i b Hb. done.
  - destruct (Hf 0%nat a eq_refl) as (b & Hb & HP).
    destruct (IH (S k) f P) as (bs & Hbs & Hlen & Hall).
    { intros i a' Hi. destruct (Hf (S i) a' Hi) as (b' & Hb' & HP').
      exists b'. by replace (S k + i)%nat with (k + S i)%nat by lia. }
    exists (b :: bs). split.
    { cbn [imap mapM fst snd]. rewrite Hb. cbn [mbind py_bind].
      rewrite (imap_ext _ (fun i o => ((S k + i)%nat, o)) l).
      - by rewrite Hbs.
      - intros i x _. unfold compose. f_equal. lia. }
    split; [simpl; lia|].
    intros [|i] b' Hb'.
    + injection Hb' as <-. by exists a.
    + destruct (Hall i b' Hb') as (a' & Ha' & HP').
      exists a'. split; [done|].
      by replace (k + S i)%nat with (S k + i)%nat by lia.
Qed.

Lemma mapM_enum_raises {A B} (e : exn) (l : list A) :
  forall (k : nat) (f : nat -> A -> py B),
    (forall i a, l !! i = Some a ->
                 f (k + i)%nat a = inl e \/ exists b, f (k + i)%nat a = inr b) ->
    (exists i a, l !! i = Some a /\ f (k + i)%nat a = inl e) ->
    mapM (fun io : nat * A => f io.1 io.2)
         (imap (fun i o => ((k + i)%nat, o)) l) = inl e.
Proof.
  induction l as [|a l IH]; intros k f Hall (i & a' & Hi & Hfail); [done|].
  cbn [imap mapM fst snd].
  destruct (Hall 0%nat a eq_refl) as [H0|[b H0]]; rewrite H0; [done|].
  cbn [mbind py_bind].
  rewrite (imap_ext _ (fun i o => ((S k + i)%nat, o)) l).
  2:{ intros j x _. unfold compose. f_equal. lia. }
  rewrite (IH (S k) f); [done| |].
  - intros j x Hj. replace (S k + j)%nat with (k + S j)%nat by lia.
    by apply (Hall (S j)).
  - destruct i as [|i].
    + injection Hi as <-. congruence.
    + exists i, a'. split; [done|].
      by replace (S k + i)%nat with (k + S i)%nat by lia.
Qed.

Lemma sum_replicate (k a : nat) :
  foldr Nat.add 0%nat (replicate k a) = (k * a)%nat.
Proof. induction k as [|k IH]; [done|]. simpl. rewrite IH. lia. Qed.

Lemma sum_app (l1 l2 : list nat) :
  foldr Nat.add 0%nat (l1 ++ l2)
  = (foldr Nat.add 0 l1 + foldr Nat.add 0 l2)%nat.
Proof. induction l1 as [|a l1 IH]; [done|]. simpl. rewrite IH. lia. Qed.

(** The sections of [tensor_split]. *)
Lemma tensor_split_sections (out : channelled) (k : nat) :
  (0 < k)%nat -> well_formed out ->
  exists sections,
    MultiSpline.tensor_split out k = inr sections /\
    length sections = k /\
    forall i c, sections !! i = Some c ->
      well_formed c /\
      size c = if decide (i < size out `mod` k)%nat
               then S (size out `div` k) else (size out `div` k)%nat.
Proof.
  intros Hk Hwf. unfold MultiSpline.tensor_split.
  rewrite (proj2 (Nat.eqb_neq k 0)) by lia.
  set (q := (size out `div` k)%nat). set (r := (size out `mod` k)%nat).
  set (sizes := replicate r (S q) ++ replicate (k - r) q).
  pose proof (Nat.div_mod_eq (size out) k) as Hdm.
  pose proof (Nat.mod_upper_bound (size out) k ltac:(lia)) as Hr.
  fold q r in Hdm, Hr.
  assert (Hlen : length sizes = k).
  { unfold sizes. rewrite length_app, !length_replicate. lia. }
  assert (Hsum : (foldr Nat.add 0 sizes <= size out)%nat).
  { unfold sizes. rewrite sum_app, !sum_replicate. nia. }
  pose proof (pieces_wf sizes (size out) (fibres out) Hwf Hsum) as Hp.
  eexists. split; [reflexivity|]. split.
  { rewrite length_zip_with, <- (Forall2_length _ _ _ Hp). lia. }
  intros i c Hc.
  apply lookup_zip_with_Some in Hc as (s & p & -> & Hs & Hpi).
  cbn [size fibres]. unfold well_formed. cbn [size fibres]. split.
  - exact (Forall2_lookup_lr _ _ _ _ _ _ Hp Hs Hpi).
  - unfold sizes in Hs. destruct (decide (i < r)%nat) as [Hi|Hi].
    + rewrite lookup_app_l in Hs by (rewrite length_replicate; lia).
      by apply lookup_replicate in Hs as [-> _].
    + rewrite lookup_app_r in Hs by (rewrite length_replicate; lia).
      by apply lookup_replicate in Hs as [-> _].
Qed.

(** One section, with no knots fixed and every list long enough. *)
Lemma make_one_free (self : MultiSpline.t) (i : nat) (c : channelled) :
  (i < MultiSpline.num_splines self)%nat ->
  length (MultiSpline.ylims self) = MultiSpline.num_splines self ->
  length (MultiSpline.knots_x self) = MultiSpline.num_splines self ->
  length (MultiSpline.knots_y self) = MultiSpline.num_splines self ->
  length (MultiSpline.extraps self) = MultiSpline.num_splines self ->
  Forall (fun k => k = None) (MultiSpline.knots_x self) ->
  Forall (fun k => k = None) (MultiSpline.knots_y self) ->
  exists xlim ylim,
    MultiSpline.make_one self i c = make_spline (mk xlim ylim None None) c.
Proof.
  intros Hi Hy Hkx Hky He Hnx Hny. unfold MultiSpline.num_splines in *.
  destruct (lookup_lt_is_Some_2 (MultiSpline.xlims self) i) as [xl Hxl];
    [lia|].
  destruct (lookup_lt_is_Some_2 (MultiSpline.ylims self) i) as [yl Hyl];
    [lia|].
  destruct (lookup_lt_is_Some_2 (MultiSpline.knots_x self) i) as [kx Hkxi];
    [lia|].
  destruct (lookup_lt_is_Some_2 (MultiSpline.knots_y self) i) as [ky Hkyi];
    [lia|].
  destruct (lookup_lt_is_Some_2 (MultiSpline.extraps self) i) as [ex Hex];
    [lia|].
  pose proof (Forall_lookup_1 _ _ _ _ Hnx Hkxi) as ->.
  pose proof (Forall_lookup_1 _ _ _ _ Hny Hkyi) as ->.
  exists xl, yl. unfold MultiSpline.make_one.
  rewrite (index_Some _ _ _ Hkxi), (index_Some _ _ _ Hkyi),
    (index_Some _ _ _ Hyl), (index_Some _ _ _ Hxl), (index_Some _ _ _ Hex).
  done.
Qed.

(** X25.  [MultiRQSplineList_.make_spline] needs equal parts.  With every
    list of the engine holding one entry per spline and no knots fixed,
    [make_spline(out)] returns exactly when the number [n] of channels of
    [out] is a multiple of the number [k] of splines and [n / k] leaves the
    remainder [1] on division by [3]; it then returns [k] splines of
    [(n / k + 2) // 3] knots each.  In every other case, among them every
    [n] that [tensor_split] cuts into sections of two lengths, it raises
    [RuntimeError]. *)
Theorem multi_make_spline_equal_parts (self : MultiSpline.t)
    (out : channelled) :
  well_formed out ->
  (0 < MultiSpline.num_splines self)%nat ->
  length (MultiSpline.ylims self) = MultiSpline.num_splines self ->
  length (MultiSpline.knots_x self) = MultiSpline.num_splines self ->
  length (MultiSpline.knots_y self) = MultiSpline.num_splines self ->
  length (MultiSpline.extraps self) = MultiSpline.num_splines self ->
  Forall (fun k => k = None) (MultiSpline.knots_x self) ->
  Forall (fun k => k = None) (MultiSpline.knots_y self) ->
  let n := size out in
  let k := MultiSpline.num_splines self in
  if decide (n `mod` k = 0 /\ (n `div` k) `mod` 3 = 1)%nat
  then exists kws,
         MultiSpline.make_spline self out = inr kws /\
         length kws = k /\
         Forall (fun kw =>
           Forall (fun w => length w = (n `div` k + 2) `div` 3)%nat
                  (kw_knots_x kw) /\
           Forall (fun w => length w = (n `div` k + 2) `div` 3)%nat
                  (kw_knots_y kw) /\
           Forall (fun w => length w = (n `div` k + 2) `div` 3)%nat
                  (kw_knots_d kw)) kws
  else MultiSpline.make_spline self out = inl RuntimeError.
Proof.
  intros Hwf Hk Hy Hkx Hky He Hnx Hny n k.
  destruct (tensor_split_sections out k Hk Hwf)
    as (sections & Hsplit & Hlen & Hsec).
  unfold MultiSpline.make_spline. fold k. rewrite Hsplit.
  cbn [mbind py_bind]. fold n in Hsec.
  set (q := (n `div` k)%nat) in *. set (r := (n `mod` k)%nat) in *.
  pose proof (Nat.mod_upper_bound n k ltac:(lia)) as Hr. fold r in Hr.
  assert (Hone : forall i c, sections !! i = Some c ->
    exists xlim ylim,
      MultiSpline.make_one self i c = make_spline (mk xlim ylim None None) c).
  { intros i c Hc. apply make_one_free; try done.
    apply lookup_lt_Some in Hc. fold k. lia. }
  destruct (decide (r = 0 /\ q `mod` 3 = 1)%nat) as [[Hr0 Hq]|Hno].
  - destruct (mapM_enum_returns sections 0
                (MultiSpline.make_one self)
                (fun _ _ kw =>
                   Forall (fun w => length w = (q + 2) `div` 3)%nat
                          (kw_knots_x kw) /\
                   Forall (fun w => length w = (q + 2) `div` 3)%nat
                          (kw_knots_y kw) /\
                   Forall (fun w => length w = (q + 2) `div` 3)%nat
                          (kw_knots_d kw)))
      as (kws & Hkws & Hklen & Hall).
    { intros i c Hc. change (0 + i)%nat with i.
      destruct (Hsec i c Hc) as [Hcwf Hsize].
      rewrite decide_False in Hsize by lia.
      destruct (Hone i c Hc) as (xl & yl & ->).
      pose proof (make_spline_arity (mk xl yl None None) c Hcwf) as Hpart.
      cbv zeta in Hpart. cbn [knots_x knots_y] in Hpart.
      rewrite Hsize in Hpart. rewrite decide_True in Hpart by done.
      exact Hpart. }
    exists kws. split; [exact Hkws|]. split; [lia|].
    apply Forall_lookup. intros i kw Hkw.
    by destruct (Hall i kw Hkw) as (c & _ & HP).
  - apply (mapM_enum_raises RuntimeError sections 0
             (MultiSpline.make_one self)).
    + intros i c Hc. change (0 + i)%nat with i.
      destruct (Hsec i c Hc) as [Hcwf Hsize].
      destruct (Hone i c Hc) as (xl & yl & ->).
      pose proof (make_spline_arity (mk xl yl None None) c Hcwf) as Hpart.
      cbv zeta in Hpart. cbn [knots_x knots_y] in Hpart.
      destruct (decide (size c `mod` 3 = 1)%nat); [right|by left].
      destruct Hpart as (kw & Hkw & _). by exists kw.
    + assert (Hfail : forall i c, sections !! i = Some c ->
                (size c `mod` 3 <> 1)%nat ->
                MultiSpline.make_one self (0 + i) c = inl RuntimeError).
      { intros i c Hc Hmod. change (0 + i)%nat with i.
        destruct (Hsec i c Hc) as [Hcwf _].
        destruct (Hone i c Hc) as (xl & yl & ->).
        pose proof (make_spline_arity (mk xl yl None None) c Hcwf) as Hpart.
        cbv zeta in Hpart. cbn [knots_x knots_y] in Hpart.
        by rewrite decide_False in Hpart. }
      destruct (lookup_lt_is_Some_2 sections 0) as [c0 Hc0]; [lia|].
      destruct (lookup_lt_is_Some_2 sections (k - 1)) as [c1 Hc1]; [lia|].
      destruct (Hsec _ _ Hc0) as [_ Hs0]. destruct (Hsec _ _ Hc1) as [_ Hs1].
      rewrite decide_False in Hs1 by lia.
      destruct (decide (size c0 `mod` 3 = 1)%nat) as [Hm0|Hm0].
      * exists (k - 1)%nat, c1. split; [done|]. apply Hfail; [done|].
        rewrite Hs1. intros Hq. apply Hno.
        destruct (decide (0 < r)%nat) as [Hpos|Hpos]; [|lia].
        rewrite Hs0 in Hm0.
        pose proof (Nat.div_mod_eq q 3) as Hd1.
        pose proof (Nat.div_mod_eq (S q) 3) as Hd2. lia.
      * exists 0%nat, c0. split; [done|]. by apply Hfail.
Qed.

End MultiSplineFacts.

(** Two splines, eight channels at one position: two knots each. *)
Lemma multi_make_spline_equal_parts_witness :
  exists kws,
    MultiSpline.make_spline
      (MultiSpline.mk [(0, 1); (0, 1)]%R [(0, 1); (0, 1)]%R [None; None]
         [None; None] [tt; tt])
      (Spline.mk_channelled 8 [[1; 2; 3; 4; 5; 6; 7; 8]%R]) = inr kws /\
    length kws = 2%nat.
Proof.
  pose proof (multi_make_spline_equal_parts
                (MultiSpline.mk [(0, 1); (0, 1)]%R [(0, 1); (0, 1)]%R
                   [None; None] [None; None] [tt; tt])
                (Spline.mk_channelled 8 [[1; 2; 3; 4; 5; 6; 7; 8]%R])
                ltac:(repeat constructor) ltac:(vm_compute; lia)
                eq_refl eq_refl eq_refl eq_refl
                ltac:(repeat constructor) ltac:(repeat constructor)) as H.
  cbv zeta in H. rewrite decide_True in H by (by vm_compute).
  destruct H as (kws & Hkws & Hlen & _).
  exists kws. split; [exact Hkws|exact Hlen].
Defined.

(** ** The two halves of the even-odd mask *)

Section EvenOddFacts.

Open Scope Z_scope.

Lemma fmap_bind_list {A B C} (f : B -> C) (g : A -> list B) (l : list A) :
  f <$> (l ≫= g) = l ≫= (fun a => f <$> g a).
Proof.
  induction l as [|a l IH]; [done|].
  by rewrite !bind_cons, fmap_app, IH.
Qed.

Lemma fmap_bind_singletons {A B C} (f : B -> C) (h : A -> B) (l : list A) :
  f <$> (l ≫= (fun a => [h a])) = (fun a => f (h a)) <$> l.
Proof.
  induction l as [|a l IH]; [done|].
  rewrite bind_cons, fmap_app, IH. done.
Qed.

Lemma bind_concat {A B} (g : A -> list B) (l : list A) :
  l ≫= g = concat (g <$> l).
Proof.
  induction l as [|a l IH]; [done|]. rewrite bind_cons, IH. done.
Qed.

(** The even-odd mask of a lattice, slice by slice along the first axis. *)
Lemma evenodd_cons (k : nat) (shape : list nat) (parity : Z) :
  Mask.evenodd (k :: shape) parity
  = concat ((fun a => Mask.evenodd shape (parity + Z.of_nat a))
              <$> Mask.range k).
Proof.
  unfold Mask.evenodd. cbn [fmap list_fmap Mask.product].
  rewrite fmap_bind_list, bind_concat. f_equal.
  apply list_fmap_ext. intros _ a _.
  rewrite fmap_bind_singletons.
  apply list_fmap_ext. intros _ ind _.
  change (Mask.sum (a :: ind)) with (Z.of_nat a + Mask.sum ind).
  do 2 f_equal. lia.
Qed.

(** How many sites of a mask belong to channel [v]. *)
Local Abbreviation count v m := (length (Mask.select m v m)).

Lemma count_concat (v : Z) (ms : list (list Z)) (c : nat) :
  Forall (fun m => count v m = c) ms ->
  count v (concat ms) = (length ms * c)%nat.
Proof.
  induction 1 as [|m ms Hm _ IH]; [done|].
  cbn [concat]. rewrite select_self_app, length_app, IH, Hm. simpl. lia.
Qed.

Lemma count_line (v parity : Z) (h : nat) :
  v = 0 \/ v = 1 ->
  forall s : nat,
    count v ((fun a : nat => Mask.to_uint8 ((Z.of_nat a + parity) mod 2))
               <$> seq s (2 * h)) = h.
Proof.
  intros Hv. induction h as [|h IH]; intros s; [done|].
  replace (2 * S h)%nat with (S (S (2 * h))) by lia.
  cbn [seq]. rewrite !fmap_cons. specialize (IH (S (S s))).
  set (rest := (fun a : nat => Mask.to_uint8 ((Z.of_nat a + parity) mod 2))
                 <$> seq (S (S s)) (2 * h)) in *.
  assert (Hz : (Mask.to_uint8 ((Z.of_nat s + parity) mod 2) = 0 /\
                Mask.to_uint8 ((Z.of_nat (S s) + parity) mod 2) = 1) \/
               (Mask.to_uint8 ((Z.of_nat s + parity) mod 2) = 1 /\
                Mask.to_uint8 ((Z.of_nat (S s) + parity) mod 2) = 0)).
  { unfold Mask.to_uint8.
    replace (Z.of_nat (S s) + parity) with (Z.of_nat s + parity + 1) by lia.
    rewrite (Zplus_mod (Z.of_nat s + parity) 1).
    pose proof (Z.mod_pos_bound (Z.of_nat s + parity) 2 ltac:(lia)) as H0.
    assert (Hc : (Z.of_nat s + parity) mod 2 = 0
                 \/ (Z.of_nat s + parity) mod 2 = 1) by lia.
    destruct Hc as [-> | ->]; [left|right]; split; reflexivity. }
  destruct Hz as [[-> ->]|[-> ->]], Hv as [-> | ->];
    cbn [Mask.select Z.eqb Pos.eqb length]; by rewrite IH.
Qed.

Lemma evenodd_line (l : nat) (parity : Z) :
  Mask.evenodd [l] parity
  = (fun a : nat => Mask.to_uint8 ((Z.of_nat a + parity) mod 2)) <$> seq 0 l.
Proof.
  rewrite evenodd_cons. unfold Mask.range, Mask.evenodd.
  cbn [fmap list_fmap Mask.product Mask.sum foldr].
  induction (seq 0 l) as [|a s IH]; [done|].
  rewrite !fmap_cons. cbn [concat app]. rewrite IH. do 3 f_equal. lia.
Qed.

Lemma count_evenodd (v : Z) (h : nat) :
  v = 0 \/ v = 1 ->
  forall (pre : list nat) (parity : Z),
    count v (Mask.evenodd (pre ++ [(2 * h)%nat]) parity)
    = (Mask.numel pre * h)%nat.
Proof.
  intros Hv. induction pre as [|k pre IH]; intros parity.
  - cbn [app]. rewrite evenodd_line, count_line by done.
    unfold Mask.numel. simpl. lia.
  - cbn [app]. rewrite evenodd_cons.
    rewrite (count_concat v _ (Mask.numel pre * h)).
    + rewrite length_fmap. unfold Mask.range. rewrite length_seq.
      change (Mask.numel (k :: pre)) with (k * Mask.numel pre)%nat. lia.
    + apply Forall_fmap, Forall_true. intros a. simpl. apply IH.
Qed.

(** X26.  The even-odd mask on a lattice whose last axis has an even number
    [2 h] of sites, for any integer parity: each of the two channels holds
    [h] sites of every line, half the sites of the lattice, so that the two
    tensors [split] returns in the reshaped mode have the same shape. *)
Theorem evenodd_balanced (shape : list nat) (parity : Z) (ks : bool)
    (self : Mask.t) (h : nat) :
  Mask.init shape parity ks Mask.even_odd = inr self ->
  last shape = Some (2 * h)%nat ->
  Mask.width self 0 = (Mask.numel (removelast shape) * h)%nat /\
  Mask.width self 1 = (Mask.numel (removelast shape) * h)%nat /\
  (2 * Mask.width self 0 = Mask.numel shape)%nat.
Proof.
  intros Hinit Hlast.
  assert (Hmask : Mask.mask self = Mask.evenodd shape parity).
  { revert Hinit. unfold Mask.init. cbn [Mask.get_mask mbind py_bind mret py_ret].
    destruct ks; cbn [mbind py_bind mret py_ret]; by intros [= <-]. }
  pose proof (numel_last _ _ Hlast) as Hnumel.
  apply last_Some in Hlast as [pre ->].
  rewrite removelast_last in *.
  unfold Mask.width. rewrite Hmask. cbn [Z.of_nat].
  rewrite !count_evenodd by auto. split; [done|]. split; [done|]. lia.
Qed.


End EvenOddFacts.

(** A lattice of three lines of four sites: six sites in each channel. *)
Lemma evenodd_balanced_witness :
  Mask.width
    (Mask.mk [0; 1; 0; 1; 1; 0; 1; 0; 0; 1; 0; 1]%Z None [3; 4]%nat true) 0
    = 6%nat /\
  Mask.width
    (Mask.mk [0; 1; 0; 1; 1; 0; 1; 0; 0; 1; 0; 1]%Z None [3; 4]%nat true) 1
    = 6%nat.
Proof.
  destruct (evenodd_balanced [3; 4]%nat 0 true
              (Mask.mk [0; 1; 0; 1; 1; 0; 1; 0; 0; 1; 0; 1]%Z None
                 [3; 4]%nat true) 2 eq_refl eq_refl) as (H0 & H1 & _).
  split; [exact H0|exact H1].
Defined.
